(** * thatbrowser: the plan / parse / execute / report loop

    A shallow embedding of the parts of [src/main/ai-service.js] and
    [src/renderer/components/AIPanel.jsx] that the specification talks
    about: the command grammar parser and its companion text cleaner, the
    automation executor and its step tracker, the request lifecycle manager,
    provider validation and dispatch, message shaping and the stream
    decoders.

    Conventions.  A JavaScript string is a list of UTF-16 code units
    ([list N]).  Regular expressions are embedded as a small syntax with a
    backtracking matcher that follows the ECMAScript priorities (leftmost
    start, greedy quantifiers retreat, lazy quantifiers advance).  Effects
    are embedded as traces: a function returns the list of events it
    produced together with its result. *)

From Stdlib Require Import String Ascii.
From Stdlib Require Import List NArith ZArith QArith Bool Lia Arith DecimalString.
From Stdlib Require Import Permutation Sorted.
Import ListNotations.
Close Scope Q_scope.

Set Implicit Arguments.
Set Warnings "-register-all".

(* ================================================================== *)
(** * Part I. Definitions *)
(* ================================================================== *)

(** ** JavaScript strings *)

Definition char := N.
Definition str := list char.

(** An ASCII literal as a JavaScript string. *)
Definition js (s : string) : str :=
  map N_of_ascii (list_ascii_of_string s).

Definition dq : char := 34%N.      (* the double quote *)
Definition nl : char := 10%N.      (* U+000A *)
Definition bt : char := 96%N.      (* the backtick *)

(** A double-quoted literal: [q s] is [s] between two double quotes. *)
Definition q (s : string) : str := dq :: js s ++ [dq].

Definition str_eqb (a b : str) : bool :=
  if list_eq_dec N.eq_dec a b then true else false.

(** ECMAScript WhiteSpace and LineTerminator code points: what [\s]
    matches and what [String.prototype.trim] strips. *)
Definition is_space (c : char) : bool :=
  ((c =? 9) || (c =? 10) || (c =? 11) || (c =? 12) || (c =? 13) ||
   (c =? 32) || (c =? 160) || (c =? 5760) ||
   ((8192 <=? c) && (c <=? 8202)) ||
   (c =? 8232) || (c =? 8233) || (c =? 8239) || (c =? 8287) ||
   (c =? 12288) || (c =? 65279))%N.

(** [\d] *)
Definition is_digit (c : char) : bool := ((48 <=? c) && (c <=? 57))%N.

(** [\w] *)
Definition is_word (c : char) : bool :=
  (((48 <=? c) && (c <=? 57)) || ((65 <=? c) && (c <=? 90)) ||
   ((97 <=? c) && (c <=? 122)) || (c =? 95))%N.

(** The class of every code unit but the double quote. *)
Definition not_dq (c : char) : bool := negb (c =? dq)%N.

(** [[\s\S]] *)
Definition any_char (c : char) : bool := true.

Definition is_nl (c : char) : bool := (c =? nl)%N.

Fixpoint dropWhile (p : char -> bool) (s : str) : str :=
  match s with
  | [] => []
  | c :: s' => if p c then dropWhile p s' else s
  end.

Definition trimStart (s : str) : str := dropWhile is_space s.
Definition trimEnd (s : str) : str := rev (dropWhile is_space (rev s)).

(** [s.trim()] *)
Definition trim (s : str) : str := trimEnd (trimStart s).

(** [s.split('\n')]: always at least one piece. *)
Fixpoint split_nl (s : str) : list str :=
  match s with
  | [] => [[]]
  | c :: s' =>
      if is_nl c then [] :: split_nl s'
      else match split_nl s' with
           | l :: ls => (c :: l) :: ls
           | [] => [[c]]
           end
  end.

(** The complete lines of a text, and the unfinished line after its last
    newline: what [lines] and [buffer] hold after [lines.pop()]. *)
Definition complete_lines (s : str) : list str := removelast (split_nl s).
Definition remainder (s : str) : str := last (split_nl s) [].

(** [lines.join('\n')] *)
Fixpoint join_nl (ls : list str) : str :=
  match ls with
  | [] => []
  | [l] => l
  | l :: ls' => l ++ nl :: join_nl ls'
  end.

(** [s.startsWith(p)] *)
Fixpoint startsWith (p s : str) : bool :=
  match p, s with
  | [], _ => true
  | _ :: _, [] => false
  | a :: p', b :: s' => (a =? b)%N && startsWith p' s'
  end.

(** A decimal numeral, as a template literal prints a small integer. *)
Definition show_Z (z : Z) : str :=
  js (DecimalString.NilZero.string_of_int (Z.to_int z)).

(** *** Numbers *)

(** A JavaScript Number, as far as the sources compute one from digits:
    an integer that a double holds exactly, or an infinity.  Negative
    zero is not told from zero: the sources only compare a number with 0,
    take its absolute value or its minimum with 10000, print it in a
    template literal or send it over IPC, and none of these tells the
    two apart. *)
Inductive number : Type :=
| Finite (z : Z)
| Infinity
| NegInfinity.

Bind Scope Z_scope with number.
Coercion Finite : Z >-> number.

Definition number_eqb (x y : number) : bool :=
  match x, y with
  | Finite a, Finite b => (a =? b)%Z
  | Infinity, Infinity | NegInfinity, NegInfinity => true
  | _, _ => false
  end.

(** [-x] *)
Definition negate (x : number) : number :=
  match x with
  | Finite z => Finite (- z)
  | Infinity => NegInfinity
  | NegInfinity => Infinity
  end.

(** [x > 0] *)
Definition positive (x : number) : bool :=
  match x with
  | Finite z => (0 <? z)%Z
  | Infinity => true
  | NegInfinity => false
  end.

(** [x <= y] *)
Definition number_leb (x y : number) : bool :=
  match x, y with
  | NegInfinity, _ | _, Infinity => true
  | Finite a, Finite b => (a <=? b)%Z
  | _, _ => false
  end.

(** [Math.abs(x)] *)
Definition Math_abs (x : number) : number :=
  match x with
  | Finite z => Finite (Z.abs z)
  | Infinity | NegInfinity => Infinity
  end.

(** [Math.min(x, y)] *)
Definition Math_min (x y : number) : number :=
  if number_leb x y then x else y.

(** The double nearest to the integer [z >= 0], ties going to the even
    significand: an integer of at most 53 bits is a double; a longer one
    keeps its 53 leading bits, rounded on the bits dropped; from
    2^1024 - 2^970 on, the result is Infinity. *)
Definition round_double (z : Z) : number :=
  let bits := (Z.log2 z + 1)%Z in
  if (bits <=? 53)%Z then Finite z
  else
    let e := (bits - 53)%Z in
    let q := Z.shiftr z e in
    let r := Z.land z (Z.ones e) in
    let half := Z.shiftl 1 (e - 1) in
    let q' := if (half <? r)%Z || ((r =? half)%Z && Z.odd q)
              then (q + 1)%Z else q in
    let v := Z.shiftl q' e in
    if (Z.shiftl 1 1024 <=? v)%Z then Infinity else Finite v.

(** The value of a run of decimal digits, as a numeral denotes it. *)
Definition digits_value (s : str) : Z :=
  fold_left (fun acc c => (10 * acc + (Z.of_N c - 48))%Z) s 0%Z.

(** [+m[1]] for a capture of [-?\d+]: the Number nearest to the numeral. *)
Definition to_number (s : str) : number :=
  match s with
  | 45%N :: ds => negate (round_double (digits_value ds))
  | _ => round_double (digits_value s)
  end.

Definition pow10 (n : nat) : Z := (10 ^ Z.of_nat n)%Z.

(** Number::toString, step 5: the shortest decimal significand [s], of
    [k] digits, with [s * 10^(n-k)] rounding to the double [z]; of two
    such the one nearer to [z], and the even one on a tie.  The search
    starts at [k] digits; [n] is the number of digits of [z]. *)
Fixpoint shortest (fuel k n : nat) (z : Z) : Z * nat :=
  match fuel with
  | O => (z, n)
  | S fuel' =>
      let unit := pow10 (n - k) in
      let lo := (z / unit)%Z in
      let hi := (lo + 1)%Z in
      let lo_ok := number_eqb (round_double (lo * unit)) (Finite z) in
      let hi_ok := (hi <? pow10 k)%Z &&
                   number_eqb (round_double (hi * unit)) (Finite z) in
      if lo_ok && hi_ok then
        let dlo := (z - lo * unit)%Z in
        let dhi := (hi * unit - z)%Z in
        if (dlo <? dhi)%Z then (lo, k)
        else if (dhi <? dlo)%Z then (hi, k)
        else if Z.even lo then (lo, k) else (hi, k)
      else if lo_ok then (lo, k)
      else if hi_ok then (hi, k)
      else shortest fuel' (S k) n z
  end.

(** Number::toString for a positive integer-valued double: the digits of
    the significand followed by zeros up to 21 digits, the exponent
    notation beyond. *)
Definition show_positive (z : Z) : str :=
  let n0 := length (show_Z z) in
  let '(s, k, n) :=
    if number_eqb (round_double (pow10 n0)) (Finite z) then (1%Z, 1, S n0)
    else let (s, k) := shortest n0 1 n0 z in (s, k, n0) in
  let ds := show_Z s in
  if n <=? 21 then ds ++ repeat 48%N (n - k)
  else
    match ds with
    | d :: rest =>
        d :: match rest with [] => [] | _ => 46%N :: rest end ++
        js "e+" ++ show_Z (Z.of_nat (n - 1))
    | [] => []
    end.

(** A number inside a template literal: Number::toString. *)
Definition show_number (x : number) : str :=
  match x with
  | Infinity => js "Infinity"
  | NegInfinity => js "-Infinity"
  | Finite z =>
      if (z =? 0)%Z then js "0"
      else if (z <? 0)%Z then 45%N :: show_positive (- z)
      else show_positive z
  end.

(** ** Regular expressions *)

Module Regex.

(** The fragment of the ECMAScript pattern language that the sources use.
    Quantifiers only ever apply to a one-character atom there, so [Star]
    and [StarLazy] take a character class. *)
Inductive regex : Type :=
| Eps                                (* the empty pattern *)
| Chr (c : char)                     (* a literal code unit *)
| Cls (p : char -> bool)             (* a character class *)
| Cat (r1 r2 : regex)                (* r1r2 *)
| Alt (r1 r2 : regex)                (* r1|r2 *)
| Star (p : char -> bool)            (* p*, greedy *)
| StarLazy (p : char -> bool)        (* p*?, lazy *)
| Opt (r : regex)                    (* r?, greedy *)
| Grp (r : regex).                   (* (r), capturing *)

(** A literal word. *)
Definition lit (s : string) : regex :=
  fold_right (fun c r => Cat (Chr c) r) Eps (js s).

(** [p+] *)
Definition Plus (p : char -> bool) : regex := Cat (Cls p) (Star p).

Section Matcher.
Variable A : Type.

(** The continuation receives the unread input and the captures made so
    far (in the order their groups closed). *)
Definition cont := str -> list str -> option A.

Definition orElse (a b : option A) : option A :=
  match a with Some _ => a | None => b end.

(** Greedy: take as many as possible, give back one at a time. *)
Fixpoint star_greedy (p : char -> bool) (k : str -> option A) (s : str)
  : option A :=
  match s with
  | c :: s' => if p c then orElse (star_greedy p k s') (k s) else k s
  | [] => k s
  end.

(** Lazy: take as few as possible, take one more on failure. *)
Fixpoint star_lazy (p : char -> bool) (k : str -> option A) (s : str)
  : option A :=
  match k s with
  | Some a => Some a
  | None =>
      match s with
      | c :: s' => if p c then star_lazy p k s' else None
      | [] => None
      end
  end.

Fixpoint rmatch (r : regex) (s : str) (caps : list str) (k : cont)
  : option A :=
  match r with
  | Eps => k s caps
  | Chr c =>
      match s with
      | x :: s' => if (x =? c)%N then k s' caps else None
      | [] => None
      end
  | Cls p =>
      match s with
      | x :: s' => if p x then k s' caps else None
      | [] => None
      end
  | Cat r1 r2 => rmatch r1 s caps (fun s' caps' => rmatch r2 s' caps' k)
  | Alt r1 r2 => orElse (rmatch r1 s caps k) (rmatch r2 s caps k)
  | Star p => star_greedy p (fun s' => k s' caps) s
  | StarLazy p => star_lazy p (fun s' => k s' caps) s
  | Opt r' => orElse (rmatch r' s caps k) (k s caps)
  | Grp r' =>
      rmatch r' s caps
        (fun s' caps' =>
           k s' (caps' ++ [firstn (length s - length s') s]))
  end.
End Matcher.

(** A successful match: the matched text, the unread input, the captures. *)
Record found := Found { matched : str; rest : str; groups : list str }.

(** Match [r] at the very start of [s] (a pattern that begins with [^]). *)
Definition match_here (r : regex) (s : str) : option found :=
  rmatch r s []
    (fun s' caps => Some (Found (firstn (length s - length s') s) s' caps)).

(** [s.match(r)] for a pattern without flags: the leftmost start at which
    [r] matches. The result also carries the text before the match. *)
Fixpoint exec (r : regex) (s : str) : option (str * found) :=
  match match_here r s with
  | Some f => Some ([], f)
  | None =>
      match s with
      | [] => None
      | c :: s' =>
          match exec r s' with
          | Some (pre, f) => Some (c :: pre, f)
          | None => None
          end
      end
  end.

(** [s.replace(r, fn)] for a pattern without the [g] flag. *)
Definition replace_first (r : regex) (fn : str -> str) (s : str) : str :=
  match exec r s with
  | Some (pre, f) => pre ++ fn (matched f) ++ rest f
  | None => s
  end.

(** [s.replace(r, fn)] for a pattern with the [g] flag.  [skip] counts the
    code units of a previous match that are still to be passed over; after
    an empty match the scan copies one code unit and moves on. *)
Fixpoint replace_all_from (r : regex) (fn : str -> str) (skip : nat)
  (s : str) : str :=
  match skip with
  | S n =>
      match s with
      | _ :: s' => replace_all_from r fn n s'
      | [] => []
      end
  | O =>
      match match_here r s with
      | Some f =>
          match s with
          | [] => fn (matched f)
          | c :: s' =>
              match length (matched f) with
              | O => fn (matched f) ++ c :: replace_all_from r fn 0 s'
              | S n => fn (matched f) ++ replace_all_from r fn n s'
              end
          end
      | None =>
          match s with
          | [] => []
          | c :: s' => c :: replace_all_from r fn 0 s'
          end
      end
  end.

Definition replace_all (r : regex) (fn : str -> str) (s : str) : str :=
  replace_all_from r fn 0 s.

End Regex.
Import Regex.

Declare Scope re_scope.
Delimit Scope re_scope with re.
Infix ";;" := Cat (at level 61, right associativity) : re_scope.
Local Open Scope re_scope.

(** [\s*] *)
Definition ws : regex := Star is_space.

Definition lp : regex := Chr 40%N.          (* \( *)
Definition rp : regex := Chr 41%N.          (* \) *)
Definition comma : regex := Chr 44%N.
Definition quote : regex := Chr dq.

(** A quoted argument with a greedy capture: a double quote, a captured
    run of non-quote code units, a double quote. *)
Definition quoted : regex := quote ;; Grp (Star not_dq) ;; quote.

(** The same with the lazy capture that FILL uses for its selector. *)
Definition quoted_lazy : regex := quote ;; Grp (StarLazy not_dq) ;; quote.

(** ** The command grammar parser ([parseCommands], AIPanel.jsx and the
    identical copy in the automations tab) *)

Inductive command : Type :=
| Click (x y : number)                (* { type: 'click', x, y } *)
| ClickElement (selector : str)       (* { type: 'click_element', selector } *)
| TypeText (text : str)               (* { type: 'type', text } *)
| Fill (selector value : str)         (* { type: 'fill', selector, value } *)
| Press (key : str)                   (* { type: 'press', key } *)
| Scroll (deltaY : number)            (* { type: 'scroll', deltaY } *)
| Navigate (url : str)                (* { type: 'navigate', url } *)
| Wait (ms : number)                  (* { type: 'wait', ms } *)
| Find (selector : str).              (* { type: 'find', selector } *)

(** /CLICK\s*\(\s*(\d+)\s*,\s*(\d+)\s*\)/ *)
Definition re_click : regex :=
  lit "CLICK" ;; ws ;; lp ;; ws ;; Grp (Plus is_digit) ;; ws ;; comma ;;
  ws ;; Grp (Plus is_digit) ;; ws ;; rp.

(** CLICK_ELEMENT, \s*, \(, \s*, a quoted argument, \s*, \) *)
Definition re_click_element : regex :=
  lit "CLICK_ELEMENT" ;; ws ;; lp ;; ws ;; quoted ;; ws ;; rp.

(** TYPE, \s*, \(, \s*, a quoted argument, \s*, \) *)
Definition re_type : regex :=
  lit "TYPE" ;; ws ;; lp ;; ws ;; quoted ;; ws ;; rp.

(** PRESS, \s*, \(, \s*, a quoted argument, \s*, \) *)
Definition re_press : regex :=
  lit "PRESS" ;; ws ;; lp ;; ws ;; quoted ;; ws ;; rp.

(** /SCROLL\s*\(\s*(-?\d+)\s*\)/ *)
Definition re_scroll : regex :=
  lit "SCROLL" ;; ws ;; lp ;; ws ;;
  Grp (Opt (Chr 45%N) ;; Plus is_digit) ;; ws ;; rp.

(** NAVIGATE, \s*, \(, \s*, a quoted argument, \s*, \) *)
Definition re_navigate : regex :=
  lit "NAVIGATE" ;; ws ;; lp ;; ws ;; quoted ;; ws ;; rp.

(** /WAIT\s*\(\s*(\d+)\s*\)/ *)
Definition re_wait : regex :=
  lit "WAIT" ;; ws ;; lp ;; ws ;; Grp (Plus is_digit) ;; ws ;; rp.

(** FIND, \s*, \(, \s*, a quoted argument, \s*, \) *)
Definition re_find : regex :=
  lit "FIND" ;; ws ;; lp ;; ws ;; quoted ;; ws ;; rp.

(** FILL, \s*, \(, \s*, a quoted argument with a lazy capture, \s*, a
    comma, \s*, a quoted argument, \s*, \) *)
Definition re_fill : regex :=
  lit "FILL" ;; ws ;; lp ;; ws ;; quoted_lazy ;; ws ;; comma ;; ws ;;
  quoted ;; ws ;; rp.

(** /```[\s\S]*?```/g *)
Definition re_fence_block : regex :=
  lit "```" ;; StarLazy any_char ;; lit "```".

(** /```\w*\n?/ *)
Definition re_fence_open : regex :=
  lit "```" ;; Star is_word ;; Opt (Chr nl).

(** /```/ *)
Definition re_fence : regex := lit "```".

(** [trimmed.match(re)]: the match object, or [None] for JavaScript's
    null. *)
Definition jsmatch (r : regex) (s : str) : option found :=
  option_map snd (exec r s).

(** [m[1]] and [m[2]]. *)
Definition m1 (m : found) : str := nth 0 (groups m) [].
Definition m2 (m : found) : str := nth 1 (groups m) [].

(** [(block) => block.replace(/```\w*\n?/, '').replace(/```/, '')] *)
Definition unfence (block : str) : str :=
  replace_first re_fence (fun _ => [])
    (replace_first re_fence_open (fun _ => []) block).

(** The body of the [for (const line of lines)] loop: the if / else-if
    chain over the trimmed line, in the order of the source. *)
Definition parse_line (line : str) : option command :=
  let trimmed := trim line in
  match trimmed with
  | [] => None                                        (* continue *)
  | _ =>
    match jsmatch re_click trimmed with
    | Some m => Some (Click (to_number (m1 m)) (to_number (m2 m)))
    | None =>
    match jsmatch re_click_element trimmed with
    | Some m => Some (ClickElement (m1 m))
    | None =>
    match jsmatch re_type trimmed with
    | Some m => Some (TypeText (m1 m))
    | None =>
    match jsmatch re_press trimmed with
    | Some m => Some (Press (m1 m))
    | None =>
    match jsmatch re_scroll trimmed with
    | Some m => Some (Scroll (to_number (m1 m)))
    | None =>
    match jsmatch re_navigate trimmed with
    | Some m => Some (Navigate (m1 m))
    | None =>
    match jsmatch re_wait trimmed with
    | Some m => Some (Wait (to_number (m1 m)))
    | None =>
    match jsmatch re_find trimmed with
    | Some m => Some (Find (m1 m))
    | None =>
    match jsmatch re_fill trimmed with
    | Some m => Some (Fill (m1 m) (m2 m))
    | None => None
    end end end end end end end end end
  end.

(** One turn of the loop on the accumulator [commands]. *)
Definition parse_step (commands : list command) (line : str)
  : list command :=
  match parse_line line with
  | Some c => commands ++ [c]                         (* commands.push *)
  | None => commands
  end.

(** What a line contributes to the command list. *)
Definition emit (o : option command) : list command :=
  match o with Some c => [c] | None => [] end.

Definition parseCommands (text : str) : list command :=
  let allText := replace_all re_fence_block unfence text in
  let lines := split_nl allText in
  fold_left parse_step lines [].

(** ** The text cleaner ([cleanMessageText], AIPanel.jsx) *)

(** /^(CLICK_ELEMENT|CLICK|TYPE|FILL|PRESS|SCROLL|NAVIGATE|WAIT|FIND)\s*\(/
    without its anchor: the anchor is rendered by [match_here]. *)
Definition re_signature : regex :=
  Grp (Alt (lit "CLICK_ELEMENT") (Alt (lit "CLICK") (Alt (lit "TYPE")
      (Alt (lit "FILL") (Alt (lit "PRESS") (Alt (lit "SCROLL")
      (Alt (lit "NAVIGATE") (Alt (lit "WAIT") (lit "FIND"))))))))) ;;
  ws ;; lp.

(** The filter callback: keep the line unless its trimmed text starts with
    a command signature. *)
Definition keep_line (line : str) : bool :=
  let t := trim line in
  match match_here re_signature t with
  | Some _ => false
  | None => true
  end.

(** /\n{3,}/g *)
Definition re_blank_run : regex :=
  Chr nl ;; Chr nl ;; Chr nl ;; Star is_nl.

Definition cleanMessageText (text : str) : str :=
  trim
    (replace_all re_blank_run (fun _ => [nl; nl])
       (join_nl (filter keep_line (split_nl text)))).

(** The trimmed, non-blank lines of a list of lines: all that the parser
    looks at. *)
Definition nonblank (s : str) : bool :=
  match s with [] => false | _ => true end.

Definition texts (ls : list str) : list str :=
  filter nonblank (map trim ls).

Definition first_line (s : str) : str := hd [] (split_nl s).
Definition rest_lines (s : str) : list str := tl (split_nl s).

(** *** The parser as the specification words it *)

(** A command pattern: its regular expression and the command built from a
    match. *)
Definition pattern : Type := (regex * (found -> command))%type.

(** The patterns in the order in which [parse_line] tries them. *)
Definition patterns_in_source_order : list pattern :=
  [ (re_click, fun m => Click (to_number (m1 m)) (to_number (m2 m)));
    (re_click_element, fun m => ClickElement (m1 m));
    (re_type, fun m => TypeText (m1 m));
    (re_press, fun m => Press (m1 m));
    (re_scroll, fun m => Scroll (to_number (m1 m)));
    (re_navigate, fun m => Navigate (m1 m));
    (re_wait, fun m => Wait (to_number (m1 m)));
    (re_find, fun m => Find (m1 m));
    (re_fill, fun m => Fill (m1 m) (m2 m)) ].

(** The command of the first pattern of [ps] that occurs in [s]. *)
Fixpoint first_match (ps : list pattern) (s : str) : option command :=
  match ps with
  | [] => None
  | (r, build) :: ps' =>
      match jsmatch r s with
      | Some m => Some (build m)
      | None => first_match ps' s
      end
  end.

(** The string arguments of a command. *)
Definition string_args (c : command) : list str :=
  match c with
  | ClickElement s | TypeText s | Press s | Navigate s | Find s => [s]
  | Fill s v => [s; v]
  | Click _ _ | Scroll _ | Wait _ => []
  end.

Definition is_fill (c : command) : bool :=
  match c with Fill _ _ => true | _ => false end.

(** ** The automation executor and its step tracker
    ([executeAutomationCommands] and its callers, AIPanel.jsx) *)

Module Executor.

Definition ellipsis : str := [8230%N].
Definition arrow : str := [8594%N].
Definition dash : str := [8212%N].

(** [s.length > n ? s.substring(0, n) + ellipsis : s] *)
Definition clip (n : nat) (s : str) : str :=
  if Nat.ltb n (length s) then firstn n s ++ ellipsis else s.

Definition describeCommand (cmd : command) : str :=
  match cmd with
  | Click x y =>
      js "Click at (" ++ show_number x ++ js ", " ++ show_number y ++
      js ")"
  | ClickElement selector => js "Click " ++ dq :: selector ++ [dq]
  | TypeText text => js "Type " ++ dq :: clip 30 text ++ [dq]
  | Fill selector value =>
      js "Fill " ++ dq :: selector ++ dq :: js " " ++ arrow ++ js " " ++
      dq :: clip 20 value ++ [dq]
  | Press key => js "Press " ++ key
  | Scroll deltaY =>
      js "Scroll " ++ (if positive deltaY then js "down" else js "up") ++
      js " " ++ show_number (Math_abs deltaY) ++ js "px"
  | Navigate url => js "Navigate " ++ arrow ++ js " " ++ clip 40 url
  | Wait ms => js "Wait " ++ show_number ms ++ js "ms"
  | Find selector => js "Find " ++ dq :: selector ++ [dq]
  end.

Inductive status : Type := pending | running | done | error.

(** A step record: [{ detail, status, duration }]; [None] is null. *)
Record step := Step {
  detail : str;
  st_status : status;
  duration : option Z
}.

(** The object passed to [onStepUpdate]; an absent key is [None]. *)
Record update := Update {
  u_status : status;
  u_detail : option str;
  u_duration : option Z
}.

(** [{ ...s, ...update }] *)
Definition merge (s : step) (u : update) : step :=
  {| detail := match u_detail u with Some d => d | None => detail s end;
     st_status := u_status u;
     duration := match u_duration u with
                 | Some d => Some d
                 | None => duration s
                 end |}.

(** [prev.map((s, i) => i === stepIndex ? { ...s, ...update } : s)] *)
Fixpoint apply_update (prev : list step) (stepIndex : nat) (u : update)
  : list step :=
  match prev, stepIndex with
  | [], _ => []
  | s :: rest, O => merge s u :: rest
  | s :: rest, S i => s :: apply_update rest i u
  end.

(** [cmds.map(cmd => ({ detail: describeCommand(cmd), status: 'pending',
    duration: null }))] *)
Definition initialSteps (cmds : list command) : list step :=
  map (fun cmd => Step (describeCommand cmd) pending None) cmds.

(** What a call into [window.browserAPI.automation] does: it resolves with
    a result whose [error] field is absent ([None]) or a string, or it
    throws an error with a message. *)
Inductive outcome : Type :=
| Returns (result_error : option str)
| Throws (message : str).

(** [result?.error] as a condition. *)
Definition has_error (o : option str) : bool :=
  match o with
  | Some (_ :: _) => true
  | _ => false
  end.

(** The tracker and the clock.  [clock] counts the calls to [Date.now()];
    [trace] records every call to [onStepUpdate], oldest first. *)
Record state := State {
  steps : list step;
  clock : nat;
  trace : list (nat * update)
}.

Section Run.
(** The page: what the call for command number [i] does. *)
Variable invoke : nat -> command -> outcome.
(** The wall clock: the value of the [n]-th call to [Date.now()]. *)
Variable now : nat -> Z.

Definition onStepUpdate (i : nat) (u : update) (s : state) : state :=
  {| steps := apply_update (steps s) i u;
     clock := clock s;
     trace := trace s ++ [(i, u)] |}.

Definition tick (s : state) : state :=
  {| steps := steps s; clock := S (clock s); trace := trace s |}.

(** One turn of the [for] loop, for command [cmd] at index [i]. *)
Definition run_command (i : nat) (cmd : command) (s : state) : state :=
  let startTime := now (clock s) in
  let s := tick s in
  let s := onStepUpdate i (Update running None None) s in
  match invoke i cmd with
  | Returns result_error =>
      let duration := (now (clock s) - startTime)%Z in
      let s := tick s in
      if has_error result_error then
        onStepUpdate i
          (Update error
             (Some (describeCommand cmd ++ js " " ++ dash ++ js " " ++
                    match result_error with Some e => e | None => [] end))
             (Some duration)) s
      else
        onStepUpdate i (Update done None (Some duration)) s
  | Throws message =>
      let duration := (now (clock s) - startTime)%Z in
      let s := tick s in
      onStepUpdate i
        (Update error
           (Some (describeCommand cmd ++ js " " ++ dash ++ js " " ++
                  message))
           (Some duration)) s
  end.

(** The loop from index [i] on. *)
Fixpoint run_from (i : nat) (commands : list command) (s : state)
  : state :=
  match commands with
  | [] => s
  | cmd :: rest => run_from (S i) rest (run_command i cmd s)
  end.

(** What a failing call looks like: it threw, or it returned a result
    with a non-empty [error]. *)
Definition fails_with (i : nat) (cmd : command) (msg : str) : Prop :=
  invoke i cmd = Throws msg \/
  (invoke i cmd = Returns (Some msg) /\ msg <> []).

(** A run as the callers start it: the steps are set to [initialSteps]
    and the callback given to the executor updates them. *)
Definition executeAutomationCommands (commands : list command) : state :=
  run_from 0 commands (State (initialSteps commands) 0 []).
End Run.

Definition is_terminal (st : status) : bool :=
  match st with done | error => true | _ => false end.

(** The order of the step life cycle. *)
Definition rank (st : status) : nat :=
  match st with pending => 0 | running => 1 | done => 2 | error => 2 end.

(** The updates addressed to step [j]. *)
Definition events_of (j : nat) (tr : list (nat * update))
  : list (nat * update) :=
  filter (fun e => Nat.eqb (fst e) j) tr.

(** The statuses that step [i] goes through: its initial status followed
    by the status of every update addressed to it. *)
Definition status_history (i : nat) (s0 : list step)
  (tr : list (nat * update)) : list status :=
  match nth_error s0 i with
  | Some st => st_status st ::
      map (fun e => u_status (snd e))
        (filter (fun e => Nat.eqb (fst e) i) tr)
  | None => []
  end.

End Executor.

(** ** The request lifecycle manager ([abort], [_makeController],
    ai-service.js) *)

Module Lifecycle.

(** The identity of an [AbortController] object. *)
Definition handle := nat.

(** What [this._log('warn', 'AI', ...)] is called with. *)
Inductive log_entry : Type :=
| AbortCalled (count : nat)       (* Abort called, cancelled count ... *)
| TimedOut (timeoutMs : Z).       (* Request timed out after ...s *)

(** [activeControllers] is a JavaScript [Set]: insertion ordered, without
    duplicates.  [aborted] lists the controllers whose signal has fired;
    [timers] lists the pending [setTimeout] timers, each with the
    controller it belongs to; [next] is the identity that the next
    [new AbortController()] receives. *)
Record state := State {
  activeControllers : list handle;
  aborted : list handle;
  timers : list (handle * Z);
  next : handle;
  log : list log_entry
}.

Definition init : state := State [] [] [] 0 [].

Definition has (c : handle) (l : list handle) : bool :=
  existsb (Nat.eqb c) l.

(** [set.add(c)] *)
Definition set_add (c : handle) (l : list handle) : list handle :=
  if has c l then l else l ++ [c].

(** [set.delete(c)] *)
Definition set_delete (c : handle) (l : list handle) : list handle :=
  filter (fun x => negb (Nat.eqb c x)) l.

(** [clearTimeout(timer)] for the timer of controller [c]. *)
Definition clearTimeout (c : handle) (ts : list (handle * Z))
  : list (handle * Z) :=
  filter (fun t => negb (Nat.eqb c (fst t))) ts.

(** [const cleanup = () => this.activeControllers.delete(controller)] *)
Definition cleanup (c : handle) (s : state) : state :=
  {| activeControllers := set_delete c (activeControllers s);
     aborted := aborted s; timers := timers s; next := next s;
     log := log s |}.

(** [controller.abort()]: nothing happens when the signal has already
    fired; otherwise the signal fires and its two once-listeners run in
    the order of their registration: the one that clears the timer, then
    [cleanup]. *)
Definition controller_abort (c : handle) (s : state) : state :=
  if has c (aborted s) then s
  else
    cleanup c
      {| activeControllers := activeControllers s;
         aborted := c :: aborted s;
         timers := clearTimeout c (timers s);
         next := next s; log := log s |}.

Definition _makeController (timeoutMs : Z) (s : state) : state * handle :=
  let controller := next s in
  ({| activeControllers := set_add controller (activeControllers s);
      aborted := aborted s;
      timers := if (0 <? timeoutMs)%Z
                then timers s ++ [(controller, timeoutMs)]
                else timers s;
      next := S (next s);
      log := log s |}, controller).

(** The callback given to [setTimeout], run when the timer of [c] is
    still pending; a cleared timer never fires. *)
Definition timer_fires (c : handle) (s : state) : state :=
  match find (fun t => Nat.eqb c (fst t)) (timers s) with
  | None => s
  | Some (_, timeoutMs) =>
      let s := {| activeControllers := activeControllers s;
                  aborted := aborted s;
                  timers := clearTimeout c (timers s);
                  next := next s; log := log s |} in
      let s := controller_abort c s in
      let s := cleanup c s in
      {| activeControllers := activeControllers s;
         aborted := aborted s; timers := timers s; next := next s;
         log := log s ++ [TimedOut timeoutMs] |}
  end.

(** [for (const controller of this.activeControllers) { controller.abort();
    count++ }].  The loop walks the entries that the set had when it
    started; an entry deleted before the loop reaches it is passed over, as
    a [Set] iterator does. *)
Fixpoint abort_loop (todo : list handle) (s : state) (count : nat)
  : state * nat :=
  match todo with
  | [] => (s, count)
  | controller :: todo' =>
      if has controller (activeControllers s)
      then abort_loop todo' (controller_abort controller s) (S count)
      else abort_loop todo' s count
  end.

Definition abort (s : state) : state * nat :=
  let (s, count) := abort_loop (activeControllers s) s 0 in
  ({| activeControllers := [];                       (* clear() *)
      aborted := aborted s; timers := timers s; next := next s;
      log := log s ++ [AbortCalled count] |}, count).

(** What can happen to the manager. *)
Inductive op : Type :=
| MakeController (timeoutMs : Z)    (* a request starts: _makeController *)
| TimerFires (c : handle)           (* the timeout of controller c expires *)
| Abort                             (* abort() is called *)
| Settles (c : handle).             (* the request of controller c is over:
                                       its fetch resolved and was read, or
                                       it rejected; no code of the manager
                                       runs then *)

Definition step (s : state) (o : op) : state :=
  match o with
  | MakeController timeoutMs => fst (_makeController timeoutMs s)
  | TimerFires c => timer_fires c s
  | Abort => fst (abort s)
  | Settles _ => s
  end.

(** The state after a history of operations on a fresh service. *)
Definition run (ops : list op) : state := fold_left step ops init.

(** The controllers that a history created, the first one being [next]. *)
Fixpoint created (next : handle) (ops : list op) : list handle :=
  match ops with
  | [] => []
  | MakeController _ :: rest => next :: created (S next) rest
  | _ :: rest => created next rest
  end.

Definition settled (c : handle) (ops : list op) : bool :=
  existsb (fun o => match o with
                    | Settles c' => Nat.eqb c c'
                    | _ => false
                    end) ops.

(** The requests in flight after a history: started, not over, and not
    cancelled. *)
Definition in_flight (ops : list op) : list handle :=
  filter (fun c => negb (settled c ops) &&
                   negb (has c (aborted (run ops))))
    (created 0 ops).

(** The state is well formed: the set has no duplicates, every identity
    in use was handed out before, and no live controller has fired. *)
Record inv (s : state) : Prop := Inv {
  inv_nodup : NoDup (activeControllers s);
  inv_live : forall c, In c (activeControllers s) ->
                       c < next s /\ ~ In c (aborted s);
  inv_aborted : forall c, In c (aborted s) -> c < next s;
  inv_timers : forall t, In t (timers s) -> fst t < next s
}.

End Lifecycle.

(** ** JSON values and property access *)

(** A value that [JSON.parse] can return or [JSON.stringify] can take. *)
Inductive json : Type :=
| JNull
| JBool (b : bool)
| JNum (x : Q)
| JStr (s : str)
| JArr (items : list json)
| JObj (fields : list (str * json)).

(** A JavaScript value in the places where undefined can occur: [None] is
    undefined. *)
Definition jsval := option json.

Fixpoint assoc (key : str) (fields : list (str * json)) : jsval :=
  match fields with
  | [] => None
  | (k, v) :: rest => if str_eqb k key then Some v else assoc key rest
  end.

(** Truthiness, the condition of [if (v)]. *)
Definition truthy (v : jsval) : bool :=
  match v with
  | None | Some JNull => false
  | Some (JBool b) => b
  | Some (JNum x) => negb (Qeq_bool x 0)
  | Some (JStr s) => match s with [] => false | _ => true end
  | Some (JArr _) | Some (JObj _) => true
  end.

(** Truthiness of a string that may be undefined. *)
Definition nonempty (s : option str) : bool :=
  match s with Some (_ :: _) => true | _ => false end.

(** [v.key] on a value that is neither null nor undefined.  None of the
    keys read by the sources is a property of a primitive, an array or a
    prototype, so only own properties of objects are found. *)
Definition own (key : string) (v : json) : jsval :=
  match v with
  | JObj fields => assoc (js key) fields
  | _ => None
  end.

(** [v[0]] on a value that is neither null nor undefined. *)
Definition first (v : json) : jsval :=
  match v with
  | JArr (x :: _) => Some x
  | JStr (c :: _) => Some (JStr [c])
  | JObj fields => assoc (js "0") fields
  | _ => None
  end.

(** [base.key]: the outer [None] is a thrown TypeError. *)
Definition dot (base : jsval) (key : string) : option jsval :=
  match base with
  | None | Some JNull => None
  | Some v => Some (own key v)
  end.

(** [base[0]]: the outer [None] is a thrown TypeError. *)
Definition idx0 (base : jsval) : option jsval :=
  match base with
  | None | Some JNull => None
  | Some v => Some (first v)
  end.

(** [base?.key] *)
Definition qdot (base : jsval) (key : string) : jsval :=
  match base with
  | None | Some JNull => None
  | Some v => own key v
  end.

(** [base?.[0]] *)
Definition qidx0 (base : jsval) : jsval :=
  match base with
  | None | Some JNull => None
  | Some v => first v
  end.

(** [v === 'literal'] *)
Definition is_str (v : jsval) (s : string) : bool :=
  match v with
  | Some (JStr x) => str_eqb x (js s)
  | _ => false
  end.

(** A string that may be undefined, inside a template literal. *)
Definition tpl (s : option str) : str :=
  match s with Some x => x | None => js "undefined" end.

(** An optional property of an object literal given to [JSON.stringify]. *)
Definition field (key : string) (v : jsval) : list (str * json) :=
  match v with Some x => [(js key, x)] | None => [] end.

(** ** Errors *)

Record error := Err {
  e_name : str;                    (* err.name *)
  e_message : str;                 (* err.message *)
  e_cause_code : option str        (* err.cause?.code *)
}.

(** [new Error(message)] *)
Definition Error (message : str) : error := Err (js "Error") message None.

(** A TypeError raised by the engine; its text is the engine's own. *)
Definition TypeError : error := Err (js "TypeError") [] None.

(** The SyntaxError of a failed [JSON.parse] or [response.json()]. *)
Definition SyntaxError : error := Err (js "SyntaxError") [] None.

(** A computation that may throw. *)
Definition attempt (A : Type) : Type := (error + A)%type.

Definition bind {A B} (m : attempt A) (f : A -> attempt B) : attempt B :=
  match m with inl e => inl e | inr a => f a end.

Notation "'do' x <- m ; f" := (bind m (fun x => f))
  (at level 10, x name, m at level 100, f at level 200).

(** An access that throws a TypeError on null or undefined. *)
Definition orTypeError {A} (o : option A) : attempt A :=
  match o with Some a => inr a | None => inl TypeError end.

(** ** Provider configuration and validation *)

(** An entry of [settings.providers]; an absent key is [None]. *)
Record providerSettings := ProviderSettings {
  s_apiKey : option str;
  s_model : option str;
  s_baseUrl : option str
}.

Record aiSettings := AiSettings {
  activeProvider : str;
  providers : list (str * providerSettings)
}.

(** [{ name, ...this.settings.providers[name] }]; the stored entries
    carry [apiKey], [model] and [baseUrl]. *)
Record provider := Provider {
  name : str;
  apiKey : option str;
  model : option str;
  baseUrl : option str
}.

Fixpoint lookup_provider (name : str)
  (ps : list (str * providerSettings)) : option providerSettings :=
  match ps with
  | [] => None
  | (k, v) :: rest => if str_eqb k name then Some v
                      else lookup_provider name rest
  end.

Definition getProviderConfig (settings : aiSettings)
  (providerName : option str) : provider :=
  let name := if nonempty providerName then tpl providerName
              else activeProvider settings in
  match lookup_provider name (providers settings) with
  | Some e => Provider name (s_apiKey e) (s_model e) (s_baseUrl e)
  | None => Provider name None None None
  end.

(** [provider.name === 'ollama' || provider.name === 'lmstudio'] *)
Definition isLocal (p : provider) : bool :=
  str_eqb (name p) (js "ollama") || str_eqb (name p) (js "lmstudio").

(** [validateProvider]: the error it throws, or [None] when it returns. *)
Definition validateProvider (p : provider) : option error :=
  if negb (isLocal p) && negb (nonempty (apiKey p)) then
    Some (Error (js "No API key configured for " ++ name p ++
                 js ". Please add your API key in Settings."))
  else if negb (nonempty (baseUrl p)) then
    Some (Error (js "No base URL configured for " ++ name p ++
                 js ". Please check Settings."))
  else if negb (nonempty (model p)) then
    Some (Error (js "No model specified for " ++ name p ++
                 js ". Please check Settings."))
  else None.

(** The defaults of the settings store (main.js). *)
Definition default_settings : aiSettings :=
  AiSettings (js "openai")
    [ (js "openai",
       ProviderSettings (Some []) (Some (js "gpt-4o"))
         (Some (js "https://api.openai.com/v1")));
      (js "anthropic",
       ProviderSettings (Some []) (Some (js "claude-sonnet-4-5-20250929"))
         (Some (js "https://api.anthropic.com")));
      (js "gemini",
       ProviderSettings (Some []) (Some (js "gemini-2.0-flash"))
         (Some (js "https://generativelanguage.googleapis.com/v1beta")));
      (js "openrouter",
       ProviderSettings (Some []) (Some (js "anthropic/claude-3.5-sonnet"))
         (Some (js "https://openrouter.ai/api/v1")));
      (js "ollama",
       ProviderSettings (Some []) (Some (js "llama3.2"))
         (Some (js "http://localhost:11434")));
      (js "lmstudio",
       ProviderSettings (Some []) (Some (js "local-model"))
         (Some (js "http://localhost:1234/v1"))) ].

(** The three configuration errors of [validateProvider]. *)
Definition configuration_errors (p : provider) : list error :=
  [ Error (js "No API key configured for " ++ name p ++
           js ". Please add your API key in Settings.");
    Error (js "No base URL configured for " ++ name p ++
           js ". Please check Settings.");
    Error (js "No model specified for " ++ name p ++
           js ". Please check Settings.") ].

(** ** Message shaping *)

(** [{ role, content, image? }] *)
Record message := Message {
  role : str;
  content : str;
  image : option str
}.

(** /^data:image\/\w+;base64,/ without its anchor. *)
Definition re_data_url : regex :=
  lit "data:image/" ;; Plus is_word ;; lit ";base64,".

(** [image.replace(/^data:image\/\w+;base64,/, '')] *)
Definition strip_data_url (image : str) : str :=
  match match_here re_data_url image with
  | Some f => rest f
  | None => image
  end.

Definition _toOpenAIMessage (msg : message) : json :=
  if nonempty (image msg) then
    JObj [ (js "role", JStr (role msg));
           (js "content", JArr [
              JObj [ (js "type", JStr (js "text"));
                     (js "text", JStr (content msg)) ];
              JObj [ (js "type", JStr (js "image_url"));
                     (js "image_url",
                      JObj [ (js "url", JStr (tpl (image msg)));
                             (js "detail", JStr (js "low")) ]) ] ]) ]
  else
    JObj [ (js "role", JStr (role msg));
           (js "content", JStr (content msg)) ].

(** One turn of the loop of [_buildAnthropicMessages] on the pair
    [(systemContent, anthropicMessages)]. *)
Definition anthropic_step (acc : option str * list json) (msg : message)
  : option str * list json :=
  let (systemContent, anthropicMessages) := acc in
  if str_eqb (role msg) (js "system") then
    (Some ((if nonempty systemContent then tpl systemContent ++ [nl]
            else []) ++ content msg),
     anthropicMessages)
  else if nonempty (image msg) then
    (systemContent,
     anthropicMessages ++ [
       JObj [ (js "role", JStr (role msg));
              (js "content", JArr [
                 JObj [ (js "type", JStr (js "image"));
                        (js "source",
                         JObj [ (js "type", JStr (js "base64"));
                                (js "media_type", JStr (js "image/png"));
                                (js "data",
                                 JStr (strip_data_url (tpl (image msg)))) ]) ];
                 JObj [ (js "type", JStr (js "text"));
                        (js "text", JStr (content msg)) ] ]) ] ])
  else
    (systemContent,
     anthropicMessages ++ [
       JObj [ (js "role", JStr (role msg));
              (js "content", JStr (content msg)) ] ]).

Definition _buildAnthropicMessages (messages : list message)
  : option str * list json :=
  fold_left anthropic_step messages (None, []).

Definition _toGeminiParts (msg : message) : list json :=
  [ JObj [ (js "text", JStr (content msg)) ] ] ++
  (if nonempty (image msg) then
     [ JObj [ (js "inlineData",
              JObj [ (js "mimeType", JStr (js "image/png"));
                     (js "data",
                      JStr (strip_data_url (tpl (image msg)))) ]) ] ]
   else []).

(** One turn of the loop of [_chatGemini] and [_streamGemini] on the pair
    [(systemInstruction, contents)]. *)
Definition gemini_step (acc : option str * list json) (msg : message)
  : option str * list json :=
  let (systemInstruction, contents) := acc in
  if str_eqb (role msg) (js "system") then
    (Some (content msg), contents)
  else
    (systemInstruction,
     contents ++ [
       JObj [ (js "role",
               JStr (if str_eqb (role msg) (js "assistant")
                     then js "model" else js "user"));
              (js "parts", JArr (_toGeminiParts msg)) ] ]).

(** The request body that [_chatGemini] and [_streamGemini] build. *)
Definition gemini_body (messages : list message) : json :=
  let (systemInstruction, contents) :=
    fold_left gemini_step messages (None, []) in
  JObj ([ (js "contents", JArr contents);
          (js "generationConfig",
           JObj [ (js "temperature", JNum (7 # 10));
                  (js "maxOutputTokens", JNum 4096) ]) ] ++
        (if nonempty systemInstruction then
           [ (js "systemInstruction",
              JObj [ (js "parts",
                      JArr [ JObj [ (js "text",
                                     JStr (tpl systemInstruction)) ] ]) ]) ]
         else [])).

Definition _toOllamaMessage (msg : message) : json :=
  JObj ([ (js "role", JStr (role msg));
          (js "content", JStr (content msg)) ] ++
        (if nonempty (image msg) then
           [ (js "images",
              JArr [ JStr (strip_data_url (tpl (image msg))) ]) ]
         else [])).

(** The request body of [_chatAnthropic]; [_streamAnthropic] adds
    [stream: true]. *)
Definition anthropic_body (p : provider) (messages : list message)
  (stream : bool) : json :=
  let (systemContent, anthropicMessages) :=
    _buildAnthropicMessages messages in
  JObj (field "model" (option_map JStr (model p)) ++
        [ (js "max_tokens", JNum 4096);
          (js "messages", JArr anthropicMessages) ] ++
        (if stream then [ (js "stream", JBool true) ] else []) ++
        (if nonempty systemContent then
           [ (js "system", JStr (tpl systemContent)) ]
         else [])).

(** Every string in a JSON value, in document order (keys left out). *)
Fixpoint strings_of (v : json) : list str :=
  match v with
  | JStr s => [s]
  | JArr items => flat_map strings_of items
  | JObj fields => flat_map (fun kv => strings_of (snd kv)) fields
  | _ => []
  end.

(** Whether [needle] occurs in [s]: [s.includes(needle)]. *)
Fixpoint includes (needle s : str) : bool :=
  startsWith needle s ||
  match s with
  | [] => false
  | _ :: s' => includes needle s'
  end.

(** ** The network *)

Record request := Request {
  url : str;
  method : str;
  headers : list (str * str);
  body : option json               (* the value given to JSON.stringify *)
}.

(** What [reader.read()] does: it yields bytes or it throws; the end of the
    list is [{ done: true }]. *)
Inductive read_result : Type :=
| ReadChunk (value : list N)
| ReadError (e : error).

Record response := Response {
  ok : bool;                       (* response.ok *)
  status : Z;                      (* response.status *)
  text : str;                      (* await response.text() *)
  json_body : option json;         (* await response.json(); None throws *)
  reads : list read_result         (* response.body.getReader() *)
}.

Inductive fetch_result : Type :=
| FetchFails (e : error)
| Responds (r : response).

(** A network that is down. *)
Definition no_network (_ : request) : fetch_result :=
  FetchFails (Err (js "TypeError") (js "fetch failed") None).

(** [{ content, model, provider, usage }] *)
Record chatResult := ChatResult {
  r_content : jsval;
  r_model : jsval;
  r_provider : str;
  r_usage : jsval
}.

(** What a stream callback received. *)
Inductive event : Type :=
| OnChunk (chunk : jsval)
| OnDone
| OnError (e : error).

(** The error that [_enrichFetchError] throws. *)
Definition _enrichFetchError (err : error) (p : provider) : error :=
  if isLocal p &&
     (str_eqb (e_message err) (js "fetch failed") ||
      match e_cause_code err with
      | Some c => str_eqb c (js "ECONNREFUSED") || str_eqb c (js "ECONNRESET")
      | None => false
      end)
  then
    let app :=
      if str_eqb (name p) (js "lmstudio")
      then js "LM Studio (open LM Studio " ++ [8594%N] ++
           js " Local Server tab " ++ [8594%N] ++ js " Start Server)"
      else js "Ollama (run: ollama serve)" in
    Error (js "Cannot connect to " ++ name p ++ js " at " ++
           tpl (baseUrl p) ++ js ". Please start " ++ app ++
           js " and try again.")
  else err.

(** [name API error (status): body] *)
Definition api_error (who : str) (r : response) (body : str) : error :=
  Error (who ++ js " API error (" ++ show_Z (status r) ++ js "): " ++ body).

(** The headers of the OpenAI-compatible requests. *)
Definition openai_headers (p : provider) : list (str * str) :=
  [ (js "Content-Type", js "application/json") ] ++
  (if nonempty (apiKey p)
   then [ (js "Authorization", js "Bearer " ++ tpl (apiKey p)) ] else []) ++
  (if str_eqb (name p) (js "openrouter")
   then [ (js "HTTP-Referer", js "https://github.com/asukul/thatbrowser");
          (js "X-Title", js "That Browser") ]
   else []).

Definition openai_request (p : provider) (messages : list message)
  (stream : bool) : request :=
  Request (tpl (baseUrl p) ++ js "/chat/completions") (js "POST")
    (openai_headers p)
    (Some (JObj (field "model" (option_map JStr (model p)) ++
                 [ (js "messages", JArr (map _toOpenAIMessage messages));
                   (js "temperature", JNum (7 # 10));
                   (js "max_tokens", JNum 4096) ] ++
                 (if stream then [ (js "stream", JBool true) ] else [])))).

Definition anthropic_request (p : provider) (messages : list message)
  (stream : bool) : request :=
  Request (tpl (baseUrl p) ++ js "/v1/messages") (js "POST")
    [ (js "Content-Type", js "application/json");
      (js "x-api-key", tpl (apiKey p));
      (js "anthropic-version", js "2023-06-01") ]
    (Some (anthropic_body p messages stream)).

Definition gemini_request (p : provider) (messages : list message)
  (stream : bool) : request :=
  Request (tpl (baseUrl p) ++ js "/models/" ++ tpl (model p) ++
           (if stream then js ":streamGenerateContent?alt=sse&key="
            else js ":generateContent?key=") ++ tpl (apiKey p))
    (js "POST")
    [ (js "Content-Type", js "application/json") ]
    (Some (gemini_body messages)).

Definition ollama_request (p : provider) (messages : list message)
  (stream : bool) : request :=
  Request (tpl (baseUrl p) ++ js "/api/chat") (js "POST")
    [ (js "Content-Type", js "application/json") ]
    (Some (JObj (field "model" (option_map JStr (model p)) ++
                 [ (js "messages", JArr (map _toOllamaMessage messages));
                   (js "stream", JBool stream) ]))).

(** [await response.json()] *)
Definition response_json (r : response) : attempt json :=
  match json_body r with Some d => inr d | None => inl SyntaxError end.

Section Service.
(** The network: what [fetch] does with a request. *)
Variable fetch : request -> fetch_result.

(** *** Single-shot chat *)

Definition _chatOpenAICompatible (messages : list message) (p : provider)
  : list request * attempt chatResult :=
  let req := openai_request p messages false in
  ([req],
   match
     match fetch req with
     | FetchFails e => inl e
     | Responds r =>
         if negb (ok r) then inl (api_error (name p) r (text r))
         else
           do data <- response_json r;
           do choices <- orTypeError (dot (Some data) "choices");
           do choice <- orTypeError (idx0 choices);
           do msg <- orTypeError (dot choice "message");
           do content <- orTypeError (dot msg "content");
           inr (ChatResult content (own "model" data) (name p)
                  (own "usage" data))
     end
   with
   | inl err => inl (_enrichFetchError err p)
   | inr res => inr res
   end).

Definition _chatAnthropic (messages : list message) (p : provider)
  : list request * attempt chatResult :=
  let req := anthropic_request p messages false in
  ([req],
   match fetch req with
   | FetchFails e => inl e
   | Responds r =>
       if negb (ok r) then inl (api_error (js "Anthropic") r (text r))
       else
         do data <- response_json r;
         do blocks <- orTypeError (dot (Some data) "content");
         do block <- orTypeError (idx0 blocks);
         do txt <- orTypeError (dot block "text");
         inr (ChatResult txt (own "model" data) (js "anthropic")
                (own "usage" data))
   end).

Definition _chatGemini (messages : list message) (p : provider)
  : list request * attempt chatResult :=
  let req := gemini_request p messages false in
  ([req],
   match fetch req with
   | FetchFails e => inl e
   | Responds r =>
       if negb (ok r) then inl (api_error (js "Gemini") r (text r))
       else
         do data <- response_json r;
         do candidates <- orTypeError (dot (Some data) "candidates");
         let txt :=
           qdot (qidx0 (qdot (qdot (qidx0 candidates) "content") "parts"))
             "text" in
         inr (ChatResult
                (if truthy txt then txt
                 else Some (JStr (js "No response generated.")))
                (option_map JStr (model p)) (js "gemini")
                (own "usageMetadata" data))
   end).

Definition _chatOllama (messages : list message) (p : provider)
  : list request * attempt chatResult :=
  let req := ollama_request p messages false in
  ([req],
   match
     match fetch req with
     | FetchFails e => inl e
     | Responds r =>
         if negb (ok r) then inl (api_error (js "Ollama") r (text r))
         else
           do data <- response_json r;
           do msg <- orTypeError (dot (Some data) "message");
           do content <- orTypeError (dot msg "content");
           inr (ChatResult content (own "model" data) (js "ollama")
                  (Some (JObj
                     (field "prompt_tokens" (own "prompt_eval_count" data)
                      ++ field "completion_tokens"
                           (own "eval_count" data)))))
     end
   with
   | inl err => inl (_enrichFetchError err p)
   | inr res => inr res
   end).

(** [chat]: the requests it issued and how it settled. *)
Definition chat (settings : aiSettings) (messages : list message)
  (providerName : option str) : list request * attempt chatResult :=
  let p := getProviderConfig settings providerName in
  match validateProvider p with
  | Some err => ([], inl err)
  | None =>
      if str_eqb (name p) (js "gemini") then _chatGemini messages p
      else if str_eqb (name p) (js "anthropic")
      then _chatAnthropic messages p
      else if str_eqb (name p) (js "ollama") then _chatOllama messages p
      else _chatOpenAICompatible messages p
  end.
End Service.

(** ** The stream decoders *)

Section Streams.
(** The platform: the network, [JSON.parse], and a streaming
    [TextDecoder], a transducer that is fed one byte at a time and keeps
    its state between calls of [decode(value, { stream: true })]. *)
Variable fetch : request -> fetch_result.
Variable JSON_parse : str -> option json.
Variable dstate : Type.
Variable dinit : dstate.
Variable decode_byte : dstate -> N -> dstate * str.

(** [decoder.decode(value, { stream: true })] *)
Fixpoint decode (d : dstate) (value : list N) : dstate * str :=
  match value with
  | [] => (d, [])
  | b :: value' =>
      let (d1, s1) := decode_byte d b in
      let (d2, s2) := decode d1 value' in
      (d2, s1 ++ s2)
  end.

(** What the body of a [for (const line of lines)] loop did with one
    line: the callbacks it called, and whether it returned from the
    function (after calling [onDone]). *)
Definition line_result : Type := (list event * bool)%type.

(** The lines of the OpenAI-compatible dialect: [data: ] payloads and a
    [[DONE]] sentinel. *)
Definition openai_line (line : str) : line_result :=
  let trimmed := trim line in
  match trimmed with
  | [] => ([], false)
  | _ =>
    if negb (startsWith (js "data: ") trimmed) then ([], false)
    else
      let data := skipn 6 trimmed in
      if str_eqb data (js "[DONE]") then ([OnDone], true)
      else
        match JSON_parse data with
        | None => ([], false)                                 (* catch *)
        | Some json =>
            match dot (Some json) "choices" with
            | None => ([], false)                             (* catch *)
            | Some choices =>
                let content :=
                  qdot (qdot (qidx0 choices) "delta") "content" in
                if truthy content then ([OnChunk content], false)
                else ([], false)
            end
        end
  end.

(** The lines of the Anthropic dialect: typed envelopes. *)
Definition anthropic_line (line : str) : line_result :=
  let trimmed := trim line in
  match trimmed with
  | [] => ([], false)
  | _ =>
    if negb (startsWith (js "data: ") trimmed) then ([], false)
    else
      match JSON_parse (skipn 6 trimmed) with
      | None => ([], false)                                   (* catch *)
      | Some json =>
          match dot (Some json) "type" with
          | None => ([], false)                               (* catch *)
          | Some type =>
              let chunks :=
                if is_str type "content_block_delta" &&
                   is_str (qdot (own "delta" json) "type") "text_delta"
                then [OnChunk (qdot (own "delta" json) "text")]
                else [] in
              if is_str type "message_stop"
              then (chunks ++ [OnDone], true)
              else (chunks, false)
          end
      end
  end.

(** The lines of the Gemini dialect: [data: ] payloads, no sentinel. *)
Definition gemini_line (line : str) : line_result :=
  let trimmed := trim line in
  match trimmed with
  | [] => ([], false)
  | _ =>
    if negb (startsWith (js "data: ") trimmed) then ([], false)
    else
      match JSON_parse (skipn 6 trimmed) with
      | None => ([], false)                                   (* catch *)
      | Some json =>
          match dot (Some json) "candidates" with
          | None => ([], false)                               (* catch *)
          | Some candidates =>
              let txt :=
                qdot (qidx0 (qdot (qdot (qidx0 candidates) "content")
                               "parts")) "text" in
              if truthy txt then ([OnChunk txt], false) else ([], false)
          end
      end
  end.

(** The lines of the Ollama dialect: bare JSON objects with a [done]
    field. *)
Definition ollama_line (line : str) : line_result :=
  match trim line with
  | [] => ([], false)
  | _ =>
      match JSON_parse line with
      | None => ([], false)                                   (* catch *)
      | Some json =>
          match dot (Some json) "message" with
          | None => ([], false)                               (* catch *)
          | Some msg =>
              let chunks :=
                if truthy (qdot msg "content")
                then [OnChunk (qdot msg "content")] else [] in
              if truthy (own "done" json)
              then (chunks ++ [OnDone], true)
              else (chunks, false)
          end
      end
  end.

(** [for (const line of lines) { ... }] *)
Fixpoint for_lines (handle : str -> line_result) (lines : list str)
  : line_result :=
  match lines with
  | [] => ([], false)
  | line :: lines' =>
      let (ev, returned) := handle line in
      if returned then (ev, true)
      else
        let (ev', returned') := for_lines handle lines' in
        (ev ++ ev', returned')
  end.

(** The [while (true)] loop around [reader.read()], the same in the four
    stream functions but for the treatment of a line; then the final
    [onDone()], or the [onError(err)] of the enclosing [catch]. *)
Fixpoint read_loop (handle : str -> line_result)
  (rs : list read_result) (d : dstate) (buffer : str) : list event :=
  match rs with
  | [] => [OnDone]                              (* done: break; onDone() *)
  | ReadError e :: _ => [OnError e]
  | ReadChunk value :: rs' =>
      let (d', decoded) := decode d value in
      let buffer := buffer ++ decoded in
      let lines := split_nl buffer in
      let buffer := last lines [] in            (* lines.pop() || '' *)
      let lines := removelast lines in
      let (ev, returned) := for_lines handle lines in
      if returned then ev
      else ev ++ read_loop handle rs' d' buffer
  end.

(** From [response.body.getReader()] on. *)
Definition decode_stream (handle : str -> line_result)
  (rs : list read_result) : list event :=
  read_loop handle rs dinit [].

Definition _streamOpenAICompatible (messages : list message)
  (p : provider) : list request * list event :=
  let req := openai_request p messages true in
  ([req],
   match fetch req with
   | FetchFails e => [OnError (_enrichFetchError e p)]
   | Responds r =>
       if negb (ok r) then [OnError (api_error (name p) r (text r))]
       else decode_stream openai_line (reads r)
   end).

Definition _streamAnthropic (messages : list message) (p : provider)
  : list request * list event :=
  let req := anthropic_request p messages true in
  ([req],
   match fetch req with
   | FetchFails e => [OnError e]
   | Responds r =>
       if negb (ok r) then [OnError (api_error (js "Anthropic") r (text r))]
       else decode_stream anthropic_line (reads r)
   end).

Definition _streamGemini (messages : list message) (p : provider)
  : list request * list event :=
  let req := gemini_request p messages true in
  ([req],
   match fetch req with
   | FetchFails e => [OnError e]
   | Responds r =>
       if negb (ok r) then [OnError (api_error (js "Gemini") r (text r))]
       else decode_stream gemini_line (reads r)
   end).

Definition _streamOllama (messages : list message) (p : provider)
  : list request * list event :=
  let req := ollama_request p messages true in
  ([req],
   match fetch req with
   | FetchFails e => [OnError e]
   | Responds r =>
       if negb (ok r) then [OnError (api_error (js "Ollama") r (text r))]
       else decode_stream ollama_line (reads r)
   end).

(** [chatStream]: the requests it issued and the calls it made to
    [onChunk], [onDone] and [onError], in order. *)
Definition chatStream (settings : aiSettings) (messages : list message)
  (providerName : option str) : list request * list event :=
  let p := getProviderConfig settings providerName in
  match validateProvider p with
  | Some err => ([], [OnError err])
  | None =>
      if str_eqb (name p) (js "gemini") then _streamGemini messages p
      else if str_eqb (name p) (js "anthropic")
      then _streamAnthropic messages p
      else if str_eqb (name p) (js "ollama") then _streamOllama messages p
      else _streamOpenAICompatible messages p
  end.
End Streams.

(** The events of a stream whose lines were all read: those of the lines,
    then the final [onDone()] unless a line returned. *)
Definition finish (r : list event * bool) : list event :=
  if snd r then fst r else fst r ++ [OnDone].

(** A line handler calls [onChunk] any number of times, then [onDone]
    exactly when it returns from the function. *)
Definition well_behaved (handle : str -> list event * bool) : Prop :=
  forall line,
    exists cs,
      fst (handle line) =
      map OnChunk cs ++ (if snd (handle line) then [OnDone] else []).

(** *** A small platform for worked examples *)

(** A [JSON.parse] that knows the documents of a table and rejects every
    other text. *)
Fixpoint table_parse (table : list (str * json)) (s : str) : option json :=
  match table with
  | [] => None
  | (k, v) :: rest => if str_eqb k s then Some v else table_parse rest s
  end.

(** A decoder for ASCII streams: one code unit per byte, no state. *)
Definition ascii_decoder (d : unit) (b : N) : unit * str := (d, [b]).

(** The bytes of an ASCII text. *)
Definition bytes (s : str) : list N := s.

(** A delta line of the OpenAI-compatible dialect carrying [content]. *)
Definition delta_line (content : string) : str :=
  js "data: {" ++ q "choices" ++ js ":[{" ++ q "delta" ++ js ":{" ++
  q "content" ++ js ":" ++ q content ++ js "}}]}".

Definition delta_json (content : string) : json :=
  JObj [ (js "choices",
          JArr [ JObj [ (js "delta",
                         JObj [ (js "content", JStr (js content)) ]) ] ]) ].

(** The documents of the streamed scenario of the specification. *)
Definition scenario_parse : str -> option json :=
  table_parse [ (skipn 6 (delta_line "A"), delta_json "A");
                (skipn 6 (delta_line "B"), delta_json "B") ].

(** Whether an event ends a stream. *)
Definition is_terminal_event (e : event) : bool :=
  match e with OnDone | OnError _ => true | OnChunk _ => false end.

(** ** Model listing ([listModels], ai-service.js) *)

(** The order in which [sort()] without a comparator puts two strings:
    by their code units, a prefix first. *)
Fixpoint str_leb (a b : str) : bool :=
  match a, b with
  | [], _ => true
  | _ :: _, [] => false
  | x :: a', y :: b' =>
      if (x <? y)%N then true
      else if (y <? x)%N then false
      else str_leb a' b'
  end.

Fixpoint place (x : str) (sorted : list str) : list str :=
  match sorted with
  | [] => [x]
  | y :: rest => if str_leb x y then x :: sorted else y :: place x rest
  end.

(** [array.sort()] on an array of strings. *)
Definition sort_strings (l : list str) : list str :=
  fold_right place [] l.

(** The strings of an array that holds strings only. *)
Fixpoint strings_only (l : list jsval) : option (list str) :=
  match l with
  | [] => Some []
  | Some (JStr x) :: rest => option_map (cons x) (strings_only rest)
  | _ :: rest => None
  end.

Definition string_value (x : str) : jsval := Some (JStr x).

(** The elements of a value when it is an array, none otherwise. *)
Definition array_items (v : jsval) : list json :=
  match v with
  | Some (JArr items) => items
  | _ => []
  end.

Section Listing.
(** The network, and [Array.prototype.sort] on arrays that hold something
    else than strings, where the order goes by the string form that the
    platform gives each value. *)
Variable fetch : request -> fetch_result.
Variable array_sort : list jsval -> list jsval.

(** [array.sort()] *)
Definition sort (l : list jsval) : list jsval :=
  match strings_only l with
  | Some ss => map string_value (sort_strings ss)
  | None => array_sort l
  end.

(** [(v || []).map(f)]: a falsy value gives the empty list, an array is
    mapped, anything else has no [map] method. *)
Definition map_or_empty (v : jsval) (f : json -> attempt jsval)
  : attempt (list jsval) :=
  if negb (truthy v) then inr []
  else
    match v with
    | Some (JArr items) =>
        fold_right
          (fun m acc => do x <- f m; do xs <- acc; inr (x :: xs))
          (inr []) items
    | _ => inl TypeError
    end.

(** [m => m.id] and [m => m.name] *)
Definition pick (key : string) (m : json) : attempt jsval :=
  orTypeError (dot (Some m) key).

(** [m => m.name.replace(/^models\//, '')] *)
Definition gemini_model_name (m : json) : attempt jsval :=
  do n <- orTypeError (dot (Some m) "name");
  match n with
  | Some (JStr s) =>
      inr (Some (JStr (match match_here (lit "models/") s with
                       | Some f => rest f
                       | None => s
                       end)))
  | _ => inl TypeError
  end.

(** [n => n.startsWith('gemini')]; every [n] is a string here. *)
Definition is_gemini (n : jsval) : bool :=
  match n with
  | Some (JStr s) => startsWith (js "gemini") s
  | _ => false
  end.

(** The common part of the branches: fetch, check, read [data], list. *)
Definition list_with (req : request) (who : str)
  (extract : json -> attempt (list jsval)) : attempt (list jsval) :=
  match fetch req with
  | FetchFails e => inl e
  | Responds r =>
      if negb (ok r) then inl (api_error who r (firstn 200 (text r)))
      else
        do data <- response_json r;
        do models <- extract data;
        inr (sort models)
  end.

Definition get (u : str) (hs : list (str * str)) : request :=
  Request u (js "GET") hs None.

(** [listModels]: the requests it issued and the models it returned. *)
Definition listModels (settings : aiSettings) (providerName : option str)
  : list request * attempt (list jsval) :=
  let p := getProviderConfig settings providerName in
  let enrich (r : list request * attempt (list jsval)) :=
    match snd r with
    | inl err => (fst r, inl (_enrichFetchError err p))
    | inr models => (fst r, inr models)
    end in
  if str_eqb (name p) (js "openai") || str_eqb (name p) (js "openrouter")
     || str_eqb (name p) (js "lmstudio") then
    let req := get (tpl (baseUrl p) ++ js "/models") (openai_headers p) in
    enrich ([req],
            list_with req (name p)
              (fun data =>
                 do v <- orTypeError (dot (Some data) "data");
                 map_or_empty v (pick "id")))
  else if str_eqb (name p) (js "anthropic") then
    let req := get (tpl (baseUrl p) ++ js "/v1/models")
                 [ (js "x-api-key", tpl (apiKey p));
                   (js "anthropic-version", js "2023-06-01");
                   (js "Content-Type", js "application/json") ] in
    enrich ([req],
            list_with req (js "Anthropic")
              (fun data =>
                 do v <- orTypeError (dot (Some data) "data");
                 map_or_empty v (pick "id")))
  else if str_eqb (name p) (js "gemini") then
    if negb (nonempty (apiKey p))
    then enrich ([], inl (Error (js "Gemini API key is required")))
    else
      let req := get (tpl (baseUrl p) ++ js "/models?key=" ++
                      tpl (apiKey p)) [] in
      enrich ([req],
              list_with req (js "Gemini")
                (fun data =>
                   do v <- orTypeError (dot (Some data) "models");
                   do names <- map_or_empty v gemini_model_name;
                   inr (filter is_gemini names)))
  else if str_eqb (name p) (js "ollama") then
    let req := get (tpl (baseUrl p) ++ js "/api/tags") [] in
    enrich ([req],
            list_with req (js "Ollama")
              (fun data =>
                 do v <- orTypeError (dot (Some data) "models");
                 map_or_empty v (pick "name")))
  else
    enrich ([], inl (Error (js "Unknown provider: " ++ name p))).
End Listing.

(** ** What a pattern can match, and what its groups can capture *)

Module RegexSem.

(** [den r w caps]: the pattern [r] can match exactly the word [w] with
    its groups capturing [caps] (in the order the groups close). *)
Fixpoint den (r : regex) (w : str) (caps : list str) : Prop :=
  match r with
  | Eps => w = [] /\ caps = []
  | Chr c => w = [c] /\ caps = []
  | Cls p => exists x, w = [x] /\ p x = true /\ caps = []
  | Cat a b =>
      exists w1 w2 c1 c2,
        w = w1 ++ w2 /\ caps = c1 ++ c2 /\ den a w1 c1 /\ den b w2 c2
  | Alt a b => den a w caps \/ den b w caps
  | Star p | StarLazy p => forallb p w = true /\ caps = []
  | Opt a => (w = [] /\ caps = []) \/ den a w caps
  | Grp a => exists inner, caps = inner ++ [w] /\ den a w inner
  end.

(** No word that [r] matches contains the code unit [c]. *)
Fixpoint avoids (c : char) (r : regex) : bool :=
  match r with
  | Eps => true
  | Chr x => negb (x =? c)%N
  | Cls p | Star p | StarLazy p => negb (p c)
  | Cat a b | Alt a b => avoids c a && avoids c b
  | Opt a | Grp a => avoids c a
  end.

(** No group of [r] can capture the code unit [c]. *)
Fixpoint groups_avoid (c : char) (r : regex) : bool :=
  match r with
  | Grp a => avoids c a && groups_avoid c a
  | Cat a b | Alt a b => groups_avoid c a && groups_avoid c b
  | Opt a => groups_avoid c a
  | Eps | Chr _ | Cls _ | Star _ | StarLazy _ => true
  end.

End RegexSem.
Import RegexSem.

(** ** Further notions for Part III *)

(** The numeric arguments that the grammar reads without a sign. *)
Definition unsigned_args (c : command) : list number :=
  match c with
  | Click x y => [x; y]
  | Wait ms => [ms]
  | _ => []
  end.

(** A number that is not negative: a double holding a non-negative
    integer, or Infinity. *)
Definition not_negative (x : number) : Prop :=
  match x with
  | Finite z => (0 <= z)%Z /\ round_double z = Finite z
  | Infinity => True
  | NegInfinity => False
  end.


(** Three newlines in a row. *)
Definition blank_run : str := [nl; nl; nl].

Module ExecutorNotions.
Import Executor.

Section Run.
Variable invoke : nat -> command -> outcome.
Variable now : nat -> Z.

(** The update that ends step [i], when [c0] readings of the clock had
    been made before its turn of the loop. *)
Definition final_update (i : nat) (cmd : command) (c0 : nat) : update :=
  let duration := (now (S c0) - now c0)%Z in
  match invoke i cmd with
  | Returns result_error =>
      if has_error result_error then
        Update error
          (Some (describeCommand cmd ++ js " " ++ dash ++ js " " ++
                 match result_error with Some e => e | None => [] end))
          (Some duration)
      else Update done None (Some duration)
  | Throws message =>
      Update error
        (Some (describeCommand cmd ++ js " " ++ dash ++ js " " ++ message))
        (Some duration)
  end.

(** The calls to [onStepUpdate] of the loop from index [i] on. *)
Fixpoint updates_from (i c0 : nat) (commands : list command)
  : list (nat * update) :=
  match commands with
  | [] => []
  | cmd :: rest =>
      (i, Update running None None) :: (i, final_update i cmd c0) ::
      updates_from (S i) (S (S c0)) rest
  end.
End Run.

(** The two updates of each step, one step after the other. *)
Fixpoint in_turns (i : nat) (finals : list update) : list (nat * update) :=
  match finals with
  | [] => []
  | u :: rest =>
      (i, Update running None None) :: (i, u) :: in_turns (S i) rest
  end.

End ExecutorNotions.

Module LifecycleNotions.
Import Lifecycle.

(** Every controller ever created is live or cancelled, and a timer is
    pending only for a live controller, one timer at most for each. *)
Record accounted (s : state) : Prop := Accounted {
  acc_all : forall c, c < next s ->
                      In c (activeControllers s) \/ In c (aborted s);
  acc_timers : forall t, In t (timers s) -> In (fst t) (activeControllers s);
  acc_single : NoDup (map fst (timers s))
}.

End LifecycleNotions.

(** Whether the text [t] occurs in a string of the JSON value [v]. *)
Definition carries (v : json) (t : str) : bool :=
  existsb (includes t) (strings_of v).

(** *** The run report ([AutomationReport], AIPanel.jsx) *)

Module Report.
Import Executor ExecutorNotions.

Definition status_eqb (a b : status) : bool :=
  match a, b with
  | pending, pending | running, running | done, done | error, error => true
  | _, _ => false
  end.

(** [steps.filter(s => s.status === st).length] *)
Definition count (st : status) (steps : list step) : nat :=
  length (filter (fun s => status_eqb (st_status s) st) steps).

Definition total (steps : list step) : nat := length steps.
Definition completed : list step -> nat := count done.
Definition failed : list step -> nat := count error.
Definition running_steps : list step -> nat := count running.
Definition pending_steps : list step -> nat := count pending.

(** [steps.reduce((sum, s) => sum + (s.duration || 0), 0)] *)
Definition totalDuration (steps : list step) : Z :=
  fold_left
    (fun sum s => (sum + match duration s with Some d => d | None => 0 end)%Z)
    steps 0%Z.

(** Whether a call into the page counts as a failure for the executor. *)
Definition failsb (o : outcome) : bool :=
  match o with
  | Returns result_error => has_error result_error
  | Throws _ => true
  end.

Section Run.
Variable invoke : nat -> command -> outcome.
Variable now : nat -> Z.

(** The number of failing calls among the commands, the first of which
    has index [i]. *)
Fixpoint failures_from (i : nat) (commands : list command) : nat :=
  match commands with
  | [] => 0
  | cmd :: rest =>
      (if failsb (invoke i cmd) then 1 else 0) + failures_from (S i) rest
  end.

(** The step records at the end of the loop from index [i] on, begun
    after [c0] readings of the clock. *)
Fixpoint final_steps (i c0 : nat) (commands : list command) : list step :=
  match commands with
  | [] => []
  | cmd :: rest =>
      merge (merge (Step (describeCommand cmd) pending None)
               (Update running None None))
            (final_update invoke now i cmd c0)
      :: final_steps (S i) (S (S c0)) rest
  end.
End Run.

End Report.

(** *** Editing the steps of an automation (the automations tab) *)

Module AutomationsTab.

(** [cmd.type] *)
Definition command_type (cmd : command) : str :=
  match cmd with
  | Click _ _ => js "click"
  | ClickElement _ => js "click_element"
  | TypeText _ => js "type"
  | Fill _ _ => js "fill"
  | Press _ => js "press"
  | Scroll _ => js "scroll"
  | Navigate _ => js "navigate"
  | Wait _ => js "wait"
  | Find _ => js "find"
  end.

(** The values of [COMMAND_TYPES]. *)
Definition COMMAND_TYPES : list str :=
  [ js "click"; js "click_element"; js "type"; js "fill"; js "press";
    js "scroll"; js "navigate"; js "wait"; js "find" ].

Definition createBlankCommand (type : str) : command :=
  if str_eqb type (js "click") then Click 0 0
  else if str_eqb type (js "click_element") then ClickElement []
  else if str_eqb type (js "type") then TypeText []
  else if str_eqb type (js "fill") then Fill [] []
  else if str_eqb type (js "press") then Press (js "Enter")
  else if str_eqb type (js "scroll") then Scroll 300
  else if str_eqb type (js "navigate") then Navigate []
  else if str_eqb type (js "wait") then Wait 1000
  else if str_eqb type (js "find") then Find []
  else Click 0 0.

(** [cmds[i]] read: an index past the end gives undefined, [None]. *)
Definition entry (cmds : list (option command)) (i : nat)
  : option command :=
  match nth_error cmds i with
  | Some e => e
  | None => None
  end.

(** [cmds[i] = v]: an index past the end extends the array, the entries
    in between staying empty. *)
Fixpoint assign (cmds : list (option command)) (i : nat)
  (v : option command) : list (option command) :=
  match i, cmds with
  | O, [] => [v]
  | O, _ :: rest => v :: rest
  | S i', [] => None :: assign [] i' v
  | S i', e :: rest => e :: assign rest i' v
  end.

(** [moveStep]: the commands of the form afterwards.  [index] is the
    position of a rendered step, [direction] the offset of its new place;
    both call sites pass -1 or 1.  The swap is the destructuring
    assignment: both entries are read, then [cmds[index]] and
    [cmds[target]] are written. *)
Definition moveStep (commands : list command) (index : nat)
  (direction : Z) : list (option command) :=
  let cmds := map Some commands in
  let target := (Z.of_nat index + direction)%Z in
  if (target <? 0)%Z || (Z.of_nat (length cmds) <=? target)%Z then cmds
  else
    let t := Z.to_nat target in
    let a := entry cmds t in
    let b := entry cmds index in
    assign (assign cmds index a) t b.

(** [array.filter((_, i) => keep(i))], the first entry having index
    [i]. *)
Fixpoint filter_from (i : nat) (keep : nat -> bool)
  (l : list command) : list command :=
  match l with
  | [] => []
  | x :: rest =>
      if keep i then x :: filter_from (S i) keep rest
      else filter_from (S i) keep rest
  end.

(** [array.map((cmd, i) => f(cmd, i))], the first entry having index
    [i]. *)
Fixpoint map_from (i : nat) (f : command -> nat -> command)
  (l : list command) : list command :=
  match l with
  | [] => []
  | x :: rest => f x i :: map_from (S i) f rest
  end.

Definition removeStep (commands : list command) (index : nat)
  : list command :=
  filter_from 0 (fun i => negb (Nat.eqb i index)) commands.

(** [addStep(type = 'navigate')]; [None] is an omitted argument. *)
Definition addStep (commands : list command) (type : option str)
  : list command :=
  commands ++
  [createBlankCommand
     (match type with Some t => t | None => js "navigate" end)].

Definition changeStepType (commands : list command) (index : nat)
  (newType : str) : list command :=
  map_from 0
    (fun cmd i => if Nat.eqb i index then createBlankCommand newType
                  else cmd)
    commands.

(** The exchange of two positions. *)
Definition exchange (i t j : nat) : nat :=
  if Nat.eqb j t then i else if Nat.eqb j i then t else j.

End AutomationsTab.

(** *** The page side of PRESS and WAIT (main process) *)

(** [modifiers.includes(m)] *)
Definition has_modifier (m : string) (modifiers : list str) : bool :=
  existsb (str_eqb (js m)) modifiers.

(** The modifier bit mask that [pressKey] sends with its key events. *)
Definition modifierFlags (modifiers : list str) : Z :=
  let flags := 0%Z in
  let flags := if has_modifier "shift" modifiers
               then Z.lor flags 8 else flags in
  let flags := if has_modifier "ctrl" modifiers ||
                  has_modifier "control" modifiers
               then Z.lor flags 2 else flags in
  let flags := if has_modifier "alt" modifiers
               then Z.lor flags 1 else flags in
  let flags := if has_modifier "meta" modifiers ||
                  has_modifier "cmd" modifiers
               then Z.lor flags 4 else flags in
  flags.

(** The delay that the handler of automation:wait gives to [setTimeout]:
    [Math.min(ms, 10000)], with [ms = 1000] when the field is absent. *)
Definition wait_delay (ms : option number) : number :=
  Math_min (match ms with Some m => m | None => Finite 1000 end)
    (Finite 10000).

(** The marker of a code fence: three backticks. *)
Definition fence : str := [bt; bt; bt].

(** *** Texts whose fence markers stand alone on their lines *)

(** A line that holds a fence marker and nothing else: white space,
    three backticks, a tag of word characters, white space. *)
Definition fence_line (l : str) : bool :=
  startsWith fence (trim l) && forallb is_word (skipn 3 (trim l)).

(** No fence marker begins inside [s] when [t] follows it. *)
Fixpoint calm (s t : str) : bool :=
  match s with
  | [] => true
  | _ :: s' => negb (startsWith fence (s ++ t)) && calm s' t
  end.

(** The text after its first line: every line with a newline before
    it. *)
Definition tail_text (ls : list str) : str :=
  flat_map (fun l => nl :: l) ls.

Module Fences.

(** A line of such a text: one without a marker, or white space, a
    marker, a tag and white space. *)
Inductive fline : Type :=
| Plain (l : str)
| Marker (a tag b : str).

Definition fline_text (x : fline) : str :=
  match x with
  | Plain l => l
  | Marker a tag b => a ++ fence ++ tag ++ b
  end.

Definition is_marker (x : fline) : bool :=
  match x with Marker _ _ _ => true | Plain _ => false end.

(** A line with [a] put before it. *)
Definition glue (a : str) (ls : list str) : list str :=
  match ls with
  | [] => [a]
  | l :: rest => (a ++ l) :: rest
  end.

(** The lines that the replacement of the fenced blocks leaves, inside
    a block or outside.  An opening marker goes with its tag, and with
    the newline when that follows the tag at once; the closing marker
    goes and leaves its line; a marker that no other follows stays. *)
Fixpoint unfenced (inside : bool) (ls : list fline) : list str :=
  match ls with
  | [] => []
  | Plain l :: rest => l :: unfenced inside rest
  | Marker a tag b :: rest =>
      if inside then (a ++ tag ++ b) :: unfenced false rest
      else if existsb is_marker rest then
        match b with
        | [] => glue a (unfenced true rest)
        | _ :: _ => (a ++ b) :: unfenced true rest
        end
      else map fline_text ls
  end.

(** What the lines of such a text are made of. *)
Definition well_formed (x : fline) : Prop :=
  match x with
  | Plain l => calm l [nl] = true /\ ~ In nl l
  | Marker a tag b =>
      forallb is_space a = true /\ forallb is_space b = true /\
      forallb is_word tag = true /\ ~ In nl a /\ ~ In nl b
  end.

End Fences.

(** Every word that [r] matches contains the code unit [c]. *)
Fixpoint demands (c : char) (r : regex) : bool :=
  match r with
  | Chr x => (x =? c)%N
  | Cat a b => demands c a || demands c b
  | Alt a b => demands c a && demands c b
  | Grp a => demands c a
  | Eps | Cls _ | Star _ | StarLazy _ | Opt _ => false
  end.

(** A text that begins with no backtick, or is empty. *)
Definition quiet (t : str) : Prop :=
  match t with c :: _ => c <> bt | [] => True end.

(** ** Proof automation *)

(** Case analysis on the innermost scrutinees of a line handler, then the
    list of chunks that it passed to [onChunk]. *)
Ltac crush_handler :=
  repeat (cbn [fst snd];
          match goal with
          | |- context [match ?x with _ => _ end] =>
              lazymatch x with
              | context [match _ with _ => _ end] => fail
              | _ => destruct x
              end
          end);
  simpl;
  first [ exists []; reflexivity
        | match goal with
          | |- exists cs, [OnChunk ?c] = _ => exists [c]; reflexivity
          | |- exists cs, [OnChunk ?c; OnDone] = _ => exists [c]; reflexivity
          | |- exists cs, [OnChunk ?c] ++ _ = _ => exists [c]; reflexivity
          end ].

(** Opens every existential and conjunction among the hypotheses. *)
Ltac break_den :=
  repeat match goal with
         | H : exists _, _ |- _ => destruct H
         | H : _ /\ _ |- _ => destruct H
         end.

(** Case analysis on the innermost scrutinees of the goal, keeping the
    equations. *)
Ltac no_inner_match x :=
  lazymatch x with
  | context [match _ with _ => _ end] => fail
  | _ => idtac
  end.

Ltac split_handler :=
  repeat (cbn [fst snd];
          match goal with
          | |- context [match ?x with _ => _ end] =>
              no_inner_match x; destruct x eqn:?
          end).

(** The chunks among the events of a line handler, case by case. *)
Ltac chunk_cases :=
  split_handler; simpl;
  let H := fresh "H" in
  intros H; repeat (destruct H as [H|H]); try contradiction;
  try discriminate; inversion H; subst; assumption.

(* ================================================================== *)
(** * Part II. Properties *)
(* ================================================================== *)

(** ** The matcher *)

Lemma firstn_app_length_diff (w s' : str) :
  firstn (length (w ++ s') - length s') (w ++ s') = w.
Proof.
  rewrite length_app.
  replace (length w + length s' - length s') with (length w) by lia.
  rewrite firstn_app, Nat.sub_diag, firstn_all. simpl.
  apply app_nil_r.
Qed.

Lemma star_greedy_sound (A : Type) (p : char -> bool) (k : str -> option A) :
  forall s x, star_greedy p k s = Some x ->
  exists w s', s = w ++ s' /\ forallb p w = true /\ k s' = Some x.
Proof.
  induction s as [|c s IH]; simpl; intros x H.
  - exists [], []. auto.
  - destruct (p c) eqn:Hp.
    + unfold orElse in H.
      destruct (star_greedy p k s) as [y|] eqn:Hs.
      * inversion H; subst y.
        destruct (IH x eq_refl) as (w & s' & -> & Hw & Hk).
        exists (c :: w), s'. simpl. rewrite Hp, Hw. auto.
      * exists [], (c :: s). auto.
    + exists [], (c :: s). auto.
Qed.

Lemma star_lazy_sound (A : Type) (p : char -> bool) (k : str -> option A) :
  forall s x, star_lazy p k s = Some x ->
  exists w s', s = w ++ s' /\ forallb p w = true /\ k s' = Some x.
Proof.
  induction s as [|c s IH]; simpl; intros x H.
  - destruct (k []) eqn:Hk; [|discriminate].
    inversion H; subst. exists [], []. auto.
  - destruct (k (c :: s)) eqn:Hk.
    + inversion H; subst. exists [], (c :: s). auto.
    + destruct (p c) eqn:Hp; [|discriminate].
      destruct (IH x H) as (w & s' & -> & Hw & Hk').
      exists (c :: w), s'. simpl. rewrite Hp, Hw. auto.
Qed.

(** The matcher only reports matches that the pattern denotes. *)
Lemma rmatch_sound (A : Type) :
  forall r s caps (k : cont A) x,
    rmatch r s caps k = Some x ->
    exists w s' new,
      s = w ++ s' /\ den r w new /\ k s' (caps ++ new) = Some x.
Proof.
  induction r as [|c|p|r1 IH1 r2 IH2|r1 IH1 r2 IH2|p|p|r IH|r IH];
    simpl; intros s caps k x H.
  - exists [], s, []. rewrite app_nil_r. auto.
  - destruct s as [|y s]; [discriminate|].
    destruct (N.eqb_spec y c); [|discriminate]. subst y.
    exists [c], s, []. rewrite app_nil_r. auto.
  - destruct s as [|y s]; [discriminate|].
    destruct (p y) eqn:Hp; [|discriminate].
    exists [y], s, []. rewrite app_nil_r. split; [reflexivity|].
    split; [exists y; auto | assumption].
  - apply IH1 in H. destruct H as (w1 & s1 & n1 & -> & D1 & H).
    apply IH2 in H. destruct H as (w2 & s2 & n2 & -> & D2 & H).
    exists (w1 ++ w2), s2, (n1 ++ n2).
    rewrite <- !app_assoc. split; [reflexivity|].
    split; [|rewrite <- app_assoc in H; assumption].
    exists w1, w2, n1, n2. auto.
  - unfold orElse in H.
    destruct (rmatch r1 s caps k) as [y|] eqn:H1.
    + inversion H; subst y.
      apply IH1 in H1. destruct H1 as (w & s' & new & -> & D & Hk).
      exists w, s', new. auto.
    + apply IH2 in H. destruct H as (w & s' & new & -> & D & Hk).
      exists w, s', new. auto.
  - apply star_greedy_sound in H. destruct H as (w & s' & -> & Hw & Hk).
    exists w, s', []. rewrite app_nil_r. auto.
  - apply star_lazy_sound in H. destruct H as (w & s' & -> & Hw & Hk).
    exists w, s', []. rewrite app_nil_r. auto.
  - unfold orElse in H.
    destruct (rmatch r s caps k) as [y|] eqn:H1.
    + inversion H; subst y.
      apply IH in H1. destruct H1 as (w & s' & new & -> & D & Hk).
      exists w, s', new. auto.
    + exists [], s, []. rewrite app_nil_r. auto.
  - apply IH in H. destruct H as (w & s' & new & -> & D & Hk).
    rewrite firstn_app_length_diff in Hk.
    exists w, s', (new ++ [w]).
    split; [reflexivity|]. split; [exists new; auto|].
    rewrite app_assoc. assumption.
Qed.

Lemma match_here_sound (r : regex) (s : str) (f : found) :
  match_here r s = Some f ->
  s = matched f ++ rest f /\ den r (matched f) (groups f).
Proof.
  unfold match_here. intros H.
  apply rmatch_sound in H. destruct H as (w & s' & new & -> & D & H).
  rewrite firstn_app_length_diff in H. simpl in H.
  inversion H; subst f; simpl. auto.
Qed.

Lemma exec_sound (r : regex) :
  forall s pre f, exec r s = Some (pre, f) ->
    s = pre ++ matched f ++ rest f /\ den r (matched f) (groups f).
Proof.
  induction s as [|c s IH]; simpl; intros pre f H.
  - destruct (match_here r []) as [g|] eqn:Hm; [|discriminate].
    inversion H; subst. apply match_here_sound in Hm. simpl. exact Hm.
  - destruct (match_here r (c :: s)) as [g|] eqn:Hm.
    + inversion H; subst. apply match_here_sound in Hm. simpl. exact Hm.
    + destruct (exec r s) as [[pre' g]|] eqn:He; [|discriminate].
      inversion H; subst.
      destruct (IH pre' f eq_refl) as [-> D]. auto.
Qed.

(** A pattern that matches at some offset of a line is found by the
    search, possibly at an earlier offset. *)
Lemma exec_complete (r : regex) :
  forall pre s, match_here r s <> None -> exec r (pre ++ s) <> None.
Proof.
  induction pre as [|c pre IH]; intros s H.
  - simpl. destruct s as [|c s]; simpl;
      destruct (match_here r _); congruence.
  - simpl. destruct (match_here r (c :: pre ++ s)); [congruence|].
    specialize (IH s H). destruct (exec r (pre ++ s)) as [[? ?]|]; congruence.
Qed.

Lemma den_avoids (c : char) :
  forall r w caps, den r w caps -> avoids c r = true -> ~ In c w.
Proof.
  induction r as [|y|p|r1 IH1 r2 IH2|r1 IH1 r2 IH2|p|p|r IH|r IH];
    simpl; intros w caps D Hav.
  - destruct D as [-> _]. auto.
  - destruct D as [-> _]. intros [E|[]]. subst.
    rewrite N.eqb_refl in Hav. discriminate.
  - destruct D as (x & -> & Hp & _). intros [E|[]]. subst.
    rewrite Hp in Hav. discriminate.
  - destruct D as (w1 & w2 & c1 & c2 & -> & _ & D1 & D2).
    apply andb_true_iff in Hav. destruct Hav as [A1 A2].
    intros Hin. apply in_app_or in Hin. destruct Hin.
    + eapply IH1; eauto.
    + eapply IH2; eauto.
  - apply andb_true_iff in Hav. destruct Hav as [A1 A2].
    destruct D; [eapply IH1 | eapply IH2]; eauto.
  - destruct D as [Hw _]. intros Hin.
    rewrite forallb_forall in Hw. apply Hw in Hin.
    rewrite Hin in Hav. discriminate.
  - destruct D as [Hw _]. intros Hin.
    rewrite forallb_forall in Hw. apply Hw in Hin.
    rewrite Hin in Hav. discriminate.
  - destruct D as [[-> _]|D]; [auto | eapply IH; eauto].
  - destruct D as (inner & _ & D). eapply IH; eauto.
Qed.

Lemma den_groups_avoid (c : char) :
  forall r w caps, den r w caps -> groups_avoid c r = true ->
    Forall (fun cap => ~ In c cap) caps.
Proof.
  induction r as [|y|p|r1 IH1 r2 IH2|r1 IH1 r2 IH2|p|p|r IH|r IH];
    simpl; intros w caps D Hav.
  - destruct D as [_ ->]. constructor.
  - destruct D as [_ ->]. constructor.
  - destruct D as (x & _ & _ & ->). constructor.
  - destruct D as (w1 & w2 & c1 & c2 & _ & -> & D1 & D2).
    apply andb_true_iff in Hav. destruct Hav as [A1 A2].
    apply Forall_app. split; [eapply IH1 | eapply IH2]; eauto.
  - apply andb_true_iff in Hav. destruct Hav as [A1 A2].
    destruct D; [eapply IH1 | eapply IH2]; eauto.
  - destruct D as [_ ->]. constructor.
  - destruct D as [_ ->]. constructor.
  - destruct D as [[_ ->]|D]; [constructor | eapply IH; eauto].
  - destruct D as (inner & -> & D).
    apply andb_true_iff in Hav. destruct Hav as [A1 A2].
    apply Forall_app. split; [eapply IH; eauto|].
    constructor; [|constructor]. eapply den_avoids; eauto.
Qed.

(** Whatever a search returns in its groups avoids [c] when the groups of
    the pattern do. *)
Lemma jsmatch_groups_avoid (c : char) (r : regex) (s : str) (m : found) :
  jsmatch r s = Some m -> groups_avoid c r = true ->
  forall n, ~ In c (nth n (groups m) []).
Proof.
  unfold jsmatch. intros H Hav n.
  destruct (exec r s) as [[pre f]|] eqn:He; [|discriminate].
  simpl in H. inversion H; subst f.
  apply exec_sound in He. destruct He as [_ D].
  pose proof (@den_groups_avoid c _ _ _ D Hav) as HF.
  destruct (Nat.lt_ge_cases n (length (groups m))) as [Hlt|Hge].
  - rewrite Forall_forall in HF. apply HF. apply nth_In. assumption.
  - rewrite nth_overflow by assumption. auto.
Qed.

(** ** The command grammar parser *)

Lemma fold_parse_step (lines : list str) :
  forall acc,
    fold_left parse_step lines acc =
    acc ++ flat_map (fun line => emit (parse_line line)) lines.
Proof.
  induction lines as [|l lines IH]; intros acc; simpl.
  - symmetry. apply app_nil_r.
  - rewrite IH. unfold parse_step.
    destruct (parse_line l); simpl; [rewrite <- app_assoc|]; reflexivity.
Qed.

Lemma parseCommands_lines (text : str) :
  parseCommands text =
  flat_map (fun line => emit (parse_line line))
    (split_nl (replace_all re_fence_block unfence text)).
Proof. unfold parseCommands. apply fold_parse_step. Qed.

(** The if / else-if chain of the source is a first-match search through
    the patterns in source order. *)
Lemma parse_line_first_match (line : str) :
  parse_line line = first_match patterns_in_source_order (trim line).
Proof.
  unfold parse_line.
  destruct (trim line) as [|c t] eqn:E; [vm_compute; reflexivity|].
  remember (c :: t) as s eqn:Hs. clear Hs E.
  cbn [first_match patterns_in_source_order].
  repeat (destruct (jsmatch _ s); [reflexivity|]). reflexivity.
Qed.

Lemma first_match_some (s : str) :
  forall ps p, In p ps -> jsmatch (fst p) s <> None ->
    first_match ps s <> None.
Proof.
  induction ps as [|[r b] ps IH]; intros p Hin Hm; [destruct Hin|].
  simpl. destruct (jsmatch r s) eqn:E; [discriminate|].
  destruct Hin as [<-|Hin]; [simpl in Hm; congruence|].
  eapply IH; eauto.
Qed.

Lemma first_match_inv (s : str) :
  forall ps c, first_match ps s = Some c ->
    exists p m, In p ps /\ jsmatch (fst p) s = Some m /\ c = snd p m.
Proof.
  induction ps as [|[r b] ps IH]; simpl; intros c H; [discriminate|].
  destruct (jsmatch r s) as [m|] eqn:E.
  - inversion H; subst. exists (r, b), m. auto.
  - destruct (IH c H) as (p & m & Hin & Hm & ->).
    exists p, m. auto.
Qed.

(** C1, as the specification states it, fails: a call embedded in prose
    is extracted, and on a line where both FILL and PRESS occur the parser
    emits the PRESS command although the FILL pattern matches too. *)
Lemma parseCommands_prose_and_fill_counterexample :
  parseCommands (js "Now CLICK(10, 20) please") = [Click 10 20] /\
  let line := js "FILL(" ++ q "#a" ++ js ", " ++ q "b" ++
              js ") then PRESS(" ++ q "Enter" ++ js ")" in
  jsmatch re_fill line <> None /\
  jsmatch re_press line <> None /\
  parseCommands line = [Press (js "Enter")].
Proof.
  split; [vm_compute; reflexivity|].
  cbv zeta. repeat split; vm_compute; discriminate || reflexivity.
Qed.

(** C1 (amended).  For every text the parser takes the lines of the text
    (after the fence markers are stripped), trims each, and emits for each
    line the command of the first pattern, in the order click, click
    element, type, press, scroll, navigate, wait, find, fill, that occurs
    anywhere in the line; a line in which no pattern occurs contributes
    nothing.  Hence a call embedded in a line of prose is extracted, and on
    a line where another pattern occurs no fill command is emitted. *)
Theorem parseCommands_first_match_in_source_order :
  (forall text,
     parseCommands text =
     flat_map
       (fun line => emit (first_match patterns_in_source_order (trim line)))
       (split_nl (replace_all re_fence_block unfence text))) /\
  (forall line pre call p,
     trim line = pre ++ call ->
     In p patterns_in_source_order ->
     match_here (fst p) call <> None ->
     parse_line line <> None) /\
  (forall line p c,
     In p (removelast patterns_in_source_order) ->
     jsmatch (fst p) (trim line) <> None ->
     parse_line line = Some c ->
     is_fill c = false).
Proof.
  split; [|split].
  - intros text. rewrite parseCommands_lines.
    apply flat_map_ext. intros line. now rewrite parse_line_first_match.
  - intros line pre call p Ht Hin Hm.
    rewrite parse_line_first_match, Ht.
    apply first_match_some with (p := p); [assumption|].
    unfold jsmatch. pose proof (@exec_complete (fst p) pre call Hm) as He.
    destruct (exec (fst p) (pre ++ call)); simpl; congruence.
  - intros line p c Hin Hm Hc.
    rewrite parse_line_first_match in Hc.
    remember (trim line) as s eqn:Hs. clear Hs.
    cbn [first_match patterns_in_source_order] in Hc.
    repeat match type of Hc with
           | context [jsmatch ?r s] =>
               let E := fresh "E" in
               destruct (jsmatch r s) eqn:E;
               [inversion Hc; subst; reflexivity|]
           end.
    cbn [removelast patterns_in_source_order] in Hin.
    repeat (destruct Hin as [<-|Hin]; [simpl in Hm; congruence|]).
    destruct Hin.
Qed.

Lemma parseCommands_first_match_witness :
  parse_line (js "Now CLICK(10, 20) please") <> None /\
  is_fill (Press (js "Enter")) = false.
Proof.
  destruct parseCommands_first_match_in_source_order as (_ & Hprose & Hfill).
  split.
  - apply (Hprose _ (js "Now ") (js "CLICK(10, 20) please")
             (re_click, fun m => Click (to_number (m1 m)) (to_number (m2 m)))).
    + vm_compute. reflexivity.
    + simpl. auto.
    + vm_compute. discriminate.
  - apply (Hfill (js "FILL(" ++ q "#a" ++ js ", " ++ q "b" ++
                  js ") then PRESS(" ++ q "Enter" ++ js ")")
             (re_press, fun m => Press (m1 m))).
    + simpl. auto 10.
    + vm_compute. discriminate.
    + vm_compute. reflexivity.
Defined.

(** C10.  No string argument of a parsed command (selector, text, key,
    url, fill value) contains a double quote: a quoted argument that embeds
    one is never captured whole, so no command carries it. *)
Theorem parsed_string_arguments_have_no_quote :
  forall text c a,
    In c (parseCommands text) -> In a (string_args c) -> ~ In dq a.
Proof.
  intros text c a Hc Ha.
  rewrite parseCommands_lines in Hc.
  apply in_flat_map in Hc. destruct Hc as (line & _ & Hc).
  destruct (parse_line line) as [c'|] eqn:Hp; [|destruct Hc].
  destruct Hc as [<-|[]].
  rewrite parse_line_first_match in Hp.
  apply first_match_inv in Hp. destruct Hp as (p & m & Hin & Hm & ->).
  cbn [patterns_in_source_order In] in Hin.
  repeat (destruct Hin as [<-|Hin];
          [ cbn [fst snd string_args In] in *;
            repeat (destruct Ha as [<-|Ha];
                    [ eapply jsmatch_groups_avoid;
                      [exact Hm | vm_compute; reflexivity] |]);
            destruct Ha |]).
  destruct Hin.
Qed.

Lemma parsed_string_arguments_have_no_quote_witness :
  ~ In dq (js "hello").
Proof.
  apply (@parsed_string_arguments_have_no_quote
           (js "TYPE(" ++ q "hello" ++ js ")") (TypeText (js "hello"))).
  - vm_compute. auto.
  - simpl. auto.
Defined.

(** ** The automation executor *)

Module ExecutorFacts.
Import Executor.

Lemma apply_update_same (u : update) :
  forall l i st, nth_error l i = Some st ->
    nth_error (apply_update l i u) i = Some (merge st u).
Proof.
  induction l as [|x l IH]; intros [|i] st H; simpl in *; try discriminate.
  - inversion H; subst. reflexivity.
  - apply IH. assumption.
Qed.

Lemma apply_update_other (u : update) :
  forall l i j, i <> j -> nth_error (apply_update l i u) j = nth_error l j.
Proof.
  induction l as [|x l IH]; intros [|i] [|j] H; simpl; try reflexivity.
  - congruence.
  - apply IH. congruence.
Qed.

Section Run.
Variable invoke : nat -> command -> outcome.
Variable now : nat -> Z.

(** One turn of the loop sends exactly two updates to its own step: the
    running mark and one terminal update that carries a duration. *)
Lemma run_command_spec (i : nat) (cmd : command) (s : state) :
  exists u,
    is_terminal (u_status u) = true /\
    (exists d, u_duration u = Some d) /\
    (forall msg, fails_with invoke i cmd msg ->
       u_status u = error /\
       u_detail u =
         Some (describeCommand cmd ++ js " " ++ dash ++ js " " ++ msg)) /\
    steps (run_command invoke now i cmd s) =
      apply_update (apply_update (steps s) i (Update running None None))
        i u /\
    trace (run_command invoke now i cmd s) =
      trace s ++ [(i, Update running None None); (i, u)].
Proof.
  unfold run_command, fails_with.
  destruct (invoke i cmd) as [[e|]|msg] eqn:Hinv; simpl.
  - destruct e as [|c e]; simpl.
    + eexists. split; [|split; [|split; [|split]]];
        [| | | reflexivity | rewrite <- app_assoc; reflexivity];
        [reflexivity | eexists; reflexivity |].
      intros msg [H|[H Hne]]; [discriminate|].
      inversion H; subst. congruence.
    + eexists. split; [|split; [|split; [|split]]];
        [| | | reflexivity | rewrite <- app_assoc; reflexivity];
        [reflexivity | eexists; reflexivity |].
      intros msg [H|[H Hne]]; [discriminate|].
      inversion H; subst. auto.
  - eexists. split; [|split; [|split; [|split]]];
      [| | | reflexivity | rewrite <- app_assoc; reflexivity];
      [reflexivity | eexists; reflexivity |].
    intros msg [H|[H Hne]]; discriminate.
  - eexists. split; [|split; [|split; [|split]]];
      [| | | reflexivity | rewrite <- app_assoc; reflexivity];
      [reflexivity | eexists; reflexivity |].
    intros msg' [H|[H Hne]]; [|discriminate].
    inversion H; subst. auto.
Qed.

Lemma run_command_frame (i j : nat) (cmd : command) (s : state) :
  i <> j ->
  nth_error (steps (run_command invoke now i cmd s)) j =
    nth_error (steps s) j /\
  events_of j (trace (run_command invoke now i cmd s)) =
    events_of j (trace s).
Proof.
  intros Hne.
  destruct (run_command_spec i cmd s) as (u & _ & _ & _ & -> & ->).
  split.
  - rewrite !apply_update_other by assumption. reflexivity.
  - unfold events_of. rewrite filter_app. simpl.
    apply Nat.eqb_neq in Hne. rewrite Hne. apply app_nil_r.
Qed.

(** The rest of the loop leaves the earlier steps alone. *)
Lemma run_from_frame (commands : list command) :
  forall i j s, j < i ->
    nth_error (steps (run_from invoke now i commands s)) j =
      nth_error (steps s) j /\
    events_of j (trace (run_from invoke now i commands s)) =
      events_of j (trace s).
Proof.
  induction commands as [|cmd rest IH]; intros i j s Hlt; simpl.
  - auto.
  - destruct (IH (S i) j (run_command invoke now i cmd s)) as [-> ->];
      [lia|].
    apply run_command_frame. lia.
Qed.

Lemma run_from_spec (commands : list command) :
  forall i s j cmd st0,
    nth_error commands j = Some cmd ->
    nth_error (steps s) (i + j) = Some st0 ->
    exists u,
      is_terminal (u_status u) = true /\
      (exists d, u_duration u = Some d) /\
      (forall msg, fails_with invoke (i + j) cmd msg ->
         u_status u = error /\
         u_detail u =
           Some (describeCommand cmd ++ js " " ++ dash ++ js " " ++ msg)) /\
      nth_error (steps (run_from invoke now i commands s)) (i + j) =
        Some (merge (merge st0 (Update running None None)) u) /\
      events_of (i + j) (trace (run_from invoke now i commands s)) =
        events_of (i + j) (trace s) ++
        [(i + j, Update running None None); (i + j, u)].
Proof.
  induction commands as [|cmd0 rest IH]; intros i s j cmd st0 Hc Hs.
  - destruct j; discriminate.
  - destruct j as [|j]; simpl in Hc.
    + inversion Hc; subst cmd0. rewrite Nat.add_0_r in *. simpl.
      destruct (run_command_spec i cmd s) as (u & Ht & Hd & He & Hst & Htr).
      exists u.
      split; [exact Ht|]. split; [exact Hd|]. split; [exact He|].
      destruct (@run_from_frame rest (S i) i
                  (run_command invoke now i cmd s)) as [-> ->]; [lia|].
      rewrite Hst, Htr. split.
      * erewrite apply_update_same; [reflexivity|].
        apply apply_update_same. assumption.
      * unfold events_of. rewrite filter_app. simpl.
        rewrite Nat.eqb_refl. reflexivity.
    + simpl.
      replace (i + S j) with (S i + j) in * by lia.
      destruct (@run_command_frame i (S i + j) cmd0 s) as [Hst Htr]; [lia|].
      destruct (IH (S i) (run_command invoke now i cmd0 s) j cmd st0 Hc)
        as (u & Ht & Hd & He & Hs' & Htr'); [congruence|].
      exists u.
      split; [exact Ht|]. split; [exact Hd|]. split; [exact He|].
      split; [exact Hs'|]. rewrite Htr', Htr. reflexivity.
Qed.
End Run.

(** C3.  Whatever the page does, every step of a run goes pending, then
    running, then done or error, in that order and each once, so its
    status only ever moves forward; it ends with a duration; and a step
    whose command threw or returned an error result ends in error with
    its message, without stopping the steps after it. *)
Theorem every_step_reaches_a_terminal_status :
  forall (invoke : nat -> command -> outcome) (now : nat -> Z)
         (commands : list command) (k : nat) (cmd : command),
    nth_error commands k = Some cmd ->
    let s := executeAutomationCommands invoke now commands in
    exists st,
      nth_error (steps s) k = Some st /\
      status_history k (initialSteps commands) (trace s) =
        [pending; running; st_status st] /\
      map rank (status_history k (initialSteps commands) (trace s)) =
        [0; 1; 2] /\
      is_terminal (st_status st) = true /\
      (exists d, duration st = Some d) /\
      (forall msg,
         invoke k cmd = Throws msg \/
         (invoke k cmd = Returns (Some msg) /\ msg <> []) ->
         st_status st = error /\
         detail st = describeCommand cmd ++ js " " ++ dash ++ js " " ++ msg).
Proof.
  intros invoke now commands k cmd Hc s.
  assert (H0 : nth_error (initialSteps commands) k =
               Some (Step (describeCommand cmd) pending None)).
  { unfold initialSteps. rewrite nth_error_map, Hc. reflexivity. }
  destruct (@run_from_spec invoke now commands 0
              (State (initialSteps commands) 0 []) k cmd _ Hc H0)
    as (u & Ht & [d Hd] & He & Hs & Htr).
  simpl in Hs, Htr.
  exists (merge (merge (Step (describeCommand cmd) pending None)
                   (Update running None None)) u).
  split; [exact Hs|].
  assert (Hh : status_history k (initialSteps commands) (trace s) =
               [pending; running; u_status u]).
  { unfold status_history. rewrite H0. simpl.
    unfold events_of in Htr. unfold s, executeAutomationCommands.
    rewrite Htr. reflexivity. }
  split; [exact Hh|].
  split.
  { rewrite Hh. simpl. destruct (u_status u); simpl in Ht;
      try discriminate; reflexivity. }
  split; [exact Ht|].
  split; [exists d; simpl; rewrite Hd; reflexivity|].
  intros msg Hf. destruct (He msg Hf) as [E1 E2].
  simpl. rewrite E1, E2. auto.
Qed.

Lemma every_step_reaches_a_terminal_status_witness :
  let invoke := fun (i : nat) (_ : command) =>
                  match i with
                  | 1 => Throws (js "boom")
                  | _ => Returns None
                  end in
  let commands := [Wait 5; Click 1 2; Scroll 3] in
  let s := executeAutomationCommands invoke (fun n => Z.of_nat n) commands in
  exists st,
    nth_error (steps s) 1 = Some st /\
    status_history 1 (initialSteps commands) (trace s) =
      [pending; running; st_status st] /\
    st_status st = error /\
    detail st =
      describeCommand (Click 1 2) ++ js " " ++ dash ++ js " " ++ js "boom".
Proof.
  intros invoke commands s.
  destruct (@every_step_reaches_a_terminal_status invoke
              (fun n => Z.of_nat n) commands 1 (Click 1 2) eq_refl)
    as (st & H1 & H2 & _ & _ & _ & H5).
  destruct (H5 (js "boom") (or_introl eq_refl)) as [H6 H7].
  exists st. auto.
Defined.

End ExecutorFacts.

(** ** The request lifecycle manager *)

Module LifecycleFacts.
Import Lifecycle.

Lemma has_In (c : handle) (l : list handle) : has c l = true <-> In c l.
Proof.
  unfold has. rewrite existsb_exists. split.
  - intros (x & Hin & E). apply Nat.eqb_eq in E. now subst.
  - intros H. exists c. split; [assumption | apply Nat.eqb_refl].
Qed.

Lemma has_false (c : handle) (l : list handle) :
  has c l = false <-> ~ In c l.
Proof.
  rewrite <- has_In. destruct (has c l); split; congruence.
Qed.

Lemma In_set_delete (c x : handle) (l : list handle) :
  In x (set_delete c l) <-> In x l /\ x <> c.
Proof.
  unfold set_delete. rewrite filter_In, negb_true_iff, Nat.eqb_neq.
  intuition congruence.
Qed.

Lemma set_delete_absent (c : handle) (l : list handle) :
  ~ In c l -> set_delete c l = l.
Proof.
  induction l as [|x l IH]; simpl; intros H; [reflexivity|].
  destruct (Nat.eqb_spec c x) as [->|Hne]; simpl.
  - exfalso. apply H. now left.
  - f_equal. apply IH. intros Hin. apply H. now right.
Qed.

Lemma inv_init : inv init.
Proof. constructor; simpl; [constructor | intros ? [] ..]. Qed.

Lemma controller_abort_aborted (c : handle) (s : state) :
  In c (aborted (controller_abort c s)).
Proof.
  unfold controller_abort. destruct (has c (aborted s)) eqn:E.
  - now apply has_In.
  - simpl. now left.
Qed.

Lemma controller_abort_mono (c x : handle) (s : state) :
  In x (aborted s) -> In x (aborted (controller_abort c s)).
Proof.
  unfold controller_abort. destruct (has c (aborted s)); simpl; auto.
Qed.

Lemma controller_abort_live (c x : handle) (s : state) :
  In x (activeControllers (controller_abort c s)) ->
  In x (activeControllers s).
Proof.
  unfold controller_abort. destruct (has c (aborted s)); simpl; auto.
  rewrite In_set_delete. tauto.
Qed.

Lemma controller_abort_keeps (c x : handle) (s : state) :
  x <> c -> In x (activeControllers s) ->
  In x (activeControllers (controller_abort c s)).
Proof.
  unfold controller_abort. destruct (has c (aborted s)); simpl; auto.
  rewrite In_set_delete. tauto.
Qed.

Lemma controller_abort_next (c : handle) (s : state) :
  next (controller_abort c s) = next s.
Proof. unfold controller_abort. destruct (has c (aborted s)); reflexivity. Qed.

Lemma controller_abort_log (c : handle) (s : state) :
  log (controller_abort c s) = log s.
Proof. unfold controller_abort. destruct (has c (aborted s)); reflexivity. Qed.

Lemma controller_abort_inv (c : handle) (s : state) :
  inv s -> c < next s -> inv (controller_abort c s).
Proof.
  intros [Hn Hl Ha Ht] Hc. unfold controller_abort.
  destruct (has c (aborted s)) eqn:E; [constructor; assumption|].
  constructor; simpl.
  - unfold set_delete. apply NoDup_filter. assumption.
  - intros x Hx. apply In_set_delete in Hx. destruct Hx as [Hx Hne].
    destruct (Hl x Hx) as [Hlt Hna]. split; [assumption|].
    intros [->|Hin]; [congruence | contradiction].
  - intros x [<-|Hx]; auto.
  - intros t Hin. unfold clearTimeout in Hin. apply filter_In in Hin.
    apply Ht. tauto.
Qed.

(** Cancelling twice is cancelling once. *)
Lemma controller_abort_twice (c : handle) (s : state) :
  controller_abort c (controller_abort c s) = controller_abort c s.
Proof.
  pose proof (controller_abort_aborted c s) as H.
  apply has_In in H.
  unfold controller_abort at 1. rewrite H. reflexivity.
Qed.

Lemma abort_loop_spec :
  forall todo s count,
    NoDup todo ->
    (forall c, In c todo -> In c (activeControllers s)) ->
    let r := abort_loop todo s count in
    snd r = count + length todo /\
    (forall c, In c todo -> In c (aborted (fst r))) /\
    (forall c, In c (aborted s) -> In c (aborted (fst r))) /\
    (forall c, In c (aborted (fst r)) -> In c (aborted s) \/ In c todo) /\
    next (fst r) = next s /\
    log (fst r) = log s /\
    (forall t, In t (timers (fst r)) -> In t (timers s)).
Proof.
  induction todo as [|c todo IH]; intros s count Hnd Hsub; simpl.
  - repeat split; auto; lia.
  - assert (Hc : has c (activeControllers s) = true).
    { apply has_In. apply Hsub. now left. }
    rewrite Hc. inversion Hnd as [|? ? Hnotin Hnd']; subst.
    destruct (IH (controller_abort c s) (S count) Hnd') as
      (H1 & H2 & H3 & H4 & H5 & H6 & H7).
    { intros x Hx. apply controller_abort_keeps.
      - intros ->. contradiction.
      - apply Hsub. now right. }
    split; [rewrite H1; lia|].
    split. { intros x [<-|Hx]; [apply H3, controller_abort_aborted | auto]. }
    split. { intros x Hx. apply H3, controller_abort_mono, Hx. }
    split.
    { intros x Hx. destruct (H4 x Hx) as [Hx'|Hx']; [|auto].
      unfold controller_abort in Hx'.
      destruct (has c (aborted s)); simpl in Hx'; [auto|].
      destruct Hx' as [<-|Hx']; auto. }
    split; [rewrite H5; apply controller_abort_next|].
    split; [rewrite H6; apply controller_abort_log|].
    intros t Ht. apply H7 in Ht. unfold controller_abort in Ht.
    destruct (has c (aborted s)); simpl in Ht; [assumption|].
    unfold clearTimeout in Ht. apply filter_In in Ht. tauto.
Qed.

Lemma abort_inv (s : state) : inv s -> inv (fst (abort s)).
Proof.
  intros Hi. pose proof Hi as [Hn Hl Ha Ht]. unfold abort.
  destruct (@abort_loop_spec (activeControllers s) s 0 Hn (fun c H => H))
    as (_ & _ & _ & H4 & H5 & _ & H7).
  destruct (abort_loop (activeControllers s) s 0) as [s' n]. simpl in *.
  constructor; simpl.
  - constructor.
  - intros c [].
  - intros c Hc. rewrite H5. destruct (H4 c Hc) as [H|H]; [auto|].
    apply Hl. assumption.
  - intros t Hin. rewrite H5. auto.
Qed.

Lemma timer_fires_inv (c : handle) (s : state) :
  inv s -> inv (timer_fires c s).
Proof.
  intros Hi. unfold timer_fires.
  destruct (find (fun t => Nat.eqb c (fst t)) (timers s))
    as [[c' timeoutMs]|] eqn:E; [|assumption].
  apply find_some in E. destruct E as [Hin Heq].
  apply Nat.eqb_eq in Heq. simpl in Heq. subst c'.
  pose proof Hi as [Hn Hl Ha Ht].
  assert (Hc : c < next s) by (apply (Ht _ Hin)).
  set (s1 := {| activeControllers := activeControllers s;
                aborted := aborted s;
                timers := clearTimeout c (timers s);
                next := next s; log := log s |}).
  assert (Hi1 : inv s1).
  { constructor; simpl; auto.
    intros t Hin'. unfold clearTimeout in Hin'. apply filter_In in Hin'.
    apply Ht. tauto. }
  pose proof (@controller_abort_inv c s1 Hi1 Hc) as [Hn2 Hl2 Ha2 Ht2].
  constructor; simpl.
  - unfold set_delete. apply NoDup_filter. assumption.
  - intros x Hx. apply In_set_delete in Hx. destruct Hx as [Hx _]. auto.
  - assumption.
  - assumption.
Qed.

Lemma makeController_inv (timeoutMs : Z) (s : state) :
  inv s -> inv (fst (_makeController timeoutMs s)).
Proof.
  intros [Hn Hl Ha Ht].
  assert (Hfresh : ~ In (next s) (activeControllers s)).
  { intros H. apply Hl in H. lia. }
  constructor; simpl.
  - unfold set_add. apply has_false in Hfresh. rewrite Hfresh.
    apply NoDup_app; [assumption | repeat constructor; intros [] | ].
    intros x Hx [<-|[]]. apply has_false in Hfresh. contradiction.
  - intros c Hc. unfold set_add in Hc.
    apply has_false in Hfresh. rewrite Hfresh in Hc.
    apply in_app_or in Hc. destruct Hc as [Hc|[<-|[]]].
    + destruct (Hl c Hc). split; [lia | assumption].
    + split; [lia|]. intros H. apply Ha in H. lia.
  - intros c Hc. apply Ha in Hc. lia.
  - intros t Hin. destruct (0 <? timeoutMs)%Z.
    + apply in_app_or in Hin. destruct Hin as [Hin|[<-|[]]].
      * apply Ht in Hin. lia.
      * simpl. lia.
    + apply Ht in Hin. lia.
Qed.

Lemma step_inv (s : state) (o : op) : inv s -> inv (step s o).
Proof.
  destruct o; simpl.
  - apply makeController_inv.
  - apply timer_fires_inv.
  - apply abort_inv.
  - auto.
Qed.

Lemma fold_step_inv (ops : list op) :
  forall s, inv s -> inv (fold_left step ops s).
Proof.
  induction ops as [|o ops IH]; simpl; intros s H; [assumption|].
  apply IH, step_inv, H.
Qed.

Lemma run_inv (ops : list op) : inv (run ops).
Proof. apply fold_step_inv, inv_init. Qed.

(** A signal that has fired stays fired. *)
Lemma step_aborted_mono (s : state) (o : op) (c : handle) :
  inv s -> In c (aborted s) -> In c (aborted (step s o)).
Proof.
  intros Hi Hc. destruct o as [t|c'| |c']; simpl.
  - assumption.
  - unfold timer_fires.
    destruct (find (fun t => Nat.eqb c' (fst t)) (timers s))
      as [[c'' timeoutMs]|]; [|assumption].
    simpl. apply controller_abort_mono. assumption.
  - unfold abort.
    destruct (@abort_loop_spec (activeControllers s) s 0 (inv_nodup Hi)
                (fun c H => H)) as (_ & _ & H3 & _).
    destruct (abort_loop (activeControllers s) s 0) as [s' n]. simpl in *.
    auto.
  - assumption.
Qed.

Lemma fold_step_aborted (ops : list op) (c : handle) :
  forall s, inv s -> In c (aborted s) ->
    In c (aborted (fold_left step ops s)).
Proof.
  induction ops as [|o ops IH]; simpl; intros s Hi Hc; [assumption|].
  apply IH; [apply step_inv, Hi | apply step_aborted_mono; assumption].
Qed.

(** What does hold of [abort()], in every state that a history of
    requests, timeouts and aborts can reach: it returns the size of
    [activeControllers], leaves the set empty and every handle it held
    cancelled; on an empty set it returns 0 and changes nothing but the
    log; cancelling a handle puts it among the cancelled handles and out
    of the set; cancelling twice is cancelling once; and a cancelled
    handle is not in the set, now or after any further history. *)
Theorem abort_cancels_every_live_handle :
  forall (ops : list op),
    let s := run ops in
    snd (abort s) = length (activeControllers s) /\
    activeControllers (fst (abort s)) = [] /\
    (forall c, In c (activeControllers s) ->
               In c (aborted (fst (abort s)))) /\
    (activeControllers s = [] ->
       abort s =
         ({| activeControllers := []; aborted := aborted s;
             timers := timers s; next := next s;
             log := log s ++ [AbortCalled 0] |}, 0)) /\
    (forall c, In c (aborted (controller_abort c s)) /\
               ~ In c (activeControllers (controller_abort c s))) /\
    (forall c, controller_abort c (controller_abort c s) =
               controller_abort c s) /\
    (forall c ops', In c (aborted s) ->
                    ~ In c (activeControllers (run (ops ++ ops')))).
Proof.
  intros ops s. pose proof (run_inv ops) as Hi. fold s in Hi.
  destruct (@abort_loop_spec (activeControllers s) s 0 (inv_nodup Hi)
              (fun c H => H)) as (H1 & H2 & _).
  split; [|split; [|split; [|split; [|split; [|split]]]]].
  - unfold abort.
    destruct (abort_loop (activeControllers s) s 0) as [s' n].
    simpl in *. assumption.
  - unfold abort.
    destruct (abort_loop (activeControllers s) s 0) as [s' n]. reflexivity.
  - intros c Hc. unfold abort.
    destruct (abort_loop (activeControllers s) s 0) as [s' n].
    simpl in *. auto.
  - intros E. unfold abort. rewrite E. reflexivity.
  - intros c. split; [apply controller_abort_aborted|].
    unfold controller_abort. destruct (has c (aborted s)) eqn:E.
    + apply has_In in E. intros Hc. apply (inv_live Hi) in Hc. tauto.
    + simpl. rewrite In_set_delete. tauto.
  - intros c. apply controller_abort_twice.
  - intros c ops' Hc Hlive. unfold run in Hlive.
    rewrite fold_left_app in Hlive. fold (run ops) in Hlive. fold s in Hlive.
    pose proof (@fold_step_inv ops' s Hi) as Hi'.
    apply (inv_live Hi') in Hlive. destruct Hlive as [_ Hna].
    apply Hna. apply fold_step_aborted; assumption.
Qed.

Lemma abort_cancels_every_live_handle_witness :
  let ops := [MakeController 120000; MakeController 15000; TimerFires 1] in
  In 1 (aborted (run ops)) /\
  snd (abort (run ops)) = 1 /\
  ~ In 1 (activeControllers
            (run (ops ++ [MakeController 0; Abort; MakeController 5]))).
Proof.
  intros ops.
  destruct (abort_cancels_every_live_handle ops)
    as (H1 & _ & _ & _ & _ & _ & H7).
  assert (Hc : In 1 (aborted (run ops))) by (vm_compute; auto).
  split; [exact Hc|]. split; [exact H1|].
  apply (H7 1 [MakeController 0; Abort; MakeController 5] Hc).
Defined.

(** C7 fails where it speaks of requests in flight: a controller leaves
    [activeControllers] on the abort event and on its timeout only, so
    once a request is over, with nothing in flight, [abort()] still
    counts and cancels its controller and logs one cancelled request;
    and when the timeout comes it is logged as a timed-out request. *)
Lemma abort_counts_a_settled_request :
  let ops := [MakeController 120000; Settles 0] in
  in_flight ops = [] /\
  activeControllers (run ops) = [0] /\
  abort (run ops) =
    ({| activeControllers := []; aborted := [0]; timers := [];
        next := 1; log := [AbortCalled 1] |}, 1) /\
  log (run (ops ++ [TimerFires 0])) = [TimedOut 120000].
Proof. vm_compute. auto. Qed.

End LifecycleFacts.

(** ** Validation and dispatch *)

Lemma str_eqb_eq (a b : str) : str_eqb a b = true <-> a = b.
Proof.
  unfold str_eqb. destruct (list_eq_dec N.eq_dec a b); split; congruence.
Qed.

Lemma str_eqb_neq (a b : str) : a <> b -> str_eqb a b = false.
Proof.
  unfold str_eqb. destruct (list_eq_dec N.eq_dec a b); congruence.
Qed.

Lemma validateProvider_None (p : provider) :
  validateProvider p = None <->
  (isLocal p = true \/ nonempty (apiKey p) = true) /\
  nonempty (baseUrl p) = true /\ nonempty (model p) = true.
Proof.
  unfold validateProvider.
  destruct (isLocal p), (nonempty (apiKey p)), (nonempty (baseUrl p)),
    (nonempty (model p)); simpl; split; intros H;
    try discriminate; try reflexivity; intuition discriminate.
Qed.

Lemma validateProvider_Some (p : provider) (err : error) :
  validateProvider p = Some err -> In err (configuration_errors p).
Proof.
  unfold validateProvider, configuration_errors.
  destruct (isLocal p), (nonempty (apiKey p)), (nonempty (baseUrl p)),
    (nonempty (model p)); simpl; intros H; inversion H; auto.
Qed.

Lemma chat_requests (fetch : request -> fetch_result)
  (settings : aiSettings) (messages : list message)
  (providerName : option str) :
  validateProvider (getProviderConfig settings providerName) = None ->
  length (fst (chat fetch settings messages providerName)) = 1.
Proof.
  intros H. unfold chat. rewrite H.
  repeat match goal with
         | |- context [if ?b then _ else _] => destruct b
         end; reflexivity.
Qed.

(** C6.  [chat] rejects with one of the three configuration errors, and
    without any request, when a provider that is not local has no API key,
    when the base URL is empty or when the model is empty; the two local
    providers need no key but still need a base URL and a model; and a
    call with a valid configuration issues exactly one request. *)
Theorem chat_validates_before_any_request :
  forall (fetch : request -> fetch_result) (settings : aiSettings)
         (messages : list message) (providerName : option str),
    let p := getProviderConfig settings providerName in
    ((isLocal p = false /\ nonempty (apiKey p) = false) \/
     nonempty (baseUrl p) = false \/ nonempty (model p) = false ->
     exists err,
       In err (configuration_errors p) /\
       chat fetch settings messages providerName = ([], inl err)) /\
    (isLocal p = true ->
     nonempty (baseUrl p) = true -> nonempty (model p) = true ->
     validateProvider p = None) /\
    ((isLocal p = true \/ nonempty (apiKey p) = true) ->
     nonempty (baseUrl p) = true -> nonempty (model p) = true ->
     length (fst (chat fetch settings messages providerName)) = 1).
Proof.
  intros fetch settings messages providerName p.
  split; [|split].
  - intros H.
    destruct (validateProvider p) as [err|] eqn:E.
    + exists err. split; [apply validateProvider_Some, E|].
      unfold chat. fold p. rewrite E. reflexivity.
    + apply validateProvider_None in E. destruct E as (H1 & H2 & H3).
      destruct H as [[Ha Hb]|[Hb|Hb]]; [|congruence..].
      destruct H1; congruence.
  - intros H1 H2 H3. apply validateProvider_None. auto.
  - intros H1 H2 H3. apply chat_requests. apply validateProvider_None. auto.
Qed.

Lemma chat_validates_before_any_request_witness :
  (exists err,
     In err (configuration_errors
               (getProviderConfig default_settings None)) /\
     chat no_network default_settings [] None = ([], inl err)) /\
  validateProvider
    (getProviderConfig default_settings (Some (js "ollama"))) = None /\
  length (fst (chat no_network default_settings []
                 (Some (js "ollama")))) = 1.
Proof.
  split; [|split].
  - apply (chat_validates_before_any_request no_network default_settings
             [] None).
    left. split; reflexivity.
  - apply (chat_validates_before_any_request no_network default_settings
             [] (Some (js "ollama"))); reflexivity.
  - apply (chat_validates_before_any_request no_network default_settings
             [] (Some (js "ollama"))); [left|..]; reflexivity.
Defined.

(** C9.  A provider whose name is none of gemini, anthropic and ollama,
    supported or not, is sent down the OpenAI-compatible path by [chat]
    and by [chatStream] once its configuration has passed validation:
    neither ever raises an unknown-provider error.  [listModels], given a
    name that is none of the six it knows, fails with the error
    Unknown provider. *)
Theorem unlisted_providers_take_the_openai_path :
  forall (fetch : request -> fetch_result)
         (JSON_parse : str -> option json)
         (dstate : Type) (dinit : dstate)
         (decode_byte : dstate -> N -> dstate * str)
         (array_sort : list jsval -> list jsval)
         (settings : aiSettings) (messages : list message)
         (providerName : option str),
    let p := getProviderConfig settings providerName in
    (name p <> js "gemini" -> name p <> js "anthropic" ->
     name p <> js "ollama" ->
     chat fetch settings messages providerName =
       match validateProvider p with
       | Some err => ([], inl err)
       | None => _chatOpenAICompatible fetch messages p
       end /\
     chatStream fetch JSON_parse dinit decode_byte settings messages
       providerName =
       match validateProvider p with
       | Some err => ([], [OnError err])
       | None =>
           _streamOpenAICompatible fetch JSON_parse dinit decode_byte
             messages p
       end) /\
    (name p <> js "openai" -> name p <> js "openrouter" ->
     name p <> js "lmstudio" -> name p <> js "anthropic" ->
     name p <> js "gemini" -> name p <> js "ollama" ->
     listModels fetch array_sort settings providerName =
       ([], inl (Error (js "Unknown provider: " ++ name p)))).
Proof.
  intros fetch JSON_parse dstate dinit decode_byte array_sort settings
    messages providerName p.
  split.
  - intros H1 H2 H3. unfold chat, chatStream. fold p.
    rewrite (str_eqb_neq H1), (str_eqb_neq H2), (str_eqb_neq H3).
    destruct (validateProvider p); auto.
  - intros H1 H2 H3 H4 H5 H6. unfold listModels. fold p.
    rewrite (str_eqb_neq H1), (str_eqb_neq H2), (str_eqb_neq H3),
      (str_eqb_neq H4), (str_eqb_neq H5), (str_eqb_neq H6).
    simpl. unfold _enrichFetchError, isLocal.
    rewrite (str_eqb_neq H6), (str_eqb_neq H3). reflexivity.
Qed.

Lemma unlisted_providers_take_the_openai_path_witness :
  let settings :=
    AiSettings (js "openai")
      [ (js "mistral",
         ProviderSettings (Some (js "key")) (Some (js "large"))
           (Some (js "https://api.mistral.ai/v1"))) ] in
  let p := getProviderConfig settings (Some (js "mistral")) in
  fst (chat no_network settings [] (Some (js "mistral"))) =
    [openai_request p [] false] /\
  listModels no_network (fun l => l) settings (Some (js "mistral")) =
    ([], inl (Error (js "Unknown provider: mistral"))).
Proof.
  intros settings p.
  destruct (@unlisted_providers_take_the_openai_path no_network
              (fun _ => None) unit tt (fun d _ => (d, []))
              (fun l => l) settings [] (Some (js "mistral")))
    as [Hchat Hlist].
  split.
  - destruct Hchat as [Hc _]; [vm_compute; discriminate..|].
    rewrite Hc. reflexivity.
  - apply Hlist; vm_compute; discriminate.
Defined.

(** ** Message shaping *)

Lemma startsWith_app (a b : str) : startsWith a (a ++ b) = true.
Proof.
  induction a as [|c a IH]; simpl; [reflexivity|].
  now rewrite N.eqb_refl.
Qed.

Lemma includes_app_r (x a : str) : includes x (a ++ x) = true.
Proof.
  induction a as [|c a IH]; simpl.
  - destruct x; simpl; [reflexivity|].
    rewrite N.eqb_refl. rewrite <- (app_nil_r x) at 2.
    now rewrite startsWith_app.
  - rewrite IH. apply orb_true_r.
Qed.

(** What does hold of the shaping, message by message: each shaper
    carries the text of its message, a system message reaches the
    Anthropic system prompt whatever came before, and the Gemini loop
    renames the assistant role. *)
Lemma shaping_keeps_the_text_of_one_message (msg : message) :
  In (content msg) (strings_of (_toOpenAIMessage msg)) /\
  In (content msg) (strings_of (_toOllamaMessage msg)) /\
  In (content msg) (flat_map strings_of (_toGeminiParts msg)) /\
  (forall acc,
     if str_eqb (role msg) (js "system")
     then includes (content msg) (tpl (fst (anthropic_step acc msg))) = true
     else exists shaped,
            snd (anthropic_step acc msg) = snd acc ++ [shaped] /\
            In (content msg) (strings_of shaped)) /\
  (forall acc,
     role msg = js "assistant" ->
     exists parts,
       snd (gemini_step acc msg) =
       snd acc ++ [JObj [ (js "role", JStr (js "model"));
                          (js "parts", parts) ]]).
Proof.
  repeat split.
  - unfold _toOpenAIMessage. destruct (nonempty (image msg)); simpl; auto.
  - unfold _toOllamaMessage. destruct (nonempty (image msg)); simpl; auto.
  - unfold _toGeminiParts. simpl. auto.
  - intros [sys shaped]. unfold anthropic_step.
    destruct (str_eqb (role msg) (js "system")); simpl.
    + apply includes_app_r.
    + destruct (nonempty (image msg)); eexists; split;
        try reflexivity; simpl; auto 10.
  - intros [sys shaped] Hr. unfold gemini_step. rewrite Hr.
    eexists. reflexivity.
Qed.

(** C8 fails on the Gemini path: of two system messages only the last
    reaches the request body, while the Anthropic path keeps both. *)
Lemma gemini_keeps_only_the_last_system_message :
  let messages :=
    [ Message (js "system") (js "Be brief.") None;
      Message (js "system") (js "Answer in French.") None;
      Message (js "user") (js "hi") None ] in
  let p := Provider (js "anthropic") (Some (js "k")) (Some (js "m"))
             (Some (js "u")) in
  gemini_body messages =
    JObj [ (js "contents",
            JArr [ JObj [ (js "role", JStr (js "user"));
                          (js "parts",
                           JArr [ JObj [ (js "text", JStr (js "hi")) ] ]) ] ]);
           (js "generationConfig",
            JObj [ (js "temperature", JNum (7 # 10));
                   (js "maxOutputTokens", JNum 4096) ]);
           (js "systemInstruction",
            JObj [ (js "parts",
                    JArr [ JObj [ (js "text",
                                   JStr (js "Answer in French.")) ] ]) ]) ] /\
  existsb (includes (js "Be brief.")) (strings_of (gemini_body messages))
    = false /\
  existsb (includes (js "Be brief."))
    (strings_of (anthropic_body p messages false)) = true.
Proof. vm_compute. auto. Qed.

(** ** The stream decoders *)

Section StreamFacts.
Variable fetch : request -> fetch_result.
Variable JSON_parse : str -> option json.
Variable dstate : Type.
Variable dinit : dstate.
Variable decode_byte : dstate -> N -> dstate * str.

Lemma openai_line_well_behaved : well_behaved (openai_line JSON_parse).
Proof. intros line. unfold openai_line. crush_handler. Qed.

Lemma anthropic_line_well_behaved :
  well_behaved (anthropic_line JSON_parse).
Proof. intros line. unfold anthropic_line. crush_handler. Qed.

Lemma gemini_line_well_behaved : well_behaved (gemini_line JSON_parse).
Proof. intros line. unfold gemini_line. crush_handler. Qed.

Lemma ollama_line_well_behaved : well_behaved (ollama_line JSON_parse).
Proof. intros line. unfold ollama_line. crush_handler. Qed.

Lemma for_lines_well_behaved (handle : str -> list event * bool) :
  well_behaved handle ->
  forall lines,
    exists cs,
      fst (for_lines handle lines) =
      map OnChunk cs ++
      (if snd (for_lines handle lines) then [OnDone] else []).
Proof.
  intros Hh. induction lines as [|l lines [cs IH]]; simpl.
  - exists []. reflexivity.
  - destruct (Hh l) as [cs0 H0].
    destruct (handle l) as [ev [|]]; simpl in *.
    + exists cs0. assumption.
    + destruct (for_lines handle lines) as [ev' r']; simpl in *.
      exists (cs0 ++ cs). rewrite H0, IH, map_app, app_nil_r.
      now rewrite app_assoc.
Qed.

(** Whatever is read, the loop calls [onChunk] some number of times and
    then exactly one of [onDone] and [onError], once, last. *)
Lemma read_loop_shape (handle : str -> list event * bool) :
  well_behaved handle ->
  forall rs d buffer,
    exists cs last,
      read_loop decode_byte handle rs d buffer = map OnChunk cs ++ [last]
      /\ is_terminal_event last = true.
Proof.
  intros Hh. induction rs as [|[value|e] rs IH]; intros d buffer; simpl.
  - exists [], OnDone. auto.
  - destruct (decode decode_byte d value) as [d' decoded].
    destruct (for_lines_well_behaved Hh
                (removelast (split_nl (buffer ++ decoded)))) as [cs H].
    destruct (for_lines handle _) as [ev [|]]; simpl in *.
    + exists cs, OnDone. auto.
    + destruct (IH d' (last (split_nl (buffer ++ decoded)) []))
        as (cs' & l & -> & Hl).
      exists (cs ++ cs'), l. rewrite H, map_app, app_nil_r.
      now rewrite app_assoc.
  - exists [], (OnError e). auto.
Qed.

(** C4.  Whatever the messages, the provider and the backend do,
    [chatStream] calls [onChunk] zero or more times and then exactly one
    of [onDone] and [onError], exactly once; nothing follows it. *)
Theorem chatStream_ends_exactly_once :
  forall (settings : aiSettings) (messages : list message)
         (providerName : option str),
    exists chunks last,
      snd (chatStream fetch JSON_parse dinit decode_byte settings messages
             providerName) = map OnChunk chunks ++ [last] /\
      is_terminal_event last = true.
Proof.
  intros settings messages providerName. unfold chatStream.
  destruct (validateProvider _) as [err|].
  { exists [], (OnError err). auto. }
  unfold _streamGemini, _streamAnthropic, _streamOllama,
    _streamOpenAICompatible, decode_stream.
  repeat match goal with
         | |- context [if ?b then _ else _] => destruct b
         end; simpl;
    match goal with
    | |- context [fetch ?r] => destruct (fetch r) as [e|r']
    end;
    try (eexists [], (OnError _); split; reflexivity);
    destruct (ok r'); simpl;
    try (eexists [], (OnError _); split; reflexivity);
    apply read_loop_shape;
    auto using openai_line_well_behaved, anthropic_line_well_behaved,
      gemini_line_well_behaved, ollama_line_well_behaved.
Qed.
End StreamFacts.

(** *** Lines across chunk boundaries *)

Lemma split_nl_nonempty (s : str) : split_nl s <> [].
Proof.
  destruct s as [|c s]; simpl; [discriminate|].
  destruct (is_nl c); [discriminate|].
  destruct (split_nl s); discriminate.
Qed.

Lemma complete_lines_nl (s : str) :
  complete_lines (nl :: s) = [] :: complete_lines s.
Proof.
  unfold complete_lines. change (split_nl (nl :: s)) with ([] :: split_nl s).
  pose proof (split_nl_nonempty s) as H. simpl.
  destruct (split_nl s); [exfalso; apply H; reflexivity | reflexivity].
Qed.

Lemma remainder_nl (s : str) : remainder (nl :: s) = remainder s.
Proof.
  unfold remainder. change (split_nl (nl :: s)) with ([] :: split_nl s).
  pose proof (split_nl_nonempty s) as H. simpl.
  destruct (split_nl s); [exfalso; apply H; reflexivity | reflexivity].
Qed.

Lemma complete_lines_cons (c : char) (s : str) :
  is_nl c = false ->
  complete_lines (c :: s) =
  match complete_lines s with
  | [] => []
  | h :: t => (c :: h) :: t
  end.
Proof.
  intros Hc. unfold complete_lines. simpl. rewrite Hc.
  pose proof (split_nl_nonempty s) as H.
  destruct (split_nl s) as [|h [|h' t]]; simpl;
    [exfalso; apply H; reflexivity | reflexivity..].
Qed.

Lemma remainder_cons (c : char) (s : str) :
  is_nl c = false ->
  remainder (c :: s) =
  match complete_lines s with
  | [] => c :: remainder s
  | _ :: _ => remainder s
  end.
Proof.
  intros Hc. unfold remainder, complete_lines. simpl. rewrite Hc.
  pose proof (split_nl_nonempty s) as H.
  destruct (split_nl s) as [|h [|h' t]]; simpl;
    [exfalso; apply H; reflexivity | reflexivity..].
Qed.

Lemma is_nl_true (c : char) : is_nl c = true -> c = nl.
Proof. unfold is_nl. apply N.eqb_eq. Qed.

(** Splitting a text that arrives in two parts: the lines completed by
    the first part, then the lines of the unfinished line followed by the
    second part. *)
Lemma lines_app (a b : str) :
  complete_lines (a ++ b) =
    complete_lines a ++ complete_lines (remainder a ++ b) /\
  remainder (a ++ b) = remainder (remainder a ++ b).
Proof.
  induction a as [|c a [IHc IHr]]; [split; reflexivity|].
  destruct (is_nl c) eqn:Hc.
  - apply is_nl_true in Hc. subst c. simpl app.
    rewrite !complete_lines_nl, !remainder_nl, IHc, IHr. auto.
  - simpl app. rewrite (@complete_lines_cons c (a ++ b) Hc),
      (@remainder_cons c (a ++ b) Hc), (@complete_lines_cons c a Hc),
      (@remainder_cons c a Hc), IHc, IHr.
    destruct (complete_lines a) as [|h t]; simpl.
    + rewrite (@complete_lines_cons c _ Hc), (@remainder_cons c _ Hc). auto.
    + auto.
Qed.

Lemma complete_lines_remainder (s : str) :
  complete_lines (remainder s) = [].
Proof.
  induction s as [|c s IH]; [reflexivity|].
  destruct (is_nl c) eqn:Hc.
  - apply is_nl_true in Hc. subst c. now rewrite remainder_nl.
  - rewrite (@remainder_cons c s Hc).
    destruct (complete_lines s) eqn:E; [|assumption].
    rewrite (@complete_lines_cons c _ Hc), IH. reflexivity.
Qed.

Section ChunkingFacts.
Variable JSON_parse : str -> option json.
Variable dstate : Type.
Variable dinit : dstate.
Variable decode_byte : dstate -> N -> dstate * str.

Lemma decode_app (a b : list N) :
  forall d,
    decode decode_byte d (a ++ b) =
    let (d1, s1) := decode decode_byte d a in
    let (d2, s2) := decode decode_byte d1 b in
    (d2, s1 ++ s2).
Proof.
  induction a as [|x a IH]; intros d; simpl.
  - destruct (decode decode_byte d b). reflexivity.
  - destruct (decode_byte d x) as [d1 s1]. rewrite IH.
    destruct (decode decode_byte d1 a) as [d2 s2].
    destruct (decode decode_byte d2 b) as [d3 s3].
    now rewrite app_assoc.
Qed.

Lemma for_lines_app (handle : str -> list event * bool) (a b : list str) :
  for_lines handle (a ++ b) =
  let (e1, r1) := for_lines handle a in
  if r1 then (e1, true)
  else let (e2, r2) := for_lines handle b in (e1 ++ e2, r2).
Proof.
  induction a as [|l a IH]; simpl.
  - destruct (for_lines handle b). reflexivity.
  - destruct (handle l) as [ev [|]]; [reflexivity|].
    rewrite IH. destruct (for_lines handle a) as [e1 [|]]; [reflexivity|].
    destruct (for_lines handle b) as [e2 r2]. now rewrite app_assoc.
Qed.

(** What a stream without read errors produces: the events of the
    complete lines of the whole decoded text, whatever the chunking;
    the text after the last newline is never handled. *)
Lemma read_loop_chunks (handle : str -> list event * bool) :
  forall (chunks : list (list N)) (d : dstate) (buffer : str),
    complete_lines buffer = [] ->
    read_loop decode_byte handle (map ReadChunk chunks) d buffer =
    finish
      (for_lines handle
         (complete_lines
            (buffer ++ snd (decode decode_byte d (concat chunks))))).
Proof.
  induction chunks as [|value chunks IH]; intros d buffer Hb; simpl.
  - rewrite app_nil_r, Hb. reflexivity.
  - rewrite decode_app.
    destruct (decode decode_byte d value) as [d' decoded].
    fold (complete_lines (buffer ++ decoded)).
    fold (remainder (buffer ++ decoded)).
    rewrite IH by apply complete_lines_remainder.
    destruct (decode decode_byte d' (concat chunks)) as [d'' more].
    simpl snd. rewrite app_assoc.
    destruct (lines_app (buffer ++ decoded) more) as [-> _].
    rewrite for_lines_app. unfold finish.
    destruct (for_lines handle (complete_lines (buffer ++ decoded)))
      as [e1 [|]]; simpl; [reflexivity|].
    destruct (for_lines handle _) as [e2 [|]]; simpl;
      [reflexivity | now rewrite app_assoc].
Qed.

Lemma decode_stream_chunks (handle : str -> list event * bool)
  (chunks : list (list N)) :
  decode_stream dinit decode_byte handle (map ReadChunk chunks) =
  decode_stream dinit decode_byte handle [ReadChunk (concat chunks)].
Proof.
  unfold decode_stream.
  rewrite (@read_loop_chunks handle chunks dinit [] eq_refl).
  change [ReadChunk (concat chunks)] with (map ReadChunk [concat chunks]).
  rewrite (@read_loop_chunks handle [concat chunks] dinit [] eq_refl).
  simpl concat. now rewrite app_nil_r.
Qed.

(** C5.  For each of the three dialects, a byte stream cut into reads
    at arbitrary offsets yields the same calls, in the same order, as
    the stream read in one piece: the text after the last newline of a
    read waits in the buffer for the next one.  A line whose payload
    fails to parse calls nothing and the loop goes on to the next
    line. *)
Theorem stream_decoding_is_independent_of_chunking :
  forall (chunks : list (list N)),
    (decode_stream dinit decode_byte (openai_line JSON_parse)
       (map ReadChunk chunks) =
     decode_stream dinit decode_byte (openai_line JSON_parse)
       [ReadChunk (concat chunks)]) /\
    (decode_stream dinit decode_byte (anthropic_line JSON_parse)
       (map ReadChunk chunks) =
     decode_stream dinit decode_byte (anthropic_line JSON_parse)
       [ReadChunk (concat chunks)]) /\
    (decode_stream dinit decode_byte (ollama_line JSON_parse)
       (map ReadChunk chunks) =
     decode_stream dinit decode_byte (ollama_line JSON_parse)
       [ReadChunk (concat chunks)]) /\
    (forall line rest,
       JSON_parse (skipn 6 (trim line)) = None ->
       skipn 6 (trim line) <> js "[DONE]" ->
       for_lines (openai_line JSON_parse) (line :: rest) =
       for_lines (openai_line JSON_parse) rest) /\
    (forall line rest,
       JSON_parse (skipn 6 (trim line)) = None ->
       for_lines (anthropic_line JSON_parse) (line :: rest) =
       for_lines (anthropic_line JSON_parse) rest) /\
    (forall line rest,
       JSON_parse line = None ->
       for_lines (ollama_line JSON_parse) (line :: rest) =
       for_lines (ollama_line JSON_parse) rest).
Proof.
  intros chunks.
  repeat (split; [apply decode_stream_chunks|]).
  split; [|split].
  - intros line rest Hp Hd. simpl. unfold openai_line.
    rewrite Hp, (str_eqb_neq Hd).
    destruct (trim line); [|destruct (negb _)];
      simpl; destruct (for_lines _ rest); reflexivity.
  - intros line rest Hp. simpl. unfold anthropic_line. rewrite Hp.
    destruct (trim line); [|destruct (negb _)];
      simpl; destruct (for_lines _ rest); reflexivity.
  - intros line rest Hp. simpl. unfold ollama_line. rewrite Hp.
    destruct (trim line);
      simpl; destruct (for_lines _ rest); reflexivity.
Qed.
End ChunkingFacts.

(** ** The text cleaner *)

(** *** Trimming *)

Lemma dropWhile_app (p : char -> bool) (a b : str) :
  dropWhile p (a ++ b) =
  if forallb p a then dropWhile p b else dropWhile p a ++ b.
Proof.
  induction a as [|c a IH]; simpl; [reflexivity|].
  destruct (p c); simpl; [assumption | reflexivity].
Qed.

Lemma dropWhile_all (p : char -> bool) (a : str) :
  forallb p a = true -> dropWhile p a = [].
Proof.
  induction a as [|c a IH]; simpl; [reflexivity|].
  destruct (p c); simpl; [assumption | discriminate].
Qed.

Lemma trim_cons_space (c : char) (l : str) :
  is_space c = true -> trim (c :: l) = trim l.
Proof. intros H. unfold trim, trimStart. simpl. now rewrite H. Qed.

Lemma trimEnd_snoc_space (c : char) (l : str) :
  is_space c = true -> trimEnd (l ++ [c]) = trimEnd l.
Proof.
  intros H. unfold trimEnd. rewrite rev_app_distr. simpl. now rewrite H.
Qed.

Lemma trim_snoc_space (c : char) (l : str) :
  is_space c = true -> trim (l ++ [c]) = trim l.
Proof.
  intros H. unfold trim, trimStart. rewrite dropWhile_app.
  destruct (forallb is_space l) eqn:E.
  - simpl. rewrite H. now rewrite (dropWhile_all _ _ E).
  - now apply trimEnd_snoc_space.
Qed.

Lemma In_dropWhile (p : char -> bool) (x : char) (s : str) :
  In x (dropWhile p s) -> In x s.
Proof.
  induction s as [|c s IH]; simpl; [auto|].
  destruct (p c); simpl; auto.
Qed.

Lemma In_trim (x : char) (s : str) : In x (trim s) -> In x s.
Proof.
  unfold trim, trimEnd, trimStart. intros H.
  apply in_rev in H. apply In_dropWhile in H. apply in_rev in H.
  now apply In_dropWhile in H.
Qed.

(** *** Lines *)

Lemma split_nl_complete_remainder (s : str) :
  split_nl s = complete_lines s ++ [remainder s].
Proof.
  unfold complete_lines, remainder.
  apply app_removelast_last. apply split_nl_nonempty.
Qed.

Lemma is_nl_space (c : char) : is_nl c = true -> is_space c = true.
Proof. intros H. apply is_nl_true in H. now subst. Qed.

Lemma texts_app (a b : list str) : texts (a ++ b) = texts a ++ texts b.
Proof. unfold texts. now rewrite map_app, filter_app. Qed.

Lemma texts_blank (l : str) (ls : list str) :
  trim l = [] -> texts (l :: ls) = texts ls.
Proof. intros H. unfold texts. simpl. now rewrite H. Qed.

Lemma texts_cons_same (a b : str) (ls ls' : list str) :
  trim a = trim b -> texts ls = texts ls' ->
  texts (a :: ls) = texts (b :: ls').
Proof.
  intros H1 H2. unfold texts in *. simpl. rewrite H1, H2. reflexivity.
Qed.

Lemma split_nl_first_rest (s : str) :
  split_nl s = first_line s :: rest_lines s.
Proof.
  unfold first_line, rest_lines.
  pose proof (split_nl_nonempty s) as H.
  destruct (split_nl s); [exfalso; apply H; reflexivity | reflexivity].
Qed.

Lemma first_line_nl (s : str) : first_line (nl :: s) = [].
Proof. reflexivity. Qed.

Lemma rest_lines_nl (s : str) : rest_lines (nl :: s) = split_nl s.
Proof. reflexivity. Qed.

Lemma first_line_cons (c : char) (s : str) :
  is_nl c = false -> first_line (c :: s) = c :: first_line s.
Proof.
  intros H. unfold first_line. simpl. rewrite H.
  pose proof (split_nl_nonempty s) as Hn.
  destruct (split_nl s); [exfalso; apply Hn; reflexivity | reflexivity].
Qed.

Lemma rest_lines_cons (c : char) (s : str) :
  is_nl c = false -> rest_lines (c :: s) = rest_lines s.
Proof.
  intros H. unfold rest_lines. simpl. rewrite H.
  pose proof (split_nl_nonempty s) as Hn.
  destruct (split_nl s); [exfalso; apply Hn; reflexivity | reflexivity].
Qed.

(** Leading white space does not change what the lines say. *)
Lemma texts_cons_space (c : char) (s : str) :
  is_space c = true ->
  texts (split_nl (c :: s)) = texts (split_nl s).
Proof.
  intros Hc. destruct (is_nl c) eqn:Hn.
  - apply is_nl_true in Hn. subst c.
    change (split_nl (nl :: s)) with ([] :: split_nl s).
    now apply texts_blank.
  - rewrite (split_nl_first_rest (c :: s)), (split_nl_first_rest s),
      (@first_line_cons c s Hn), (@rest_lines_cons c s Hn).
    apply texts_cons_same; [now apply trim_cons_space | reflexivity].
Qed.

Lemma texts_trimStart (s : str) :
  texts (split_nl (trimStart s)) = texts (split_nl s).
Proof.
  unfold trimStart. induction s as [|c s IH]; [reflexivity|].
  simpl dropWhile. destruct (is_space c) eqn:Hc; [|reflexivity].
  rewrite IH. symmetry. now apply texts_cons_space.
Qed.

Lemma nl_free_split (s : str) :
  forallb (fun c => negb (is_nl c)) s = true -> split_nl s = [s].
Proof.
  induction s as [|c s IH]; simpl; [reflexivity|].
  destruct (is_nl c); simpl; [discriminate|].
  intros H. now rewrite (IH H).
Qed.

Lemma remainder_nl_free (s : str) :
  forallb (fun c => negb (is_nl c)) (remainder s) = true.
Proof.
  induction s as [|c s IH]; [reflexivity|].
  destruct (is_nl c) eqn:Hc.
  - apply is_nl_true in Hc. subst c. now rewrite remainder_nl.
  - rewrite (@remainder_cons c s Hc).
    destruct (complete_lines s); [|assumption].
    simpl. now rewrite Hc.
Qed.

(** Trailing white space does not change what the lines say. *)
Lemma texts_snoc_space (c : char) (s : str) :
  is_space c = true ->
  texts (split_nl (s ++ [c])) = texts (split_nl s).
Proof.
  intros Hc.
  rewrite (split_nl_complete_remainder (s ++ [c])),
    (split_nl_complete_remainder s).
  destruct (lines_app s [c]) as [-> ->].
  rewrite <- app_assoc, !texts_app. f_equal.
  rewrite <- texts_app, <- split_nl_complete_remainder.
  destruct (is_nl c) eqn:Hn.
  - apply is_nl_true in Hn. subst c.
    pose proof (remainder_nl_free s) as Hf.
    assert (E : split_nl (remainder s ++ [nl]) = [remainder s; []]).
    { generalize (remainder s) Hf. clear. intros l.
      induction l as [|x l IH]; simpl; [reflexivity|].
      destruct (is_nl x); simpl; [discriminate|].
      intros H. now rewrite (IH H). }
    rewrite E. unfold texts. simpl.
    destruct (trim (remainder s)); reflexivity.
  - rewrite nl_free_split.
    + unfold texts. simpl. now rewrite (@trim_snoc_space c _ Hc).
    + rewrite forallb_app, remainder_nl_free. simpl. now rewrite Hn.
Qed.

Lemma texts_trimEnd (s : str) :
  texts (split_nl (trimEnd s)) = texts (split_nl s).
Proof.
  unfold trimEnd. rewrite <- (rev_involutive s) at 2.
  induction (rev s) as [|c r IH]; [reflexivity|].
  simpl dropWhile. destruct (is_space c) eqn:Hc; [|reflexivity].
  rewrite IH. simpl rev. symmetry. now apply texts_snoc_space.
Qed.

Lemma texts_trim (s : str) :
  texts (split_nl (trim s)) = texts (split_nl s).
Proof. unfold trim. now rewrite texts_trimEnd, texts_trimStart. Qed.

(** *** Global replacement *)

Lemma replace_all_from_none (r : regex) (fn : str -> str) (s : str) :
  match_here r s = None ->
  replace_all_from r fn 0 s =
  match s with
  | [] => []
  | c :: s' => c :: replace_all_from r fn 0 s'
  end.
Proof. intros H. destruct s; simpl; rewrite H; reflexivity. Qed.

Lemma replace_all_from_skip (r : regex) (fn : str -> str) :
  forall n s, n <= length s ->
    replace_all_from r fn n s = replace_all_from r fn 0 (skipn n s).
Proof.
  induction n as [|n IH]; intros s H; [reflexivity|].
  destruct s as [|c s]; simpl in H; [lia|].
  simpl. apply IH. lia.
Qed.

(** A match is replaced and the scan resumes right after it. *)
Lemma replace_all_from_some (r : regex) (fn : str -> str) (s : str)
  (f : found) :
  match_here r s = Some f -> matched f <> [] ->
  replace_all_from r fn 0 s =
  fn (matched f) ++ replace_all_from r fn 0 (rest f).
Proof.
  intros H Hne. pose proof (match_here_sound _ _ H) as [Hs _].
  destruct s as [|c s]; simpl; rewrite H.
  - destruct (matched f); [congruence | discriminate].
  - destruct (matched f) as [|x m] eqn:E; [congruence|].
    simpl in Hs. inversion Hs; subst. simpl. f_equal.
    rewrite replace_all_from_skip by (rewrite length_app; lia).
    now rewrite skipn_app, skipn_all, Nat.sub_diag.
Qed.

Lemma In_replace_all_from (r : regex) (x : char) :
  forall s n,
    In x (replace_all_from r (fun _ => [nl; nl]) n s) ->
    x = nl \/ In x s.
Proof.
  induction s as [|c s IH]; intros n H.
  - destruct n; simpl in H; [|destruct H].
    destruct (match_here r []); simpl in H; intuition auto.
  - destruct n as [|n]; simpl in H.
    + destruct (match_here r (c :: s)) as [f|].
      * destruct (length (matched f)); simpl in H.
        -- destruct H as [H|[H|[H|H]]]; auto; [simpl; auto|].
           apply IH in H. simpl. tauto.
        -- destruct H as [H|[H|H]]; auto.
           apply IH in H. simpl. tauto.
      * destruct H as [H|H]; [simpl; auto|].
        apply IH in H. simpl. tauto.
    + apply IH in H. simpl. tauto.
Qed.

(** *** Collapsing runs of blank lines *)

Lemma blank_run_match (s : str) (f : found) :
  match_here re_blank_run s = Some f ->
  exists w,
    matched f = nl :: nl :: nl :: w /\ forallb is_nl w = true /\
    s = matched f ++ rest f.
Proof.
  intros H. apply match_here_sound in H. destruct H as [Hs D].
  unfold re_blank_run in D. simpl in D.
  destruct D as (w1 & w2 & c1 & c2 & E1 & _ & [-> _] & D).
  destruct D as (w3 & w4 & c3 & c4 & -> & _ & [-> _] & D).
  destruct D as (w5 & w6 & c5 & c6 & -> & _ & [-> _] & [Hw _]).
  exists w6. simpl in E1. auto.
Qed.

Lemma texts_nl_prefix (w x : str) :
  forallb is_nl w = true ->
  texts (split_nl (w ++ x)) = texts (split_nl x).
Proof.
  induction w as [|c w IH]; [reflexivity|].
  intros H. simpl in H. apply andb_true_iff in H. destruct H as [Hc Hw].
  change ((c :: w) ++ x) with (c :: (w ++ x)).
  rewrite texts_cons_space by now apply is_nl_space. auto.
Qed.

Lemma texts_split_from_parts (a b : str) :
  first_line a = first_line b ->
  texts (rest_lines a) = texts (rest_lines b) ->
  texts (split_nl a) = texts (split_nl b).
Proof.
  intros H1 H2. rewrite (split_nl_first_rest a), (split_nl_first_rest b).
  apply texts_cons_same; [now rewrite H1 | assumption].
Qed.

(** Collapsing keeps the first line and what the other lines say. *)
Lemma collapse_lines :
  forall n s, length s <= n ->
    let t := replace_all re_blank_run (fun _ => [nl; nl]) s in
    first_line t = first_line s /\
    texts (rest_lines t) = texts (rest_lines s).
Proof.
  unfold replace_all.
  induction n as [|n IH]; intros s Hlen.
  - destruct s; [|simpl in Hlen; lia]. split; reflexivity.
  - destruct s as [|c s]; [split; reflexivity|].
    destruct (match_here re_blank_run (c :: s)) as [f|] eqn:Hm.
    + destruct (@blank_run_match _ _ Hm) as (w & Ew & Hw & Hs).
      rewrite (@replace_all_from_some _ (fun _ => [nl; nl]) _ _ Hm)
        by (rewrite Ew; discriminate).
      rewrite Hs, Ew. simpl app.
      assert (Hr : length (rest f) <= n).
      { rewrite Hs, Ew in Hlen. simpl in Hlen.
        rewrite length_app in Hlen. lia. }
      destruct (IH (rest f) Hr) as [IH1 IH2].
      split; [reflexivity|].
      rewrite !rest_lines_nl.
      rewrite (@texts_nl_prefix [nl] _ eq_refl : texts (split_nl (nl :: _)) = _).
      rewrite (@texts_nl_prefix (nl :: nl :: w) (rest f) Hw
               : texts (split_nl (nl :: nl :: w ++ rest f)) = _).
      now apply texts_split_from_parts.
    + rewrite (@replace_all_from_none _ (fun _ => [nl; nl]) _ Hm).
      assert (Hr : length s <= n) by (simpl in Hlen; lia).
      destruct (IH s Hr) as [IH1 IH2].
      destruct (is_nl c) eqn:Hc.
      * apply is_nl_true in Hc. subst c.
        rewrite !first_line_nl, !rest_lines_nl. split; [reflexivity|].
        now apply texts_split_from_parts.
      * rewrite !(@first_line_cons c _ Hc), !(@rest_lines_cons c _ Hc).
        split; [now rewrite IH1 | assumption].
Qed.

Lemma texts_collapse (s : str) :
  texts (split_nl (replace_all re_blank_run (fun _ => [nl; nl]) s)) =
  texts (split_nl s).
Proof.
  destruct (@collapse_lines (length s) s (le_n _)) as [H1 H2].
  now apply texts_split_from_parts.
Qed.

(** *** Joining lines *)

Lemma split_nl_lines_nl_free (s : str) :
  Forall (fun l => forallb (fun c => negb (is_nl c)) l = true) (split_nl s).
Proof.
  induction s as [|c s IH]; simpl; [repeat constructor|].
  destruct (is_nl c) eqn:Hc; [constructor; auto|].
  destruct (split_nl s) as [|h t]; [repeat constructor; simpl; now rewrite Hc|].
  inversion IH; subst. constructor; [simpl; now rewrite Hc | assumption].
Qed.

Lemma split_nl_app_nl (l x : str) :
  forallb (fun c => negb (is_nl c)) l = true ->
  split_nl (l ++ nl :: x) = l :: split_nl x.
Proof.
  induction l as [|c l IH]; simpl; [reflexivity|].
  destruct (is_nl c); simpl; [discriminate|].
  intros H. now rewrite (IH H).
Qed.

Lemma split_join (ls : list str) :
  ls <> [] ->
  Forall (fun l => forallb (fun c => negb (is_nl c)) l = true) ls ->
  split_nl (join_nl ls) = ls.
Proof.
  induction ls as [|l ls IH]; intros Hne HF; [congruence|].
  inversion HF as [|? ? Hl HF']; subst.
  destruct ls as [|l2 ls].
  - simpl. now apply nl_free_split.
  - change (join_nl (l :: l2 :: ls)) with (l ++ nl :: join_nl (l2 :: ls)).
    rewrite split_nl_app_nl by assumption.
    rewrite IH; [reflexivity | discriminate | assumption].
Qed.

Lemma texts_join (ls : list str) :
  Forall (fun l => forallb (fun c => negb (is_nl c)) l = true) ls ->
  texts (split_nl (join_nl ls)) = texts ls.
Proof.
  intros HF. destruct ls as [|l ls]; [reflexivity|].
  rewrite split_join; [reflexivity | discriminate | assumption].
Qed.

Lemma In_split_nl (x : char) :
  forall s l, In l (split_nl s) -> In x l -> In x s.
Proof.
  induction s as [|c s IH]; simpl; intros l Hl Hx.
  - destruct Hl as [<-|[]]. assumption.
  - destruct (is_nl c).
    + destruct Hl as [<-|Hl]; [destruct Hx | right; eauto].
    + destruct (split_nl s) as [|h t].
      * destruct Hl as [<-|[]]. destruct Hx as [Hx|[]]. now left.
      * destruct Hl as [<-|Hl].
        -- destruct Hx as [Hx|Hx]; [now left | right].
           apply (IH h); simpl; auto.
        -- right. apply (IH l); simpl; auto.
Qed.

Lemma In_join_nl (x : char) :
  forall ls, In x (join_nl ls) ->
    x = nl \/ exists l, In l ls /\ In x l.
Proof.
  induction ls as [|l ls IH]; intros H; [destruct H|].
  destruct ls as [|l2 ls].
  - right. exists l. simpl in *. auto.
  - change (join_nl (l :: l2 :: ls)) with (l ++ nl :: join_nl (l2 :: ls))
      in H.
    apply in_app_or in H. destruct H as [H|[H|H]].
    + right. exists l. simpl. auto.
    + left. auto.
    + destruct (IH H) as [E|(l' & Hl' & Hx)]; [auto|].
      right. exists l'. split; [right; assumption | assumption].
Qed.

(** The cleaner adds no code unit but newlines. *)
Lemma In_cleanMessageText (x : char) (text : str) :
  In x (cleanMessageText text) -> x = nl \/ In x text.
Proof.
  unfold cleanMessageText, replace_all. intros H.
  apply In_trim in H. apply In_replace_all_from in H.
  destruct H as [H|H]; [auto|].
  apply In_join_nl in H. destruct H as [H|(l & Hl & Hx)]; [auto|].
  apply filter_In in Hl. destruct Hl as [Hl _].
  right. eapply In_split_nl; eauto.
Qed.

(** The cleaned text says what the kept lines say. *)
Lemma texts_cleanMessageText (text : str) :
  texts (split_nl (cleanMessageText text)) =
  texts (filter keep_line (split_nl text)).
Proof.
  unfold cleanMessageText.
  rewrite texts_trim, texts_collapse, texts_join; [reflexivity|].
  apply incl_Forall with (l1 := split_nl text).
  - intros l Hl. apply filter_In in Hl. tauto.
  - apply split_nl_lines_nl_free.
Qed.

(** *** Text without fences *)

Lemma fence_block_no_match (s : str) :
  ~ In bt s -> match_here re_fence_block s = None.
Proof.
  destruct s as [|c s]; [reflexivity|].
  intros H. unfold match_here, re_fence_block, lit. simpl.
  destruct (N.eqb_spec c 96); [|reflexivity].
  exfalso. apply H. left. assumption.
Qed.

Lemma replace_all_no_fence (s : str) :
  ~ In bt s -> replace_all re_fence_block unfence s = s.
Proof.
  unfold replace_all. induction s as [|c s IH]; intros H.
  - reflexivity.
  - rewrite replace_all_from_none by now apply fence_block_no_match.
    f_equal. apply IH. intros Hin. apply H. now right.
Qed.

Lemma flat_map_nil (A B : Type) (f : A -> list B) (l : list A) :
  (forall x, In x l -> f x = []) -> flat_map f l = [].
Proof.
  induction l as [|x l IH]; simpl; intros H; [reflexivity|].
  rewrite (H x) by auto. apply IH. auto.
Qed.

Lemma parse_line_blank (l : str) : trim l = [] -> parse_line l = None.
Proof. intros H. unfold parse_line. now rewrite H. Qed.

Lemma parse_line_trim (a b : str) :
  trim a = trim b -> parse_line a = parse_line b.
Proof. intros H. rewrite !parse_line_first_match. now rewrite H. Qed.

(** C2, as the specification states it, fails: a call embedded in prose
    survives the cleaning and is parsed afterwards; and so does a call
    that only appears once the parser has removed fence markers. *)
Lemma parse_of_cleaned_text_counterexample :
  parseCommands (cleanMessageText (js "Now CLICK(10, 20) please")) =
    [Click 10 20] /\
  parseCommands
    (cleanMessageText (js "x CLICK(1, ```" ++ [nl] ++ js "2)```")) =
    [Click 1 2].
Proof. split; vm_compute; reflexivity. Qed.

Lemma stream_decoding_is_independent_of_chunking_witness :
  let lines := [js "data: {oops"; js "data: [DONE]"] in
  for_lines (openai_line scenario_parse) lines =
  for_lines (openai_line scenario_parse) (tl lines) /\
  for_lines (ollama_line scenario_parse) lines =
  for_lines (ollama_line scenario_parse) (tl lines).
Proof.
  intros lines.
  destruct (@stream_decoding_is_independent_of_chunking scenario_parse
              unit tt ascii_decoder []) as (_ & _ & _ & Ho & _ & Hl).
  split.
  - apply Ho; vm_compute; [reflexivity | discriminate].
  - apply Hl. vm_compute. reflexivity.
Defined.

(** ** Worked examples *)

(** The literal inputs of the specification. *)
Example parse_click_element :
  parseCommands (js "CLICK_ELEMENT(" ++ q "button.submit" ++ js ")") =
  [ClickElement (js "button.submit")].
Proof. vm_compute. reflexivity. Qed.

Example parse_fill :
  parseCommands
    (js "FILL(" ++ q "#email" ++ js ", " ++ q "a@b.com" ++ js ")") =
  [Fill (js "#email") (js "a@b.com")].
Proof. vm_compute. reflexivity. Qed.

Example parse_scroll : parseCommands (js "SCROLL(-300)") = [Scroll (-300)].
Proof. vm_compute. reflexivity. Qed.

Example parse_prose : parseCommands (js "Let's click the button now") = [].
Proof. vm_compute. reflexivity. Qed.

Example parse_fenced :
  parseCommands
    (js "Plan:" ++ [nl] ++ js "```" ++ [nl] ++ js "WAIT(500)" ++ [nl] ++
     js "```" ++ [nl] ++ js "NAVIGATE(" ++ q "https://example.org" ++
     js ")") =
  [Wait 500; Navigate (js "https://example.org")].
Proof. vm_compute. reflexivity. Qed.

Example clean_strips_command_lines :
  cleanMessageText
    (js "Sure." ++ [nl] ++ js "CLICK(1, 2)" ++ [nl] ++ [nl] ++ [nl] ++
     [nl] ++ js "Done." ++ [nl]) =
  js "Sure." ++ [nl; nl] ++ js "Done.".
Proof. vm_compute. reflexivity. Qed.

(** The streamed scenario of the specification, read in one piece and cut
    in the middle of a line. *)
Example stream_scenario :
  let stream :=
    bytes (delta_line "A" ++ [nl] ++ delta_line "B" ++ [nl] ++
           js "data: [DONE]" ++ [nl]) in
  decode_stream tt ascii_decoder (openai_line scenario_parse)
    [ReadChunk stream] =
    [OnChunk (Some (JStr (js "A"))); OnChunk (Some (JStr (js "B"))); OnDone]
  /\
  decode_stream tt ascii_decoder (openai_line scenario_parse)
    [ReadChunk (firstn 50 stream); ReadChunk (skipn 50 stream)] =
    [OnChunk (Some (JStr (js "A"))); OnChunk (Some (JStr (js "B"))); OnDone].
Proof. split; vm_compute; reflexivity. Qed.

Example run_with_a_failing_step :
  let invoke := fun (i : nat) (_ : command) =>
                  match i with
                  | 0 => Executor.Returns (Some (js "Element not found"))
                  | _ => Executor.Returns None
                  end in
  map Executor.st_status
    (Executor.steps
       (Executor.executeAutomationCommands invoke (fun n => Z.of_nat n)
          [ClickElement (js "#go"); Wait 10])) =
  [Executor.error; Executor.done].
Proof. vm_compute. reflexivity. Qed.

(* ================================================================== *)
(** * Part III. Further properties of the code *)
(* ================================================================== *)

(** ** The parser: numbers, lines, order *)

Lemma digits_value_nonneg (s : str) :
  forallb is_digit s = true -> (0 <= digits_value s)%Z.
Proof.
  unfold digits_value.
  assert (G : forall acc, (0 <= acc)%Z -> forallb is_digit s = true ->
              (0 <= fold_left (fun a c => 10 * a + (Z.of_N c - 48)) s acc)%Z).
  { induction s as [|c s IH]; intros acc Ha H; [assumption|].
    cbn [forallb] in H. cbn [fold_left].
    apply andb_true_iff in H. destruct H as [Hc Hs].
    apply IH; [|assumption].
    unfold is_digit in Hc. apply andb_true_iff in Hc.
    destruct Hc as [H1 H2]. apply N.leb_le in H1. lia. }
  intros H. apply G; [lia | assumption].
Qed.

Lemma shiftl_pow (m e : Z) : (0 <= e)%Z -> Z.shiftl m e = (m * 2 ^ e)%Z.
Proof. intros H. now apply Z.shiftl_mul_pow2. Qed.

(** A significand of 53 bits times a power of two is a double. *)
Lemma round_double_scaled (m e : Z) :
  (0 <= e)%Z -> (2 ^ 52 <= m < 2 ^ 53)%Z ->
  (Z.shiftl 1 1024 <=? Z.shiftl m e)%Z = false ->
  round_double (Z.shiftl m e) = Finite (Z.shiftl m e).
Proof.
  intros He Hm Hbig.
  assert (Hp : (0 < 2 ^ e)%Z) by (apply Z.pow_pos_nonneg; lia).
  assert (Hv : Z.shiftl m e = (m * 2 ^ e)%Z) by now apply shiftl_pow.
  assert (Hlog : Z.log2 (Z.shiftl m e) = (52 + e)%Z).
  { apply Z.log2_unique; [lia|]. rewrite Hv.
    replace (Z.succ (52 + e)) with (53 + e)%Z by lia.
    rewrite !Z.pow_add_r by lia. nia. }
  unfold round_double. rewrite Hlog.
  destruct (Z.eq_dec e 0) as [->|Hne].
  - reflexivity.
  - replace (52 + e + 1 <=? 53)%Z with false by (symmetry; apply Z.leb_gt; lia).
    replace (52 + e + 1 - 53)%Z with e by lia.
    assert (Hq : Z.shiftr (Z.shiftl m e) e = m).
    { rewrite Z.shiftr_shiftl_l by lia. now rewrite Z.sub_diag. }
    assert (Hr : Z.land (Z.shiftl m e) (Z.ones e) = 0%Z).
    { rewrite Z.land_ones by lia. rewrite Hv. apply Z.mod_mul. lia. }
    assert (Hh : (0 < Z.shiftl 1 (e - 1))%Z).
    { rewrite shiftl_pow by lia. rewrite Z.mul_1_l.
      apply Z.pow_pos_nonneg; lia. }
    rewrite Hq, Hr.
    replace (Z.shiftl 1 (e - 1) <? 0)%Z with false
      by (symmetry; apply Z.ltb_ge; lia).
    replace (0 =? Z.shiftl 1 (e - 1))%Z with false
      by (symmetry; apply Z.eqb_neq; lia).
    cbn [orb andb]. now rewrite Hbig.
Qed.

Lemma round_double_not_negative (z : Z) :
  (0 <= z)%Z ->
  match round_double z with
  | Finite v => (0 <= v)%Z /\ round_double v = Finite v
  | Infinity => True
  | NegInfinity => False
  end.
Proof.
  intros Hz. unfold round_double at 1.
  destruct (Z.log2 z + 1 <=? 53)%Z eqn:Eb.
  - split; [assumption|]. unfold round_double. now rewrite Eb.
  - apply Z.leb_gt in Eb.
    assert (Hpos : (0 < z)%Z).
    { destruct (Z.eq_dec z 0) as [->|]; [simpl in Eb; lia | lia]. }
    destruct (Z.log2_spec z Hpos) as [Hlo Hhi].
    set (b := Z.log2 z) in *.
    set (e := (b + 1 - 53)%Z).
    assert (He : (1 <= e)%Z) by (unfold e; lia).
    assert (Hp : (0 < 2 ^ e)%Z) by (apply Z.pow_pos_nonneg; lia).
    set (q := Z.shiftr z e).
    assert (Hq : (2 ^ 52 <= q < 2 ^ 53)%Z).
    { unfold q. rewrite Z.shiftr_div_pow2 by lia.
      replace b with (52 + e)%Z in Hlo by (unfold e; lia).
      replace (Z.succ b) with (53 + e)%Z in Hhi by (unfold e; lia).
      rewrite Z.pow_add_r in Hlo, Hhi by lia.
      split.
      - apply Z.div_le_lower_bound; lia.
      - apply Z.div_lt_upper_bound; lia. }
    match goal with
    | |- context [if ?c then (q + 1)%Z else q] =>
        set (q' := if c then (q + 1)%Z else q)
    end.
    assert (Hq' : (2 ^ 52 <= q' <= 2 ^ 53)%Z).
    { unfold q'. match goal with |- context [if ?c then _ else _] =>
                   destruct c end; lia. }
    destruct (Z.shiftl 1 1024 <=? Z.shiftl q' e)%Z eqn:Ebig; [exact I|].
    split.
    + rewrite shiftl_pow by lia. nia.
    + destruct (Z.eq_dec q' (2 ^ 53)) as [E|E].
      * assert (Es : Z.shiftl q' e = Z.shiftl (2 ^ 52) (e + 1)).
        { rewrite !shiftl_pow by lia. rewrite E, Z.pow_add_r by lia.
          change (2 ^ 53)%Z with (2 ^ 52 * 2 ^ 1)%Z. ring. }
        rewrite Es in *. apply round_double_scaled; [lia | | assumption].
        change (2 ^ 53)%Z with (2 ^ 52 * 2)%Z. lia.
      * apply round_double_scaled; [lia | lia | assumption].
Qed.

Lemma round_double_shape (z : Z) :
  (0 <= z)%Z -> not_negative (round_double z).
Proof.
  intros Hz. pose proof (round_double_not_negative Hz) as H.
  unfold not_negative. destruct (round_double z); assumption.
Qed.

Lemma to_number_digits (x : char) (w : str) :
  is_digit x = true -> forallb is_digit w = true ->
  not_negative (to_number (x :: w)).
Proof.
  intros Hx Hw.
  assert (E : to_number (x :: w) = round_double (digits_value (x :: w))).
  { unfold is_digit in Hx. apply andb_true_iff in Hx.
    destruct Hx as [H1 H2]. apply N.leb_le in H1, H2.
    assert (D : (x = 48 \/ x = 49 \/ x = 50 \/ x = 51 \/ x = 52 \/
                 x = 53 \/ x = 54 \/ x = 55 \/ x = 56 \/ x = 57)%N) by lia.
    repeat (destruct D as [->|D]; [reflexivity|]). subst. reflexivity. }
  rewrite E. apply round_double_shape, digits_value_nonneg.
  simpl. now rewrite Hx, Hw.
Qed.

Lemma click_captures (s : str) (m : found) :
  jsmatch re_click s = Some m ->
  not_negative (to_number (m1 m)) /\ not_negative (to_number (m2 m)).
Proof.
  unfold jsmatch. intros H.
  destruct (exec re_click s) as [[pre f]|] eqn:He; [|discriminate].
  simpl in H. inversion H; subst f. apply exec_sound in He.
  destruct He as [_ D]. unfold re_click, Plus in D. simpl in D.
  break_den. subst. unfold m1, m2.
  match goal with H : groups m = _ |- _ => rewrite H end.
  cbn [nth app].
  split; apply to_number_digits; assumption.
Qed.

Lemma wait_captures (s : str) (m : found) :
  jsmatch re_wait s = Some m -> not_negative (to_number (m1 m)).
Proof.
  unfold jsmatch. intros H.
  destruct (exec re_wait s) as [[pre f]|] eqn:He; [|discriminate].
  simpl in H. inversion H; subst f. apply exec_sound in He.
  destruct He as [_ D]. unfold re_wait, Plus in D. simpl in D.
  break_den. subst. unfold m1.
  match goal with H : groups m = _ |- _ => rewrite H end.
  cbn [nth app].
  apply to_number_digits; assumption.
Qed.

Lemma unsigned_args_nonneg (text : str) (c : command) (n : number) :
  In c (parseCommands text) -> In n (unsigned_args c) -> not_negative n.
Proof.
  revert text c n.
  intros text c n Hc Hn.
  rewrite parseCommands_lines in Hc.
  apply in_flat_map in Hc. destruct Hc as (line & _ & Hc).
  destruct (parse_line line) as [c'|] eqn:Hp; [|destruct Hc].
  destruct Hc as [<-|[]].
  rewrite parse_line_first_match in Hp.
  apply first_match_inv in Hp. destruct Hp as (p & m & Hin & Hm & ->).
  cbn [patterns_in_source_order In] in Hin.
  repeat (destruct Hin as [<-|Hin];
          [cbn [fst snd unsigned_args In] in *; try tauto|]);
    try destruct Hin.
  - destruct (click_captures _ Hm) as [H1 H2].
    destruct Hn as [<-|[<-|[]]]; assumption.
  - pose proof (wait_captures _ Hm) as H1.
    destruct Hn as [<-|[]]; assumption.
Qed.



(** The arguments are doubles, as [+m[1]] makes them: past 2^53 the
    digits are rounded to the nearest double, past the largest double
    they give Infinity, and the step description shows the number as a
    template literal does. *)
Lemma parsed_numbers_are_doubles :
  parseCommands (js "WAIT(9007199254740993)") =
    [Wait 9007199254740992] /\
  parseCommands (js "WAIT(" ++ repeat 57%N 400 ++ js ")") =
    [Wait Infinity] /\
  parseCommands (js "SCROLL(-" ++ repeat 57%N 400 ++ js ")") =
    [Scroll NegInfinity] /\
  Executor.describeCommand (Wait Infinity) = js "Wait Infinityms" /\
  Executor.describeCommand (Scroll NegInfinity) =
    js "Scroll up Infinitypx" /\
  Executor.describeCommand
    (Wait (to_number (js "100000000000000000000000"))) =
    js "Wait 1e+23ms".
Proof. vm_compute. auto 7. Qed.

Lemma split_nl_app_newline (a b : str) :
  split_nl (a ++ nl :: b) = split_nl a ++ split_nl b.
Proof.
  induction a as [|c a IH]; [reflexivity|].
  change ((c :: a) ++ nl :: b) with (c :: (a ++ nl :: b)).
  cbn [split_nl]. rewrite IH.
  destruct (is_nl c); [reflexivity|].
  pose proof (split_nl_nonempty a) as H.
  destruct (split_nl a); [exfalso; apply H; reflexivity | reflexivity].
Qed.

(** X2.  Parsing respects the order of the lines: for texts without
    backticks, the commands of one text followed by a newline and another
    text are the commands of the first followed by those of the second. *)
Theorem parseCommands_of_consecutive_texts :
  forall a b,
    ~ In bt a -> ~ In bt b ->
    parseCommands (a ++ nl :: b) = parseCommands a ++ parseCommands b.
Proof.
  intros a b Ha Hb.
  rewrite !parseCommands_lines, !replace_all_no_fence; try assumption.
  - rewrite split_nl_app_newline. apply flat_map_app.
  - intros H. apply in_app_or in H.
    destruct H as [H|[H|H]]; [tauto | discriminate | tauto].
Qed.

Lemma parseCommands_of_consecutive_texts_witness :
  parseCommands (js "WAIT(5)" ++ nl :: js "then SCROLL(-40)") =
  parseCommands (js "WAIT(5)") ++ parseCommands (js "then SCROLL(-40)").
Proof.
  apply parseCommands_of_consecutive_texts; vm_compute; intuition discriminate.
Defined.

Lemma emit_parse_line_length (ls : list str) :
  length (flat_map (fun line => emit (parse_line line)) ls) <=
  length (texts ls).
Proof.
  induction ls as [|l ls IH]; [apply le_n|].
  cbn [flat_map]. rewrite length_app.
  unfold texts in *. cbn [map filter].
  destruct (trim l) eqn:E.
  - rewrite (@parse_line_blank _ E). simpl. assumption.
  - cbn [nonblank]. destruct (parse_line l); simpl; lia.
Qed.

(** X3.  A line yields at most one command, however many calls it
    holds: a text without backticks never yields more commands than it
    has non-blank lines. *)
Theorem parseCommands_at_most_one_per_line :
  forall text,
    ~ In bt text ->
    length (parseCommands text) <= length (texts (split_nl text)).
Proof.
  intros text H.
  rewrite parseCommands_lines, replace_all_no_fence by assumption.
  apply emit_parse_line_length.
Qed.

Lemma parseCommands_at_most_one_per_line_witness :
  length (parseCommands (js "WAIT(5) SCROLL(7) WAIT(9)")) <= 1.
Proof.
  apply (@parseCommands_at_most_one_per_line
           (js "WAIT(5) SCROLL(7) WAIT(9)")).
  vm_compute. intuition discriminate.
Defined.

(** ** The cleaner: what it removes and what it leaves *)

Lemma keep_line_trim (a b : str) :
  trim a = trim b -> keep_line a = keep_line b.
Proof. intros H. unfold keep_line. now rewrite H. Qed.

(** X4.  No line of a cleaned text begins, once trimmed, with a command
    signature: every command line is gone from what the reader sees. *)
Theorem cleaned_text_has_no_command_line :
  forall text l,
    In l (split_nl (cleanMessageText text)) -> keep_line l = true.
Proof.
  intros text l Hl.
  destruct (trim l) as [|c t] eqn:E.
  { unfold keep_line. rewrite E. reflexivity. }
  assert (Hin : In (trim l) (texts (split_nl (cleanMessageText text)))).
  { unfold texts. apply filter_In. split; [now apply in_map|].
    rewrite E. reflexivity. }
  rewrite texts_cleanMessageText in Hin.
  unfold texts in Hin. apply filter_In in Hin. destruct Hin as [Hin _].
  apply in_map_iff in Hin. destruct Hin as (l' & Ht & Hl').
  apply filter_In in Hl'. destruct Hl' as [_ Hk].
  now rewrite <- (@keep_line_trim _ _ Ht).
Qed.

Lemma cleaned_text_has_no_command_line_witness :
  keep_line (js "Now CLICK(10, 20) please") = true.
Proof.
  apply (@cleaned_text_has_no_command_line
           (js "FILL(" ++ q "#a" ++ js ", " ++ q "b" ++ js ")" ++ nl ::
            js "Now CLICK(10, 20) please")).
  vm_compute. auto.
Defined.

Lemma join_split (s : str) : join_nl (split_nl s) = s.
Proof.
  induction s as [|c s IH]; [reflexivity|].
  cbn [split_nl]. pose proof (split_nl_nonempty s) as H.
  destruct (split_nl s) as [|h t]; [exfalso; apply H; reflexivity|].
  destruct (is_nl c) eqn:Hc.
  - apply is_nl_true in Hc. subst c.
    change (join_nl ([] :: h :: t)) with ([] ++ nl :: join_nl (h :: t)).
    now rewrite IH.
  - destruct t as [|h' t]; simpl in *; now rewrite <- IH.
Qed.

Lemma filter_all (A : Type) (f : A -> bool) (l : list A) :
  (forall x, In x l -> f x = true) -> filter f l = l.
Proof.
  induction l as [|x l IH]; simpl; intros H; [reflexivity|].
  rewrite (H x) by auto. f_equal. apply IH. auto.
Qed.

Lemma blank_run_no_match (s : str) :
  startsWith blank_run s = false -> match_here re_blank_run s = None.
Proof.
  unfold blank_run, match_here, re_blank_run.
  destruct s as [|a [|b [|c s]]]; simpl;
    intros H; try reflexivity;
    change (a =? 10)%N with (a =? nl)%N;
    destruct (N.eqb_spec a nl); try reflexivity; subst;
    try (change (b =? 10)%N with (b =? nl)%N;
         destruct (N.eqb_spec b nl); try reflexivity; subst);
    try (change (c =? 10)%N with (c =? nl)%N;
         destruct (N.eqb_spec c nl); try reflexivity; subst);
    simpl in H; try discriminate.
Qed.

Lemma collapse_no_blank_run (s : str) :
  includes blank_run s = false ->
  replace_all re_blank_run (fun _ => [nl; nl]) s = s.
Proof.
  unfold replace_all. induction s as [|c s IH]; intros H.
  - reflexivity.
  - cbn [includes] in H. apply orb_false_iff in H. destruct H as [H1 H2].
    rewrite replace_all_from_none by now apply blank_run_no_match.
    f_equal. now apply IH.
Qed.

(** X5.  The cleaner leaves prose alone: a text that is already trimmed,
    has no line beginning with a command signature and no run of three
    newlines comes back unchanged. *)
Theorem cleanMessageText_leaves_prose_unchanged :
  forall text,
    (forall l, In l (split_nl text) -> keep_line l = true) ->
    includes blank_run text = false ->
    trim text = text ->
    cleanMessageText text = text.
Proof.
  intros text Hk Hr Ht. unfold cleanMessageText.
  rewrite (filter_all _ _ Hk), join_split, collapse_no_blank_run
    by assumption.
  assumption.
Qed.

Lemma cleanMessageText_leaves_prose_unchanged_witness :
  let text := js "I will CLICK(3, 4) for you." ++ [nl; nl] ++ js "Done." in
  cleanMessageText text = text.
Proof.
  intros text. apply cleanMessageText_leaves_prose_unchanged.
  - intros l Hl. vm_compute in Hl.
    destruct Hl as [<-|[<-|[<-|[]]]]; vm_compute; reflexivity.
  - vm_compute. reflexivity.
  - vm_compute. reflexivity.
Defined.

(** *** Cleaning twice *)

Lemma star_greedy_total (A : Type) (p : char -> bool) (k : str -> option A) :
  (forall x, k x <> None) ->
  forall t, star_greedy p k t = k (dropWhile p t).
Proof.
  intros Hk. induction t as [|c t IH]; simpl; [reflexivity|].
  destruct (p c); [|reflexivity].
  rewrite IH. unfold orElse.
  destruct (k (dropWhile p t)) eqn:E; [reflexivity|].
  exfalso. exact (Hk _ E).
Qed.

Lemma dropWhile_head (p : char -> bool) (s : str) (c : char) (t : str) :
  dropWhile p s = c :: t -> p c = false.
Proof.
  induction s as [|x s IH]; simpl; [discriminate|].
  destruct (p x) eqn:E; [assumption|].
  intros H. inversion H; subst. assumption.
Qed.

(** A match of a run of newlines takes the whole run. *)
Lemma blank_run_match_all (t : str) :
  exists f,
    match_here re_blank_run (nl :: nl :: nl :: t) = Some f /\
    rest f = dropWhile is_nl t.
Proof.
  unfold match_here, re_blank_run. cbn [rmatch].
  change (nl =? nl)%N with true. cbv iota.
  rewrite star_greedy_total by discriminate.
  eexists. split; reflexivity.
Qed.

Lemma startsWith_blank_run (s : str) :
  startsWith blank_run s = true -> exists t, s = nl :: nl :: nl :: t.
Proof.
  unfold blank_run.
  destruct s as [|a [|b [|c s]]]; cbn [startsWith];
    rewrite ?andb_false_r; try discriminate.
  rewrite andb_true_r. intros H.
  apply andb_true_iff in H. destruct H as [Ha H].
  apply andb_true_iff in H. destruct H as [Hb Hc].
  apply N.eqb_eq in Ha, Hb, Hc. subst. eauto.
Qed.

Lemma startsWith_nl (s : str) :
  startsWith [nl] s = true -> exists t, s = nl :: t.
Proof.
  destruct s as [|a s]; cbn [startsWith]; [discriminate|].
  rewrite andb_true_r. intros H. apply N.eqb_eq in H. subst. eauto.
Qed.

(** After collapsing there is no run of three newlines left, and the
    result begins with no more newlines than the text did. *)
Lemma collapse_invariant :
  forall n s, length s <= n ->
    let t := replace_all re_blank_run (fun _ => [nl; nl]) s in
    includes blank_run t = false /\
    (startsWith [nl] t = true -> startsWith [nl] s = true) /\
    (startsWith [nl; nl] t = true -> startsWith [nl; nl] s = true).
Proof.
  unfold replace_all.
  induction n as [|n IH]; intros s Hlen.
  - destruct s; [|simpl in Hlen; lia]. repeat split; auto.
  - destruct s as [|c s]; [repeat split; auto|].
    destruct (startsWith blank_run (c :: s)) eqn:Hsw.
    + destruct (startsWith_blank_run _ Hsw) as [t Et]. rewrite Et.
      destruct (blank_run_match_all t) as (f & Hm & Hr).
      assert (Hne : matched f <> []).
      { destruct (@blank_run_match _ _ Hm) as (w & -> & _). discriminate. }
      rewrite (@replace_all_from_some _ (fun _ => [nl; nl]) _ _ Hm Hne).
      assert (Hlen' : length (rest f) <= n).
      { destruct (@blank_run_match _ _ Hm) as (w & Ew & _ & Hs).
        rewrite Et in Hlen. rewrite Hs, Ew in Hlen. simpl in Hlen.
        rewrite length_app in Hlen. lia. }
      destruct (IH (rest f) Hlen') as (I1 & I2 & I3).
      set (X := replace_all_from re_blank_run (fun _ => [nl; nl]) 0 (rest f))
        in *.
      assert (HX : startsWith [nl] X = false).
      { apply not_true_is_false. intros E.
        apply I2 in E. apply startsWith_nl in E. destruct E as [t' E].
        rewrite Hr in E. apply dropWhile_head in E. discriminate. }
      assert (HX2 : startsWith [nl; nl] X = false).
      { destruct X as [|x X']; [reflexivity|].
        simpl in HX |- *. rewrite andb_true_r in HX. now rewrite HX. }
      simpl app. repeat split; try reflexivity.
      cbn [includes]. rewrite I1.
      change (startsWith blank_run (nl :: nl :: X)) with
        ((nl =? nl)%N && ((nl =? nl)%N && startsWith [nl] X)).
      change (startsWith blank_run (nl :: X)) with
        ((nl =? nl)%N && startsWith [nl; nl] X).
      rewrite HX, HX2. reflexivity.
    + rewrite (@replace_all_from_none _ (fun _ => [nl; nl]) _
                 (blank_run_no_match _ Hsw)).
      assert (Hlen' : length s <= n) by (simpl in Hlen; lia).
      destruct (IH s Hlen') as (I1 & I2 & I3).
      set (X := replace_all_from re_blank_run (fun _ => [nl; nl]) 0 s) in *.
      destruct (N.eqb_spec c nl) as [->|Hc].
      * split; [|split].
        -- cbn [includes]. rewrite I1, orb_false_r.
           change (startsWith blank_run (nl :: X)) with
             ((nl =? nl)%N && startsWith [nl; nl] X).
           apply not_true_is_false. intros E.
           change ((nl =? nl)%N) with true in E. cbn [andb] in E.
           apply I3 in E.
           change (startsWith blank_run (nl :: s)) with
             ((nl =? nl)%N && startsWith [nl; nl] s) in Hsw.
           rewrite E in Hsw. discriminate.
        -- reflexivity.
        -- intros E.
           change (startsWith [nl; nl] (nl :: X)) with
             ((nl =? nl)%N && startsWith [nl] X) in E.
           change (startsWith [nl; nl] (nl :: s)) with
             ((nl =? nl)%N && startsWith [nl] s).
           simpl in E |- *. auto.
      * apply N.eqb_neq in Hc. rewrite N.eqb_sym in Hc.
        split; [|split].
        -- cbn [includes]. rewrite I1, orb_false_r.
           unfold blank_run. cbn [startsWith]. now rewrite Hc.
        -- cbn [startsWith]. rewrite Hc. discriminate.
        -- cbn [startsWith]. rewrite Hc. discriminate.
Qed.

Lemma startsWith_app_l (p a b : str) :
  startsWith p a = true -> startsWith p (a ++ b) = true.
Proof.
  revert a. induction p as [|x p IH]; intros a H; [reflexivity|].
  destruct a as [|y a]; simpl in *; [discriminate|].
  apply andb_true_iff in H. destruct H as [H1 H2].
  now rewrite H1, (IH _ H2).
Qed.

Lemma includes_app_l (p a b : str) :
  includes p a = true -> includes p (a ++ b) = true.
Proof.
  induction a as [|y a IH]; intros H.
  - simpl in H. rewrite orb_false_r in H.
    destruct p; [|discriminate]. destruct b; reflexivity.
  - cbn [includes] in H. apply orb_true_iff in H.
    change ((y :: a) ++ b) with (y :: (a ++ b)). cbn [includes].
    destruct H as [H|H].
    + change (y :: (a ++ b)) with ((y :: a) ++ b).
      now rewrite (startsWith_app_l _ _ b H).
    + rewrite (IH H). apply orb_true_r.
Qed.

Lemma includes_cons (p : str) (c : char) (s : str) :
  includes p s = true -> includes p (c :: s) = true.
Proof. intros H. cbn [includes]. rewrite H. apply orb_true_r. Qed.

Lemma includes_dropWhile (p : str) (f : char -> bool) (s : str) :
  includes p (dropWhile f s) = true -> includes p s = true.
Proof.
  induction s as [|c s IH]; simpl dropWhile; [auto|].
  destruct (f c); [|auto].
  intros H. apply includes_cons. auto.
Qed.

Lemma dropWhile_split (f : char -> bool) (s : str) :
  exists a, s = a ++ dropWhile f s.
Proof.
  induction s as [|c s [a IH]]; [exists []; reflexivity|].
  simpl. destruct (f c).
  - exists (c :: a). simpl. now rewrite <- IH.
  - exists []. reflexivity.
Qed.

Lemma trimEnd_prefix (s : str) : exists b, s = trimEnd s ++ b.
Proof.
  unfold trimEnd. destruct (dropWhile_split is_space (rev s)) as [a E].
  exists (rev a). rewrite <- rev_app_distr, <- E. symmetry.
  apply rev_involutive.
Qed.

Lemma includes_trim (p s : str) :
  includes p (trim s) = true -> includes p s = true.
Proof.
  unfold trim, trimStart. intros H.
  apply includes_dropWhile with (f := is_space).
  destruct (trimEnd_prefix (dropWhile is_space s)) as [b E].
  rewrite E. now apply includes_app_l.
Qed.

Lemma dropWhile_idem (f : char -> bool) (s : str) :
  dropWhile f (dropWhile f s) = dropWhile f s.
Proof.
  induction s as [|c s IH]; [reflexivity|].
  simpl. destruct (f c) eqn:E; [assumption|]. simpl. now rewrite E.
Qed.

Lemma trim_idem (s : str) : trim (trim s) = trim s.
Proof.
  unfold trim, trimStart.
  set (x := dropWhile is_space s).
  assert (Hs : dropWhile is_space (trimEnd x) = trimEnd x).
  { destruct (trimEnd_prefix x) as [b E].
    destruct (trimEnd x) as [|c y] eqn:Ey; [reflexivity|].
    simpl. assert (Hc : is_space c = false).
    { unfold x in E. simpl in E. eapply dropWhile_head. exact E. }
    now rewrite Hc. }
  rewrite Hs. unfold trimEnd. rewrite rev_involutive.
  now rewrite dropWhile_idem.
Qed.

(** X6.  Cleaning is idempotent: cleaning a cleaned text changes
    nothing. *)
Theorem cleanMessageText_idempotent :
  forall text,
    cleanMessageText (cleanMessageText text) = cleanMessageText text.
Proof.
  intros text.
  set (u := cleanMessageText text).
  assert (Hk : forall l, In l (split_nl u) -> keep_line l = true).
  { intros l Hl. unfold u in Hl.
    destruct (trim l) as [|c t] eqn:E.
    { unfold keep_line. rewrite E. reflexivity. }
    assert (Hin : In (trim l) (texts (split_nl (cleanMessageText text)))).
    { unfold texts. apply filter_In. split; [now apply in_map|].
      rewrite E. reflexivity. }
    rewrite texts_cleanMessageText in Hin.
    unfold texts in Hin. apply filter_In in Hin. destruct Hin as [Hin _].
    apply in_map_iff in Hin. destruct Hin as (l' & Ht & Hl').
    apply filter_In in Hl'. destruct Hl' as [_ Hk].
    now rewrite <- (@keep_line_trim _ _ Ht). }
  assert (Hr : includes blank_run u = false).
  { destruct (includes blank_run u) eqn:E; [|reflexivity].
    unfold u, cleanMessageText in E. apply includes_trim in E.
    destruct (@collapse_invariant _ _
                (le_n (length (join_nl (filter keep_line (split_nl text))))))
      as [I _].
    rewrite I in E. discriminate. }
  assert (Ht : trim u = u) by (unfold u, cleanMessageText; apply trim_idem).
  unfold cleanMessageText at 1.
  rewrite (filter_all _ _ Hk), join_split, collapse_no_blank_run
    by assumption.
  assumption.
Qed.

(** ** The executor: order, outcomes, durations *)

Module ExecutorMore.
Import Executor ExecutorNotions ExecutorFacts.

Lemma apply_update_length (u : update) :
  forall l i, length (apply_update l i u) = length l.
Proof.
  induction l as [|x l IH]; intros [|i]; simpl; auto.
Qed.

Section Run.
Variable invoke : nat -> command -> outcome.
Variable now : nat -> Z.

Lemma run_command_exact (i : nat) (cmd : command) (s : state) :
  run_command invoke now i cmd s =
  {| steps := apply_update
                (apply_update (steps s) i (Update running None None)) i
                (final_update invoke now i cmd (clock s));
     clock := S (S (clock s));
     trace := trace s ++ [(i, Update running None None);
                          (i, final_update invoke now i cmd (clock s))] |}.
Proof.
  unfold run_command, final_update, onStepUpdate, tick. simpl.
  destruct (invoke i cmd) as [e|m]; [destruct (has_error e)|]; simpl;
    rewrite <- app_assoc; reflexivity.
Qed.

Lemma run_from_exact (commands : list command) :
  forall i s,
    trace (run_from invoke now i commands s) =
      trace s ++ updates_from invoke now i (clock s) commands /\
    length (steps (run_from invoke now i commands s)) = length (steps s).
Proof.
  induction commands as [|cmd rest IH]; intros i s; simpl.
  - rewrite app_nil_r. auto.
  - destruct (IH (S i) (run_command invoke now i cmd s)) as [-> ->].
    rewrite run_command_exact. simpl.
    rewrite <- app_assoc, !apply_update_length. auto.
Qed.

Lemma run_from_step (commands : list command) :
  forall i s j cmd st0,
    nth_error commands j = Some cmd ->
    nth_error (steps s) (i + j) = Some st0 ->
    nth_error (steps (run_from invoke now i commands s)) (i + j) =
    Some (merge (merge st0 (Update running None None))
            (final_update invoke now (i + j) cmd (clock s + 2 * j))).
Proof.
  induction commands as [|cmd0 rest IH]; intros i s j cmd st0 Hc Hs.
  - destruct j; discriminate.
  - destruct j as [|j]; simpl in Hc.
    + inversion Hc; subst cmd0. rewrite Nat.add_0_r in *. simpl.
      rewrite Nat.add_0_r.
      destruct (@run_from_frame invoke now rest (S i) i
                  (run_command invoke now i cmd s)) as [-> _]; [lia|].
      rewrite run_command_exact. simpl.
      erewrite apply_update_same; [reflexivity|].
      apply apply_update_same. assumption.
    + simpl.
      replace (i + S j) with (S i + j) in * by lia.
      replace (clock s + 2 * S j) with (S (S (clock s)) + 2 * j) by lia.
      destruct (@run_command_frame invoke now i (S i + j) cmd0 s)
        as [Hst _]; [lia|].
      pose proof (IH (S i) (run_command invoke now i cmd0 s) j cmd st0 Hc)
        as IH'.
      rewrite Hst in IH'. rewrite (IH' Hs).
      rewrite run_command_exact. cbn [clock].
      do 3 f_equal. lia.
Qed.

Lemma updates_in_turns (commands : list command) :
  forall i c0,
    exists finals,
      length finals = length commands /\
      Forall (fun u => is_terminal (u_status u) = true) finals /\
      updates_from invoke now i c0 commands = in_turns i finals.
Proof.
  induction commands as [|cmd rest IH]; intros i c0.
  - exists []. repeat split. constructor.
  - destruct (IH (S i) (S (S c0))) as (finals & Hl & HF & E).
    exists (final_update invoke now i cmd c0 :: finals).
    split; [simpl; now rewrite Hl|]. split.
    + constructor; [|assumption].
      unfold final_update.
      destruct (invoke i cmd) as [e|m]; [destruct (has_error e)|];
        reflexivity.
    + simpl. now rewrite E.
Qed.
End Run.

(** X7.  The executor works strictly in turn: the calls to the step
    callback are the running mark and the terminal update of step 0, then
    those of step 1, and so on, two per command and none out of order;
    and the step list keeps one entry per command throughout. *)
Theorem executor_updates_steps_in_turn :
  forall (invoke : nat -> command -> outcome) (now : nat -> Z)
         (commands : list command),
    let s := executeAutomationCommands invoke now commands in
    length (steps s) = length commands /\
    exists finals,
      length finals = length commands /\
      Forall (fun u => is_terminal (u_status u) = true) finals /\
      trace s = in_turns 0 finals.
Proof.
  intros invoke now commands s. unfold s, executeAutomationCommands.
  destruct (@run_from_exact invoke now commands 0
              (State (initialSteps commands) 0 [])) as [Ht Hl].
  split.
  - rewrite Hl. simpl. unfold initialSteps. apply length_map.
  - rewrite Ht. simpl. apply updates_in_turns.
Qed.

(** X8.  How a step ends is decided by its own command alone: it ends in
    error exactly when the call threw or returned a non-empty error, a
    step that ends done keeps the description it started with, and its
    duration is the difference of the two clock readings taken around
    the call. *)
Theorem step_outcome_follows_its_command :
  forall (invoke : nat -> command -> outcome) (now : nat -> Z)
         (commands : list command) (k : nat) (cmd : command),
    nth_error commands k = Some cmd ->
    exists st,
      nth_error (steps (executeAutomationCommands invoke now commands)) k =
        Some st /\
      (st_status st = error <-> exists msg, fails_with invoke k cmd msg) /\
      (st_status st = done -> detail st = describeCommand cmd) /\
      duration st = Some (now (S (2 * k)%nat) - now (2 * k)%nat)%Z.
Proof.
  intros invoke now commands k cmd Hc.
  assert (H0 : nth_error (initialSteps commands) k =
               Some (Step (describeCommand cmd) pending None)).
  { unfold initialSteps. rewrite nth_error_map, Hc. reflexivity. }
  pose proof (@run_from_step invoke now commands 0
                (State (initialSteps commands) 0 []) k cmd _ Hc H0) as Hs.
  simpl in Hs. unfold executeAutomationCommands.
  eexists. split; [exact Hs|].
  replace (k + (k + 0)) with (2 * k) by lia.
  unfold final_update, fails_with.
  destruct (invoke k cmd) as [[[|c e]|]|m]; simpl.
  - repeat split; try discriminate; auto.
    intros (msg & [H|[H Hne]]); [discriminate|].
    inversion H; subst. congruence.
  - repeat split; try discriminate; auto.
    intros _. exists (c :: e). right. split; [reflexivity | discriminate].
  - repeat split; try discriminate; auto.
    intros (msg & [H|[H Hne]]); discriminate.
  - repeat split; try discriminate; auto.
    intros _. exists m. left. reflexivity.
Qed.

Lemma step_outcome_follows_its_command_witness :
  let invoke := fun (i : nat) (_ : command) =>
                  match i with
                  | 0 => Returns (Some (js "Element not found"))
                  | _ => Returns None
                  end in
  exists st,
    nth_error
      (steps (executeAutomationCommands invoke (fun n => Z.of_nat (7 * n))
                [ClickElement (js "#go"); Wait 10])) 1 = Some st /\
    duration st = Some 7%Z.
Proof.
  intros invoke.
  destruct (@step_outcome_follows_its_command invoke
              (fun n => Z.of_nat (7 * n))
              [ClickElement (js "#go"); Wait 10] 1 (Wait 10) eq_refl)
    as (st & H1 & _ & _ & H4).
  exists st. split; [exact H1 | exact H4].
Defined.

(** X9.  With a clock that never runs backwards no step is given a
    negative duration. *)
Theorem durations_are_not_negative :
  forall (invoke : nat -> command -> outcome) (now : nat -> Z)
         (commands : list command) (k : nat) (st : step),
    (forall n, (now n <= now (S n))%Z) ->
    nth_error (steps (executeAutomationCommands invoke now commands)) k =
      Some st ->
    exists d, duration st = Some d /\ (0 <= d)%Z.
Proof.
  intros invoke now commands k st Hmono Hst.
  unfold executeAutomationCommands in Hst.
  assert (Hk : k < length commands).
  { assert (Hlt : k < length (steps (run_from invoke now 0 commands
                                       (State (initialSteps commands) 0 [])))).
    { apply nth_error_Some. congruence. }
    destruct (@run_from_exact invoke now commands 0
                (State (initialSteps commands) 0 [])) as [_ Hl].
    rewrite Hl in Hlt. simpl in Hlt. unfold initialSteps in Hlt.
    now rewrite length_map in Hlt. }
  destruct (nth_error commands k) as [cmd|] eqn:Hc;
    [|apply nth_error_None in Hc; lia].
  assert (H0 : nth_error (initialSteps commands) k =
               Some (Step (describeCommand cmd) pending None)).
  { unfold initialSteps. rewrite nth_error_map, Hc. reflexivity. }
  pose proof (@run_from_step invoke now commands 0
                (State (initialSteps commands) 0 []) k cmd _ Hc H0) as Hs.
  simpl in Hs. rewrite Hs in Hst. inversion Hst; subst st.
  specialize (Hmono (k + (k + 0))).
  unfold final_update.
  destruct (invoke k cmd) as [e|m]; [destruct (has_error e)|]; simpl;
    eexists; (split; [reflexivity | lia]).
Qed.

Lemma durations_are_not_negative_witness :
  exists d,
    Some 3%Z = Some d /\ (0 <= d)%Z.
Proof.
  apply (@durations_are_not_negative (fun _ _ => Returns None)
           (fun n => Z.of_nat (3 * n)) [Wait 1; Wait 2] 1
           (Step (describeCommand (Wait 2)) done (Some 3%Z))).
  - intros n. lia.
  - vm_compute. reflexivity.
Defined.

End ExecutorMore.

(** ** The lifecycle manager: accounting and timers *)

Module LifecycleMore.
Import Lifecycle LifecycleNotions LifecycleFacts.

(** Clearing a timer leaves at most one timer for each controller. *)
Lemma clearTimeout_single (c : handle) (ts : list (handle * Z)) :
  NoDup (map fst ts) -> NoDup (map fst (clearTimeout c ts)).
Proof.
  unfold clearTimeout. induction ts as [|t ts IH]; simpl; intros H.
  - constructor.
  - inversion H as [|? ? Ht Hts]; subst.
    destruct (negb _); simpl; [|auto].
    constructor; [|auto].
    intros Hin. apply Ht. apply in_map_iff in Hin.
    destruct Hin as (y & E & Hy). apply filter_In in Hy.
    apply in_map_iff. exists y. tauto.
Qed.

Lemma In_clearTimeout (c : handle) (t : handle * Z)
  (ts : list (handle * Z)) :
  In t (clearTimeout c ts) <-> In t ts /\ fst t <> c.
Proof.
  unfold clearTimeout. rewrite filter_In, negb_true_iff, Nat.eqb_neq.
  split; intros [H1 H2];
    (split; [assumption | intros E; apply H2; symmetry; exact E]).
Qed.

Lemma controller_abort_accounted (c : handle) (s : state) :
  accounted s -> accounted (controller_abort c s).
Proof.
  intros [Ha Ht Hs]. unfold controller_abort.
  destruct (has c (aborted s)) eqn:E; [constructor; assumption|].
  constructor; simpl.
  - intros x Hx. destruct (Nat.eq_dec x c) as [->|Hne]; [right; now left|].
    destruct (Ha x Hx) as [H|H].
    + left. apply In_set_delete. auto.
    + right. now right.
  - intros t Hin. apply In_clearTimeout in Hin. destruct Hin as [Hin Hne].
    apply In_set_delete. auto.
  - now apply clearTimeout_single.
Qed.

Lemma controller_abort_clears (c : handle) (s : state) :
  ~ In c (aborted s) ->
  forall t, In t (timers (controller_abort c s)) -> fst t <> c.
Proof.
  intros Hc t Hin. unfold controller_abort in Hin.
  apply has_false in Hc. rewrite Hc in Hin. simpl in Hin.
  apply In_clearTimeout in Hin. tauto.
Qed.

Lemma controller_abort_timers (c : handle) (s : state) :
  forall t, In t (timers (controller_abort c s)) -> In t (timers s).
Proof.
  intros t Hin. unfold controller_abort in Hin.
  destruct (has c (aborted s)); simpl in Hin; [assumption|].
  apply In_clearTimeout in Hin. tauto.
Qed.

(** The loop of [abort] clears the timer of every controller it visits. *)
Lemma abort_loop_timers :
  forall todo s count,
    inv s -> accounted s ->
    NoDup todo ->
    (forall c, In c todo -> In c (activeControllers s)) ->
    let r := abort_loop todo s count in
    inv (fst r) /\ accounted (fst r) /\
    (forall t, In t (timers (fst r)) ->
               In t (timers s) /\ ~ In (fst t) todo).
Proof.
  induction todo as [|c todo IH]; intros s count Hi Ha Hnd Hsub; simpl.
  - split; [assumption|]. split; [assumption|]. intros t Ht. split; auto.
  - assert (Hc : In c (activeControllers s)) by (apply Hsub; now left).
    pose proof Hc as Hhas. apply has_In in Hhas. rewrite Hhas.
    inversion Hnd as [|? ? Hnotin Hnd']; subst.
    destruct (inv_live Hi _ Hc) as [Hlt Hna].
    destruct (IH (controller_abort c s) (S count)
                (controller_abort_inv Hi Hlt)
                (controller_abort_accounted c Ha) Hnd')
      as (I1 & I2 & I3).
    { intros x Hx. apply controller_abort_keeps.
      - intros ->. contradiction.
      - apply Hsub. now right. }
    split; [assumption|]. split; [assumption|].
    intros t Ht. destruct (I3 t Ht) as [H1 H2].
    split; [eapply controller_abort_timers; eassumption|].
    intros [E|Hin]; [|contradiction].
    apply (@controller_abort_clears c s Hna t H1). auto.
Qed.

Lemma abort_accounted (s : state) :
  inv s -> accounted s ->
  accounted (fst (abort s)) /\ timers (fst (abort s)) = [].
Proof.
  intros Hi Ha.
  destruct (@abort_loop_timers (activeControllers s) s 0 Hi Ha
              (inv_nodup Hi) (fun c H => H)) as (I1 & I2 & I3).
  destruct (@abort_loop_spec (activeControllers s) s 0 (inv_nodup Hi)
              (fun c H => H)) as (_ & H2 & H3 & _ & H5 & _).
  unfold abort.
  destruct (abort_loop (activeControllers s) s 0) as [s' n]. simpl in *.
  assert (Hnil : timers s' = []).
  { destruct (timers s') as [|t ts] eqn:E; [reflexivity|]. exfalso.
    destruct (I3 t) as [H6 H7]; [now left|].
    apply H7. apply (acc_timers Ha). assumption. }
  split; [|assumption].
  constructor; simpl.
  - intros c Hc. right. rewrite H5 in Hc.
    destruct (acc_all Ha Hc) as [H|H]; auto.
  - rewrite Hnil. intros t [].
  - rewrite Hnil. constructor.
Qed.

Lemma timer_fires_accounted (c : handle) (s : state) :
  inv s -> accounted s -> accounted (timer_fires c s).
Proof.
  intros Hi Ha. unfold timer_fires.
  destruct (find (fun t => Nat.eqb c (fst t)) (timers s))
    as [[c' timeoutMs]|] eqn:E; [|assumption].
  set (s1 := {| activeControllers := activeControllers s;
                aborted := aborted s;
                timers := clearTimeout c (timers s);
                next := next s; log := log s |}).
  assert (Ha1 : accounted s1).
  { destruct Ha as [A1 A2 A3]. constructor; simpl; auto.
    - intros t Hin. apply In_clearTimeout in Hin. apply A2. tauto.
    - now apply clearTimeout_single. }
  pose proof (controller_abort_accounted c Ha1) as [B1 B2 B3].
  assert (Hclear : forall t, In t (timers (controller_abort c s1)) ->
                             fst t <> c).
  { intros t Hin. apply controller_abort_timers in Hin. simpl in Hin.
    apply In_clearTimeout in Hin. tauto. }
  constructor; simpl.
  - intros x Hx. rewrite controller_abort_next in Hx. simpl in Hx.
    destruct (Nat.eq_dec x c) as [->|Hne].
    + right. apply controller_abort_aborted.
    + rewrite controller_abort_next in B1. simpl in B1.
      destruct (B1 x Hx) as [H|H]; [|auto].
      left. apply In_set_delete. auto.
  - intros t Hin. apply In_set_delete. split; [auto|]. now apply Hclear.
  - assumption.
Qed.

Lemma makeController_accounted (timeoutMs : Z) (s : state) :
  inv s -> accounted s -> accounted (fst (_makeController timeoutMs s)).
Proof.
  intros Hi [A1 A2 A3].
  assert (Hfresh : has (next s) (activeControllers s) = false).
  { apply has_false. intros H. apply (inv_live Hi) in H. lia. }
  constructor; simpl; unfold set_add; try rewrite Hfresh.
  - intros c Hc. destruct (Nat.eq_dec c (next s)) as [->|Hne].
    + left. apply in_or_app. right. now left.
    + destruct (A1 c) as [H|H]; [lia | | auto].
      left. apply in_or_app. auto.
  - intros t Hin. apply in_or_app.
    destruct (0 <? timeoutMs)%Z; [|left; auto].
    apply in_app_or in Hin. destruct Hin as [Hin|[<-|[]]];
      [left; auto | right; now left].
  - destruct (0 <? timeoutMs)%Z; [|assumption].
    rewrite map_app. simpl. apply NoDup_app; [assumption | | ].
    + repeat constructor. intros [].
    + intros x Hx [<-|[]]. apply in_map_iff in Hx.
      destruct Hx as (t & E & Hin). apply (inv_timers Hi) in Hin. lia.
Qed.

Lemma step_accounted (s : state) (o : op) :
  inv s -> accounted s -> accounted (step s o).
Proof.
  intros Hi Ha. destruct o; simpl.
  - now apply makeController_accounted.
  - now apply timer_fires_accounted.
  - now apply abort_accounted.
  - assumption.
Qed.

Lemma fold_step_accounted (ops : list op) :
  forall s, inv s -> accounted s -> accounted (fold_left step ops s).
Proof.
  induction ops as [|o ops IH]; simpl; intros s Hi Ha; [assumption|].
  apply IH; [now apply step_inv | now apply step_accounted].
Qed.

Lemma run_accounted (ops : list op) : accounted (run ops).
Proof.
  apply fold_step_accounted; [apply inv_init|].
  constructor; simpl; [intros c H; lia | intros t [] | constructor].
Qed.

(** X10.  A controller leaves the live set only by being cancelled: in
    every reachable state each controller ever created is live exactly
    when it has not been cancelled by [abort] or by its timeout, whether
    or not its request has settled. *)
Theorem controllers_are_live_until_cancelled :
  forall (ops : list op) (c : handle),
    c < next (run ops) ->
    (In c (activeControllers (run ops)) <-> ~ In c (aborted (run ops))).
Proof.
  intros ops c Hc. split.
  - intros H. now apply (inv_live (run_inv ops)).
  - intros H. destruct (acc_all (run_accounted ops) Hc); tauto.
Qed.

Lemma controllers_are_live_until_cancelled_witness :
  let ops := [MakeController 120000; MakeController 15000; TimerFires 1] in
  In 0 (activeControllers (run ops)) <-> ~ In 0 (aborted (run ops)).
Proof.
  intros ops.
  apply (@controllers_are_live_until_cancelled ops 0).
  vm_compute. lia.
Defined.

(** X11.  Timers cannot fire late: [abort()] leaves no timer pending, the
    timer of a cancelled controller never fires, and a timeout fires at
    most once. *)
Theorem no_timeout_after_cancellation :
  forall (ops : list op),
    timers (fst (abort (run ops))) = [] /\
    (forall c, In c (aborted (run ops)) ->
               timer_fires c (run ops) = run ops) /\
    (forall c, timer_fires c (timer_fires c (run ops)) =
               timer_fires c (run ops)).
Proof.
  intros ops.
  assert (Hlate : forall ops' c, In c (aborted (run ops')) ->
                                 timer_fires c (run ops') = run ops').
  { intros ops' c Hc. unfold timer_fires.
    destruct (find (fun t => Nat.eqb c (fst t)) (timers (run ops')))
      as [[c' timeoutMs]|] eqn:E; [|reflexivity].
    exfalso. apply find_some in E. destruct E as [Hin Heq].
    apply Nat.eqb_eq in Heq. simpl in Heq. subst c'.
    apply (acc_timers (run_accounted ops')) in Hin. simpl in Hin.
    apply (inv_live (run_inv ops')) in Hin. tauto. }
  split; [|split].
  - apply abort_accounted; [apply run_inv | apply run_accounted].
  - apply Hlate.
  - intros c.
    destruct (find (fun t => Nat.eqb c (fst t)) (timers (run ops)))
      as [[c' timeoutMs]|] eqn:E.
    + assert (Hrun : timer_fires c (run ops) = run (ops ++ [TimerFires c])).
      { unfold run. rewrite fold_left_app. reflexivity. }
      rewrite Hrun. apply Hlate. rewrite <- Hrun.
      unfold timer_fires. rewrite E. simpl.
      apply controller_abort_aborted.
    + unfold timer_fires at 2. rewrite E.
      unfold timer_fires. rewrite E. reflexivity.
Qed.

Lemma no_timeout_after_cancellation_witness :
  let ops := [MakeController 120000; MakeController 15000; TimerFires 1] in
  timers (fst (abort (run ops))) = [] /\
  timer_fires 1 (run ops) = run ops.
Proof.
  intros ops.
  destruct (no_timeout_after_cancellation ops) as (H1 & H2 & _).
  split; [exact H1|]. apply H2. vm_compute. auto.
Defined.

End LifecycleMore.


(** ** Message shaping: whole conversations *)

Lemma includes_refl (x : str) : includes x x = true.
Proof. apply (includes_app_r x []). Qed.

Lemma includes_nil_inv (x : str) : includes x [] = true -> x = [].
Proof. destruct x; simpl; [reflexivity | discriminate]. Qed.

Lemma carries_In (v : json) (t : str) :
  In t (strings_of v) -> carries v t = true.
Proof.
  intros H. unfold carries. apply existsb_exists.
  exists t. split; [assumption | apply includes_refl].
Qed.

Lemma carries_includes (v : json) (t s : str) :
  In s (strings_of v) -> includes t s = true -> carries v t = true.
Proof.
  intros H1 H2. unfold carries. apply existsb_exists. exists s. auto.
Qed.

Lemma strings_of_field (fields : list (str * json)) (k : str) (v : json)
  (t : str) :
  In (k, v) fields -> In t (strings_of v) -> In t (strings_of (JObj fields)).
Proof.
  intros H1 H2. cbn [strings_of]. apply in_flat_map.
  exists (k, v). auto.
Qed.

Lemma strings_of_item (items : list json) (v : json) (t : str) :
  In v items -> In t (strings_of v) -> In t (strings_of (JArr items)).
Proof.
  intros H1 H2. cbn [strings_of]. apply in_flat_map. exists v. auto.
Qed.

Lemma toOpenAIMessage_text (msg : message) :
  In (content msg) (strings_of (_toOpenAIMessage msg)).
Proof.
  unfold _toOpenAIMessage. destruct (nonempty (image msg)); simpl; auto.
Qed.

Lemma toOllamaMessage_text (msg : message) :
  In (content msg) (strings_of (_toOllamaMessage msg)).
Proof.
  unfold _toOllamaMessage. destruct (nonempty (image msg)); simpl; auto.
Qed.

(** The loop of [_buildAnthropicMessages], one turn. *)
Lemma anthropic_step_keeps (acc : option str * list json) (m : message) :
  (forall shaped, In shaped (snd acc) ->
                  In shaped (snd (anthropic_step acc m))) /\
  (forall s x, fst acc = Some s -> includes x s = true ->
               exists s', fst (anthropic_step acc m) = Some s' /\
                          includes x s' = true).
Proof.
  destruct acc as [sys shaped]. unfold anthropic_step. split.
  - intros v Hv.
    destruct (str_eqb (role m) (js "system")); [assumption|].
    destruct (nonempty (image m)); simpl in *; apply in_or_app; auto.
  - intros s x Hs Hx. simpl in Hs. subst sys.
    destruct (str_eqb (role m) (js "system")).
    + eexists. split; [reflexivity|]. simpl fst.
      destruct s as [|c s]; simpl nonempty; cbv iota.
      * apply includes_nil_inv in Hx. subst x. destruct (content m);
          reflexivity.
      * simpl tpl. rewrite <- app_assoc. now apply includes_app_l.
    + destruct (nonempty (image m)); exists s; auto.
Qed.

Lemma anthropic_step_adds (acc : option str * list json) (m : message) :
  (role m <> js "system" ->
   exists shaped, In shaped (snd (anthropic_step acc m)) /\
                  In (content m) (strings_of shaped)) /\
  (role m = js "system" ->
   exists s, fst (anthropic_step acc m) = Some s /\
             includes (content m) s = true).
Proof.
  destruct acc as [sys shaped]. unfold anthropic_step. split.
  - intros Hr. rewrite (str_eqb_neq Hr).
    destruct (nonempty (image m)); eexists;
      (split; [apply in_or_app; right; left; reflexivity|]);
      simpl; auto 10.
  - intros Hr. rewrite Hr. simpl. eexists. split; [reflexivity|].
    apply includes_app_r.
Qed.

Lemma anthropic_fold_keeps (messages : list message) :
  forall acc,
    (forall shaped, In shaped (snd acc) ->
       In shaped (snd (fold_left anthropic_step messages acc))) /\
    (forall s x, fst acc = Some s -> includes x s = true ->
       exists s', fst (fold_left anthropic_step messages acc) = Some s' /\
                  includes x s' = true).
Proof.
  induction messages as [|m messages IH]; intros acc; simpl.
  - split; [auto|]. intros s x Hs Hx. exists s. auto.
  - destruct (anthropic_step_keeps acc m) as [K1 K2].
    destruct (IH (anthropic_step acc m)) as [I1 I2].
    split; [auto|].
    intros s x Hs Hx. destruct (K2 s x Hs Hx) as (s' & Hs' & Hx').
    eauto.
Qed.

Lemma anthropic_fold_adds (messages : list message) :
  forall acc msg, In msg messages ->
    (role msg <> js "system" ->
     exists shaped,
       In shaped (snd (fold_left anthropic_step messages acc)) /\
       In (content msg) (strings_of shaped)) /\
    (role msg = js "system" ->
     exists s, fst (fold_left anthropic_step messages acc) = Some s /\
               includes (content msg) s = true).
Proof.
  induction messages as [|m messages IH]; intros acc msg Hin; [destruct Hin|].
  simpl. destruct Hin as [->|Hin]; [|now apply IH].
  destruct (anthropic_step_adds acc msg) as [A1 A2].
  destruct (anthropic_fold_keeps messages (anthropic_step acc msg))
    as [K1 K2].
  split; intros Hr.
  - destruct (A1 Hr) as (shaped & H1 & H2). exists shaped. auto.
  - destruct (A2 Hr) as (s & H1 & H2). eauto.
Qed.

(** The loop of the two Gemini functions. *)
Lemma gemini_step_keeps (acc : option str * list json) (m : message) :
  forall shaped, In shaped (snd acc) -> In shaped (snd (gemini_step acc m)).
Proof.
  destruct acc as [sys shaped]. unfold gemini_step. intros v Hv.
  destruct (str_eqb (role m) (js "system")); simpl in *;
    [assumption | apply in_or_app; auto].
Qed.

Lemma gemini_fold_keeps (messages : list message) :
  forall acc shaped, In shaped (snd acc) ->
    In shaped (snd (fold_left gemini_step messages acc)).
Proof.
  induction messages as [|m messages IH]; intros acc v Hv; simpl; [auto|].
  apply IH. now apply gemini_step_keeps.
Qed.

Lemma gemini_fold_adds (messages : list message) :
  forall acc msg, In msg messages -> role msg <> js "system" ->
    exists shaped,
      In shaped (snd (fold_left gemini_step messages acc)) /\
      In (content msg) (strings_of shaped).
Proof.
  induction messages as [|m messages IH]; intros acc msg Hin Hr;
    [destruct Hin|].
  simpl. destruct Hin as [->|Hin]; [|now apply IH].
  destruct acc as [sys shaped].
  eexists. split.
  - apply gemini_fold_keeps. unfold gemini_step. rewrite (str_eqb_neq Hr).
    simpl. apply in_or_app. right. left. reflexivity.
  - simpl. auto.
Qed.

Lemma gemini_fold_system (post : list message) :
  Forall (fun m => role m <> js "system") post ->
  forall acc, fst (fold_left gemini_step post acc) = fst acc.
Proof.
  induction 1 as [|m post Hm _ IH]; intros acc; simpl; [reflexivity|].
  rewrite IH. destruct acc as [sys shaped]. unfold gemini_step.
  now rewrite (str_eqb_neq Hm).
Qed.

(** X12.  What of a conversation reaches the request body.  On the
    OpenAI-compatible and the Ollama path every message's text does; on
    the Anthropic path every message's text does, a system message's
    inside the system prompt (an empty text apart); on the Gemini path
    every message that is not a system message, and the last system
    message when its text is not empty. *)
Theorem conversation_text_reaches_the_request :
  forall (p : provider) (messages : list message) (stream : bool)
         (msg : message),
    In msg messages ->
    (forall req,
       In req [openai_request p messages stream;
               ollama_request p messages stream] ->
       exists b, body req = Some b /\ carries b (content msg) = true) /\
    (role msg <> js "system" \/ content msg <> [] ->
     carries (anthropic_body p messages stream) (content msg) = true) /\
    (role msg <> js "system" ->
     carries (gemini_body messages) (content msg) = true) /\
    (forall pre post,
       messages = pre ++ msg :: post ->
       role msg = js "system" -> content msg <> [] ->
       Forall (fun m => role m <> js "system") post ->
       carries (gemini_body messages) (content msg) = true).
Proof.
  intros p messages stream msg Hin. repeat split.
  - intros req [<-|[<-|[]]]; eexists; (split; [reflexivity|]);
      apply carries_In.
    + eapply strings_of_field.
      * apply in_or_app. right. left. reflexivity.
      * eapply strings_of_item; [apply in_map, Hin|].
        apply toOpenAIMessage_text.
    + eapply strings_of_field.
      * apply in_or_app. right. left. reflexivity.
      * eapply strings_of_item; [apply in_map, Hin|].
        apply toOllamaMessage_text.
  - intros Hor. unfold anthropic_body, _buildAnthropicMessages.
    destruct (anthropic_fold_adds messages (None, []) msg Hin) as [A1 A2].
    destruct (fold_left anthropic_step messages (None, []))
      as [sys shaped]. simpl in A1, A2.
    destruct (list_eq_dec N.eq_dec (role msg) (js "system")) as [Hr|Hr].
    + destruct Hor as [Hne|Hne]; [contradiction|].
      destruct (A2 Hr) as (s & -> & Hs).
      assert (Hs' : nonempty (Some s) = true).
      { destruct s; [|reflexivity]. apply includes_nil_inv in Hs.
        contradiction. }
      rewrite Hs'. eapply carries_includes; [|exact Hs].
      eapply strings_of_field.
      * apply in_or_app. right. apply in_or_app. right.
        apply in_or_app. right. left. reflexivity.
      * simpl. left. reflexivity.
    + destruct (A1 Hr) as (v & Hv & Ht). apply carries_In.
      eapply strings_of_field.
      * apply in_or_app. right. right. left. reflexivity.
      * eapply strings_of_item; eassumption.
  - intros Hr. unfold gemini_body.
    destruct (gemini_fold_adds messages (None, []) msg Hin Hr)
      as (v & Hv & Ht).
    destruct (fold_left gemini_step messages (None, [])) as [sys shaped].
    simpl in Hv. apply carries_In.
    eapply strings_of_field; [left; reflexivity|].
    eapply strings_of_item; eassumption.
  - intros pre post -> Hr Hne Hpost. unfold gemini_body.
    rewrite fold_left_app. cbn [fold_left].
    set (acc := gemini_step (fold_left gemini_step pre (None, [])) msg).
    assert (Hacc : fst acc = Some (content msg)).
    { unfold acc.
      destruct (fold_left gemini_step pre (None, [])) as [sys0 shaped0].
      unfold gemini_step. rewrite Hr. reflexivity. }
    pose proof (gemini_fold_system Hpost acc) as Hsys.
    rewrite Hacc in Hsys.
    destruct (fold_left gemini_step post acc) as [sys shaped].
    simpl in Hsys. subst sys.
    assert (Hs : nonempty (Some (content msg)) = true).
    { destruct (content msg); [contradiction | reflexivity]. }
    rewrite Hs. apply carries_In.
    eapply strings_of_field.
    + apply in_or_app. right. left. reflexivity.
    + simpl. auto.
Qed.

Lemma conversation_text_reaches_the_request_witness :
  let p := Provider (js "anthropic") (Some (js "k")) (Some (js "m"))
             (Some (js "u")) in
  let sys := Message (js "system") (js "Be brief.") None in
  let messages := [ sys; Message (js "user") (js "hi") None ] in
  carries (anthropic_body p messages false) (js "Be brief.") = true /\
  carries (gemini_body messages) (js "Be brief.") = true.
Proof.
  intros p sys messages.
  destruct (@conversation_text_reaches_the_request p messages false sys)
    as (_ & Ha & _ & Hg).
  - left. reflexivity.
  - split.
    + apply Ha. right. discriminate.
    + apply (Hg [] [Message (js "user") (js "hi") None]).
      * reflexivity.
      * reflexivity.
      * discriminate.
      * repeat constructor. vm_compute. discriminate.
Defined.


(** ** The service: requests, failures and results *)

Lemma isLocal_name (p : provider) :
  isLocal p = true -> name p = js "ollama" \/ name p = js "lmstudio".
Proof.
  unfold isLocal. intros H. apply orb_true_iff in H.
  destruct H as [H|H]; apply str_eqb_eq in H; auto.
Qed.

(** An HTTP error is never taken for a refused connection. *)
Lemma enrich_api_error (who : str) (r : response) (body : str)
  (p : provider) :
  (isLocal p = true -> exists c rest, who = c :: rest /\ c <> 102%N) ->
  _enrichFetchError (api_error who r body) p = api_error who r body.
Proof.
  intros H. unfold _enrichFetchError.
  destruct (isLocal p); [|reflexivity].
  destruct (H eq_refl) as (c & rest & -> & Hc).
  unfold api_error, Error. cbn [e_message e_cause_code andb].
  rewrite orb_false_r.
  rewrite str_eqb_neq; [reflexivity|].
  change (js "fetch failed") with (102%N :: js "etch failed").
  intros E. inversion E. contradiction.
Qed.

Lemma enrich_api_error_name (r : response) (body : str) (p : provider) :
  _enrichFetchError (api_error (name p) r body) p =
  api_error (name p) r body.
Proof.
  apply enrich_api_error. intros H.
  destruct (isLocal_name p H) as [->| ->].
  - exists 111%N, (js "llama"). split; [reflexivity | discriminate].
  - exists 108%N, (js "mstudio"). split; [reflexivity | discriminate].
Qed.

Lemma enrich_api_error_Ollama (r : response) (body : str) (p : provider) :
  _enrichFetchError (api_error (js "Ollama") r body) p =
  api_error (js "Ollama") r body.
Proof.
  apply enrich_api_error. intros _.
  exists 79%N, (js "llama"). split; [reflexivity | discriminate].
Qed.

Lemma enrich_not_local (e : error) (p : provider) :
  isLocal p = false -> _enrichFetchError e p = e.
Proof. intros H. unfold _enrichFetchError. now rewrite H. Qed.

(** X13.  [chatStream] validates as [chat] does: a configuration that
    fails validation is reported through [onError] alone, with one of
    the three configuration errors and without any request; a valid one
    issues exactly one POST, with the headers of the request of [chat]
    and, Gemini apart, to the same URL. *)
Theorem chatStream_validates_before_any_request :
  forall (fetch : request -> fetch_result)
         (JSON_parse : str -> option json)
         (dstate : Type) (dinit : dstate)
         (decode_byte : dstate -> N -> dstate * str)
         (settings : aiSettings) (messages : list message)
         (providerName : option str),
    let p := getProviderConfig settings providerName in
    let r := chatStream fetch JSON_parse dinit decode_byte settings
               messages providerName in
    (forall err, validateProvider p = Some err ->
                 In err (configuration_errors p) /\
                 r = ([], [OnError err])) /\
    (validateProvider p = None ->
     exists req req',
       fst r = [req] /\
       fst (chat fetch settings messages providerName) = [req'] /\
       method req = js "POST" /\
       headers req = headers req' /\
       (name p <> js "gemini" -> url req = url req')).
Proof.
  intros fetch JSON_parse dstate dinit decode_byte settings messages
    providerName p r. subst r. unfold chatStream, chat. fold p. split.
  - intros err E. rewrite E. split; [|reflexivity].
    now apply validateProvider_Some.
  - intros E. rewrite E.
    destruct (str_eqb (name p) (js "gemini")) eqn:Eg.
    { do 2 eexists. repeat split. intros H. apply str_eqb_eq in Eg.
      contradiction. }
    destruct (str_eqb (name p) (js "anthropic")).
    { do 2 eexists. repeat split. }
    destruct (str_eqb (name p) (js "ollama")); do 2 eexists; repeat split.
Qed.

Lemma chatStream_validates_before_any_request_witness :
  chatStream no_network (fun _ => None) tt (fun d _ => (d, []))
    default_settings [] None =
  ([], [OnError (Error (js "No API key configured for openai. Please add your API key in Settings."))]).
Proof.
  apply (@chatStream_validates_before_any_request no_network
           (fun _ => None) unit tt (fun d _ => (d, [])) default_settings
           [] None).
  reflexivity.
Defined.

(** X14.  An HTTP error status is reported with the status and the whole
    body of the response: [chat] rejects with, and [chatStream] passes
    to [onError] alone, the error named after the backend. *)
Theorem http_errors_carry_status_and_body :
  forall (fetch : request -> fetch_result)
         (JSON_parse : str -> option json)
         (dstate : Type) (dinit : dstate)
         (decode_byte : dstate -> N -> dstate * str)
         (settings : aiSettings) (messages : list message)
         (providerName : option str) (r : response),
    let p := getProviderConfig settings providerName in
    validateProvider p = None ->
    (forall req, fetch req = Responds r) ->
    ok r = false ->
    exists who,
      In who [js "Gemini"; js "Anthropic"; js "Ollama"; name p] /\
      snd (chat fetch settings messages providerName) =
        inl (api_error who r (text r)) /\
      snd (chatStream fetch JSON_parse dinit decode_byte settings messages
             providerName) = [OnError (api_error who r (text r))].
Proof.
  intros fetch JSON_parse dstate dinit decode_byte settings messages
    providerName r p Hv Hf Hok.
  unfold chat, chatStream. fold p. rewrite Hv.
  destruct (str_eqb (name p) (js "gemini")).
  { exists (js "Gemini"). unfold _chatGemini, _streamGemini.
    cbn [fst snd]. rewrite !Hf, Hok. cbn [negb In]. auto. }
  destruct (str_eqb (name p) (js "anthropic")).
  { exists (js "Anthropic"). unfold _chatAnthropic, _streamAnthropic.
    cbn [fst snd]. rewrite !Hf, Hok. cbn [negb In]. auto. }
  destruct (str_eqb (name p) (js "ollama")).
  { exists (js "Ollama"). unfold _chatOllama, _streamOllama.
    cbn [fst snd]. rewrite !Hf, Hok. cbn [negb In].
    rewrite enrich_api_error_Ollama. auto. }
  exists (name p). unfold _chatOpenAICompatible, _streamOpenAICompatible.
  cbn [fst snd]. rewrite !Hf, Hok. cbn [negb In].
  rewrite enrich_api_error_name. auto 6.
Qed.

Lemma http_errors_carry_status_and_body_witness :
  let r := Response false 429 (js "slow down") None [] in
  let fetch := fun _ : request => Responds r in
  let p := getProviderConfig default_settings (Some (js "ollama")) in
  exists who,
    In who [js "Gemini"; js "Anthropic"; js "Ollama"; name p] /\
    snd (chat fetch default_settings [] (Some (js "ollama"))) =
      inl (api_error who r (text r)) /\
    snd (chatStream fetch (fun _ => None) tt (fun d _ => (d, []))
           default_settings [] (Some (js "ollama"))) =
      [OnError (api_error who r (text r))].
Proof.
  intros r fetch p.
  apply (@http_errors_carry_status_and_body fetch (fun _ => None) unit tt
           (fun d _ => (d, [])) default_settings []
           (Some (js "ollama")) r); intros; reflexivity.
Defined.

(** X15.  A refused connection.  When the network fails with the message
    of a failed fetch, [chat] explains it for the two local providers by
    naming the server and its address, and rethrows it unchanged for the
    others; [chatStream] explains it on the OpenAI-compatible path (LM
    Studio) but passes the bare error to [onError] on the Ollama path. *)
Theorem connection_failures_of_local_servers :
  forall (fetch : request -> fetch_result)
         (JSON_parse : str -> option json)
         (dstate : Type) (dinit : dstate)
         (decode_byte : dstate -> N -> dstate * str)
         (settings : aiSettings) (messages : list message)
         (providerName : option str) (e : error),
    let p := getProviderConfig settings providerName in
    let explained hint :=
      Error (js "Cannot connect to " ++ name p ++ js " at " ++
             tpl (baseUrl p) ++ js ". Please start " ++ hint ++
             js " and try again.") in
    validateProvider p = None ->
    (forall req, fetch req = FetchFails e) ->
    e_message e = js "fetch failed" ->
    (isLocal p = true ->
     exists hint,
       snd (chat fetch settings messages providerName) =
         inl (explained hint)) /\
    (isLocal p = false ->
     snd (chat fetch settings messages providerName) = inl e /\
     snd (chatStream fetch JSON_parse dinit decode_byte settings messages
            providerName) = [OnError e]) /\
    (name p = js "lmstudio" ->
     exists hint,
       snd (chatStream fetch JSON_parse dinit decode_byte settings messages
              providerName) = [OnError (explained hint)]) /\
    (name p = js "ollama" ->
     snd (chatStream fetch JSON_parse dinit decode_byte settings messages
            providerName) = [OnError e]).
Proof.
  intros fetch JSON_parse dstate dinit decode_byte settings messages
    providerName e p explained Hv Hf He.
  unfold chat, chatStream. fold p. rewrite Hv.
  assert (Hen : isLocal p = true ->
                exists hint, _enrichFetchError e p = explained hint).
  { intros Hl. unfold _enrichFetchError. rewrite Hl, He.
    rewrite (proj2 (str_eqb_eq _ _) eq_refl). cbn [andb orb].
    eexists. reflexivity. }
  assert (Hollama : name p = js "ollama" ->
                    str_eqb (name p) (js "gemini") = false /\
                    str_eqb (name p) (js "anthropic") = false /\
                    str_eqb (name p) (js "ollama") = true).
  { intros E. rewrite E. repeat split. }
  assert (Hlmstudio : name p = js "lmstudio" ->
                      str_eqb (name p) (js "gemini") = false /\
                      str_eqb (name p) (js "anthropic") = false /\
                      str_eqb (name p) (js "ollama") = false).
  { intros E. rewrite E. repeat split. }
  split; [|split; [|split]].
  - intros Hl. destruct (Hen Hl) as [hint Hh]. exists hint.
    destruct (isLocal_name p Hl) as [E|E].
    + destruct (Hollama E) as (-> & -> & ->).
      unfold _chatOllama. cbn [snd]. rewrite Hf, Hh. reflexivity.
    + destruct (Hlmstudio E) as (-> & -> & ->).
      unfold _chatOpenAICompatible. cbn [snd]. rewrite Hf, Hh.
      reflexivity.
  - intros Hl. split.
    + destruct (str_eqb (name p) (js "gemini"));
        [unfold _chatGemini; cbn [snd]; now rewrite Hf|].
      destruct (str_eqb (name p) (js "anthropic"));
        [unfold _chatAnthropic; cbn [snd]; now rewrite Hf|].
      destruct (str_eqb (name p) (js "ollama"));
        [unfold _chatOllama | unfold _chatOpenAICompatible];
        cbn [snd]; rewrite Hf; now rewrite enrich_not_local.
    + destruct (str_eqb (name p) (js "gemini"));
        [unfold _streamGemini; cbn [snd]; now rewrite Hf|].
      destruct (str_eqb (name p) (js "anthropic"));
        [unfold _streamAnthropic; cbn [snd]; now rewrite Hf|].
      destruct (str_eqb (name p) (js "ollama"));
        [unfold _streamOllama | unfold _streamOpenAICompatible];
        cbn [snd]; rewrite Hf; [reflexivity|].
      now rewrite enrich_not_local.
  - intros E.
    assert (Hl : isLocal p = true).
    { unfold isLocal. rewrite E. reflexivity. }
    destruct (Hen Hl) as [hint Hh]. exists hint.
    destruct (Hlmstudio E) as (-> & -> & ->).
    unfold _streamOpenAICompatible. cbn [snd]. rewrite Hf, Hh.
    reflexivity.
  - intros E. destruct (Hollama E) as (-> & -> & ->).
    unfold _streamOllama. cbn [snd]. now rewrite Hf.
Qed.


Lemma connection_failures_of_local_servers_witness :
  let e := Err (js "TypeError") (js "fetch failed") None in
  (exists hint,
     snd (chat no_network default_settings [] (Some (js "ollama"))) =
       inl (Error (js "Cannot connect to ollama at http://localhost:11434. Please start " ++
                   hint ++ js " and try again."))) /\
  snd (chatStream no_network (fun _ => None) tt (fun d _ => (d, []))
         default_settings [] (Some (js "ollama"))) = [OnError e].
Proof.
  intros e.
  destruct (@connection_failures_of_local_servers no_network
              (fun _ => None) unit tt (fun d _ => (d, []))
              default_settings [] (Some (js "ollama")) e)
    as (H1 & _ & _ & H4); [reflexivity | intros; reflexivity
                          | reflexivity |].
  split.
  - destruct H1 as [hint Hh]; [reflexivity|]. exists hint. exact Hh.
  - apply H4. reflexivity.
Defined.

(** X16.  A successful [chat] is labelled with the provider that was
    asked, and on the Gemini path its content is never empty or
    undefined: a response without text gives the fixed sentence, and the
    model reported is the configured one. *)
Theorem chat_result_names_its_provider :
  forall (fetch : request -> fetch_result) (settings : aiSettings)
         (messages : list message) (providerName : option str)
         (res : chatResult),
    let p := getProviderConfig settings providerName in
    snd (chat fetch settings messages providerName) = inr res ->
    r_provider res = name p /\
    (name p = js "gemini" ->
     truthy (r_content res) = true /\
     r_model res = option_map JStr (model p)).
Proof.
  intros fetch settings messages providerName res p. unfold chat. fold p.
  destruct (validateProvider p); [discriminate|].
  destruct (str_eqb (name p) (js "gemini")) eqn:Eg.
  { apply str_eqb_eq in Eg. unfold _chatGemini. cbn [snd].
    destruct (fetch _) as [e|r]; [discriminate|].
    destruct (negb (ok r)); [discriminate|].
    destruct (response_json r) as [e|data]; [discriminate|].
    cbn [bind].
    destruct (orTypeError (dot (Some data) "candidates")) as [e|cands];
      [discriminate|].
    cbn [bind]. intros H. inversion H. cbn [r_provider r_content r_model].
    split; [congruence|]. intros _. split; [|reflexivity].
    destruct (truthy _) eqn:Et; [assumption | reflexivity]. }
  destruct (str_eqb (name p) (js "anthropic")) eqn:Ea.
  { apply str_eqb_eq in Ea. unfold _chatAnthropic. cbn [snd].
    destruct (fetch _) as [e|r]; [discriminate|].
    destruct (negb (ok r)); [discriminate|].
    destruct (response_json r) as [e|data]; [discriminate|]. cbn [bind].
    destruct (orTypeError (dot (Some data) "content")) as [e|v1];
      [discriminate|]. cbn [bind].
    destruct (orTypeError (idx0 v1)) as [e|v2]; [discriminate|].
    cbn [bind].
    destruct (orTypeError (dot v2 "text")) as [e|v3]; [discriminate|].
    cbn [bind]. intros H. inversion H. cbn [r_provider].
    split; [congruence|]. intros E. rewrite E in Eg. discriminate. }
  destruct (str_eqb (name p) (js "ollama")) eqn:Eo.
  { apply str_eqb_eq in Eo. unfold _chatOllama. cbn [snd].
    destruct (fetch _) as [e|r]; [discriminate|].
    destruct (negb (ok r)); [discriminate|].
    destruct (response_json r) as [e|data]; [discriminate|]. cbn [bind].
    destruct (orTypeError (dot (Some data) "message")) as [e|v1];
      [discriminate|]. cbn [bind].
    destruct (orTypeError (dot v1 "content")) as [e|v2]; [discriminate|].
    cbn [bind]. intros H. inversion H. cbn [r_provider].
    split; [congruence|]. intros E. rewrite E in Eg. discriminate. }
  unfold _chatOpenAICompatible. cbn [snd].
  destruct (fetch _) as [e|r]; [discriminate|].
  destruct (negb (ok r)); [discriminate|].
  destruct (response_json r) as [e|data]; [discriminate|]. cbn [bind].
  destruct (orTypeError (dot (Some data) "choices")) as [e|v1];
    [discriminate|]. cbn [bind].
  destruct (orTypeError (idx0 v1)) as [e|v2]; [discriminate|]. cbn [bind].
  destruct (orTypeError (dot v2 "message")) as [e|v3]; [discriminate|].
  cbn [bind].
  destruct (orTypeError (dot v3 "content")) as [e|v4]; [discriminate|].
  cbn [bind]. intros H. inversion H. cbn [r_provider].
  split; [reflexivity|]. intros E. rewrite E in Eg. discriminate.
Qed.

Lemma chat_result_names_its_provider_witness :
  let settings :=
    AiSettings (js "gemini")
      [ (js "gemini",
         ProviderSettings (Some (js "key")) (Some (js "gemini-2.0-flash"))
           (Some (js "https://generativelanguage.googleapis.com/v1beta")))
      ] in
  let fetch := fun _ : request =>
    Responds (Response true 200 []
                (Some (JObj [ (js "candidates", JArr []) ])) []) in
  let res := ChatResult (Some (JStr (js "No response generated.")))
               (Some (JStr (js "gemini-2.0-flash"))) (js "gemini") None in
  r_provider res = js "gemini" /\
  (js "gemini" = js "gemini" ->
   truthy (r_content res) = true /\
   r_model res = Some (JStr (js "gemini-2.0-flash"))).
Proof.
  intros settings fetch res.
  apply (@chat_result_names_its_provider fetch settings [] None res).
  reflexivity.
Defined.


(** ** The stream decoders: what reaches the callbacks *)

Section ChunkFacts.
Variable JSON_parse : str -> option json.
Variable dstate : Type.
Variable decode_byte : dstate -> N -> dstate * str.

Lemma openai_line_chunks (line : str) (c : jsval) :
  In (OnChunk c) (fst (openai_line JSON_parse line)) -> truthy c = true.
Proof. unfold openai_line. chunk_cases. Qed.

Lemma gemini_line_chunks (line : str) (c : jsval) :
  In (OnChunk c) (fst (gemini_line JSON_parse line)) -> truthy c = true.
Proof. unfold gemini_line. chunk_cases. Qed.

Lemma ollama_line_chunks (line : str) (c : jsval) :
  In (OnChunk c) (fst (ollama_line JSON_parse line)) -> truthy c = true.
Proof. unfold ollama_line. chunk_cases. Qed.

Lemma for_lines_events (handle : str -> list event * bool)
  (lines : list str) (ev : event) :
  In ev (fst (for_lines handle lines)) ->
  exists line, In ev (fst (handle line)).
Proof.
  induction lines as [|l lines IH]; simpl; [intros []|].
  destruct (handle l) as [ev0 returned] eqn:E.
  destruct returned; simpl.
  - intros H. exists l. now rewrite E.
  - destruct (for_lines handle lines) as [ev' returned']. simpl in *.
    intros H. apply in_app_or in H. destruct H as [H|H]; [|auto].
    exists l. now rewrite E.
Qed.

(** Every chunk that the loop passes on comes from a line. *)
Lemma read_loop_events (handle : str -> list event * bool) (c : jsval) :
  forall rs d buffer,
    In (OnChunk c) (read_loop decode_byte handle rs d buffer) ->
    exists line, In (OnChunk c) (fst (handle line)).
Proof.
  induction rs as [|[value|e] rs IH]; intros d buffer; simpl.
  - intros [H|[]]. discriminate.
  - destruct (decode decode_byte d value) as [d' decoded].
    destruct (for_lines handle _) as [ev returned] eqn:E.
    destruct returned.
    + intros H. apply (@for_lines_events handle
                         (removelast (split_nl (buffer ++ decoded)))).
      now rewrite E.
    + intros H. apply in_app_or in H. destruct H as [H|H]; [|eauto].
      apply (@for_lines_events handle
               (removelast (split_nl (buffer ++ decoded)))).
      now rewrite E.
  - intros [H|[]]. discriminate.
Qed.
End ChunkFacts.

(** X17.  On every path but the Anthropic one, a chunk that [chatStream]
    passes to [onChunk] is never undefined, null or the empty string. *)
Theorem stream_chunks_are_never_empty :
  forall (fetch : request -> fetch_result)
         (JSON_parse : str -> option json)
         (dstate : Type) (dinit : dstate)
         (decode_byte : dstate -> N -> dstate * str)
         (settings : aiSettings) (messages : list message)
         (providerName : option str) (c : jsval),
    name (getProviderConfig settings providerName) <> js "anthropic" ->
    In (OnChunk c)
       (snd (chatStream fetch JSON_parse dinit decode_byte settings
               messages providerName)) ->
    truthy c = true.
Proof.
  intros fetch JSON_parse dstate dinit decode_byte settings messages
    providerName c Hna.
  unfold chatStream.
  destruct (validateProvider _); [intros [H|[]]; discriminate|].
  rewrite (str_eqb_neq Hna).
  unfold _streamGemini, _streamOllama, _streamOpenAICompatible,
    decode_stream.
  repeat match goal with
         | |- context [if str_eqb ?a ?b then _ else _] =>
             destruct (str_eqb a b)
         end; cbn [snd];
    (destruct (fetch _) as [e|r]; [intros [H|[]]; discriminate|]);
    (destruct (negb (ok r)); [intros [H|[]]; discriminate|]);
    intros H; apply read_loop_events in H; destruct H as [line H].
  - eapply gemini_line_chunks, H.
  - eapply ollama_line_chunks, H.
  - eapply openai_line_chunks, H.
Qed.

Lemma stream_chunks_are_never_empty_witness :
  let r := Response true 200 [] None
             [ReadChunk (bytes (delta_line "A" ++ [nl]))] in
  truthy (Some (JStr (js "A"))) = true.
Proof.
  intros r.
  apply (@stream_chunks_are_never_empty (fun _ => Responds r)
           scenario_parse unit tt ascii_decoder default_settings []
           (Some (js "lmstudio")) (Some (JStr (js "A")))).
  - vm_compute. discriminate.
  - vm_compute. auto.
Defined.


Lemma complete_lines_no_nl (s : str) :
  ~ In nl s -> complete_lines s = [].
Proof.
  induction s as [|c s IH]; intros H; [reflexivity|].
  assert (Hc : is_nl c = false).
  { unfold is_nl. apply N.eqb_neq. intros ->. apply H. now left. }
  rewrite (@complete_lines_cons c s Hc), IH; [reflexivity|].
  intros Hin. apply H. now right.
Qed.

Lemma remainder_no_nl (s : str) : ~ In nl (remainder s).
Proof.
  induction s as [|c s IH]; [intros []|].
  destruct (is_nl c) eqn:Hc.
  - apply is_nl_true in Hc. subst c. now rewrite remainder_nl.
  - rewrite (@remainder_cons c s Hc).
    destruct (complete_lines s); [|assumption].
    intros [E|H]; [|contradiction].
    subst c. unfold is_nl in Hc. now rewrite N.eqb_refl in Hc.
Qed.

Section TailFacts.
Variable dstate : Type.
Variable decode_byte : dstate -> N -> dstate * str.

Lemma read_loop_tail (handle : str -> list event * bool) (value : list N) :
  (forall d, ~ In nl (snd (decode decode_byte d value))) ->
  forall rs d buffer,
    ~ In nl buffer ->
    read_loop decode_byte handle (rs ++ [ReadChunk value]) d buffer =
    read_loop decode_byte handle rs d buffer.
Proof.
  intros Hv. induction rs as [|[v|e] rs IH]; intros d buffer Hb.
  - simpl. pose proof (Hv d) as Hd.
    destruct (decode decode_byte d value) as [d' decoded]. simpl in Hd.
    change (removelast (split_nl (buffer ++ decoded)))
      with (complete_lines (buffer ++ decoded)).
    rewrite complete_lines_no_nl; [reflexivity|].
    intros H. apply in_app_or in H. tauto.
  - simpl. destruct (decode decode_byte d v) as [d' decoded].
    destruct (for_lines handle _) as [ev returned].
    destruct returned; [reflexivity|].
    f_equal. apply IH.
    apply (remainder_no_nl (buffer ++ decoded)).
  - reflexivity.
Qed.
End TailFacts.

(** X18.  A last line that is not ended by a newline is never handled:
    a final chunk whose text holds no newline changes nothing in what
    the callbacks receive, whichever of the four dialects is read. *)
Theorem unterminated_last_line_is_dropped :
  forall (dstate : Type) (dinit : dstate)
         (decode_byte : dstate -> N -> dstate * str)
         (handle : str -> list event * bool)
         (rs : list read_result) (value : list N),
    (forall d, ~ In nl (snd (decode decode_byte d value))) ->
    decode_stream dinit decode_byte handle (rs ++ [ReadChunk value]) =
    decode_stream dinit decode_byte handle rs.
Proof.
  intros dstate dinit decode_byte handle rs value Hv.
  unfold decode_stream. apply read_loop_tail; [assumption | intros []].
Qed.

Lemma unterminated_last_line_is_dropped_witness :
  let rs := [ReadChunk (bytes (delta_line "A" ++ [nl]))] in
  decode_stream tt ascii_decoder (openai_line scenario_parse)
    (rs ++ [ReadChunk (bytes (delta_line "B"))]) =
  decode_stream tt ascii_decoder (openai_line scenario_parse) rs.
Proof.
  intros rs.
  apply (@unterminated_last_line_is_dropped unit tt ascii_decoder
           (openai_line scenario_parse) rs (bytes (delta_line "B"))).
  intros []. vm_compute. intros H.
  repeat (destruct H as [H|H]; [discriminate H|]). exact H.
Defined.

(** ** Model listing *)

Lemma list_with_error (fetch : request -> fetch_result)
  (array_sort : list jsval -> list jsval) (req : request) (who : str)
  (extract : json -> attempt (list jsval)) (resp : response) :
  fetch req = Responds resp -> ok resp = false ->
  list_with fetch array_sort req who extract =
  inl (api_error who resp (firstn 200 (text resp))).
Proof. intros Hf Hok. unfold list_with. now rewrite Hf, Hok. Qed.

Lemma list_with_models (fetch : request -> fetch_result)
  (array_sort : list jsval -> list jsval) (req : request) (who : str)
  (extract : json -> attempt (list jsval)) (models : list jsval) :
  list_with fetch array_sort req who extract = inr models ->
  exists resp data l,
    fetch req = Responds resp /\ ok resp = true /\
    json_body resp = Some data /\
    extract data = inr l /\ models = sort array_sort l.
Proof.
  unfold list_with.
  destruct (fetch req) as [e|resp]; [discriminate|].
  destruct (ok resp) eqn:Hok; [|discriminate]. cbn [negb].
  unfold response_json.
  destruct (json_body resp) as [data|] eqn:Hj; [|discriminate]. cbn [bind].
  destruct (extract data) as [e|l] eqn:E; [discriminate|]. cbn [bind].
  intros H. inversion H. exists resp, data, l. auto 10.
Qed.

(** *** Sorting strings *)

Lemma str_leb_total (a : str) :
  forall b, str_leb a b = false -> str_leb b a = true.
Proof.
  induction a as [|x a IH]; intros [|y b]; simpl; try discriminate; auto.
  destruct (x <? y)%N eqn:E1; [discriminate|].
  destruct (y <? x)%N eqn:E2; [reflexivity|]. apply IH.
Qed.

Lemma place_permutation (x : str) (l : list str) :
  Permutation (place x l) (x :: l).
Proof.
  induction l as [|y l IH]; simpl; [apply Permutation_refl|].
  destruct (str_leb x y); [apply Permutation_refl|].
  eapply perm_trans; [apply perm_skip, IH | apply perm_swap].
Qed.

Lemma place_in_order (x : str) (l : list str) :
  Sorted (fun a b => str_leb a b = true) l ->
  Sorted (fun a b => str_leb a b = true) (place x l).
Proof.
  induction l as [|y l IH]; simpl; intros H.
  - repeat constructor.
  - destruct (str_leb x y) eqn:E.
    + constructor; [assumption | constructor; assumption].
    + inversion H as [|? ? Hs Hh]; subst.
      constructor; [auto|].
      destruct l as [|z l]; simpl.
      * constructor. now apply str_leb_total.
      * destruct (str_leb x z).
        -- constructor. now apply str_leb_total.
        -- inversion Hh; subst. constructor. assumption.
Qed.

Lemma sort_strings_spec (l : list str) :
  Permutation (sort_strings l) l /\
  Sorted (fun a b => str_leb a b = true) (sort_strings l).
Proof.
  unfold sort_strings. induction l as [|x l [IH1 IH2]]; simpl.
  - split; constructor.
  - split; [|now apply place_in_order].
    eapply perm_trans; [apply place_permutation | now apply perm_skip].
Qed.

Lemma strings_only_values (l : list str) :
  strings_only (map string_value l) = Some l.
Proof.
  induction l as [|x l IH]; simpl; [reflexivity|]. now rewrite IH.
Qed.

Lemma gemini_values (names : list str) :
  filter is_gemini (map string_value names) =
  map string_value (filter (startsWith (js "gemini")) names).
Proof.
  induction names as [|n names IH]; [reflexivity|].
  cbn [map filter]. unfold string_value at 1. cbn [is_gemini].
  destruct (startsWith (js "gemini") n); cbn [map]; now rewrite IH.
Qed.

(** What the Gemini branch reads off the listing: the name of every
    entry, a string, without its prefix. *)
Lemma gemini_names_of_the_listing (v : jsval) (xs : list jsval) :
  map_or_empty v gemini_model_name = inr xs ->
  exists names,
    Forall2 (fun m n => gemini_model_name m = inr (string_value n))
      (array_items v) names /\
    xs = map string_value names.
Proof.
  unfold map_or_empty.
  destruct (negb (truthy v)) eqn:Et.
  - intros H. inversion H. exists []. split; [|reflexivity].
    destruct v as [[| | | |items|]|]; simpl in *;
      try constructor; discriminate.
  - destruct v as [[| | | |items|]|]; try discriminate. cbn [array_items].
    clear Et. revert xs. induction items as [|m items IH]; intros xs.
    + simpl. intros H. inversion H. exists []. split; constructor.
    + cbn [fold_right].
      destruct (gemini_model_name m) as [e|x] eqn:Em; [discriminate|].
      cbn [bind].
      destruct (fold_right _ _ items) as [e|rest]; [discriminate|].
      cbn [bind]. intros H. inversion H. subst xs.
      destruct (IH rest eq_refl) as (names & HF & ->).
      assert (Hx : exists n, x = string_value n).
      { unfold gemini_model_name in Em.
        destruct (orTypeError (dot (Some m) "name")) as [e|n];
          [discriminate|]. cbn [bind] in Em.
        destruct n as [[| | |n| |]|]; try discriminate.
        inversion Em. eexists. reflexivity. }
      destruct Hx as [n ->].
      exists (n :: names). split; [constructor; assumption | reflexivity].
Qed.

(** X19.  [listModels] issues at most one request, a GET without a body,
    and none at all for Gemini without an API key; what the Gemini
    branch returns are the names of the entries of the listing in the
    response, each without its prefix, that start with gemini, all of
    them and no other, in the order of their code units; and an HTTP
    error status is reported with the status and the first 200
    characters of the body. *)
Theorem listModels_issues_at_most_one_GET :
  forall (fetch : request -> fetch_result)
         (array_sort : list jsval -> list jsval)
         (settings : aiSettings) (providerName : option str),
    let p := getProviderConfig settings providerName in
    let r := listModels fetch array_sort settings providerName in
    length (fst r) <= 1 /\
    (forall req, In req (fst r) ->
                 method req = js "GET" /\ body req = None) /\
    (name p = js "gemini" -> nonempty (apiKey p) = false ->
     r = ([], inl (Error (js "Gemini API key is required")))) /\
    (name p = js "gemini" -> forall models, snd r = inr models ->
     exists resp data names sorted,
       fetch (get (tpl (baseUrl p) ++ js "/models?key=" ++ tpl (apiKey p))
                []) = Responds resp /\
       ok resp = true /\ json_body resp = Some data /\
       Forall2 (fun m n => gemini_model_name m = inr (string_value n))
         (array_items (own "models" data)) names /\
       Permutation sorted (filter (startsWith (js "gemini")) names) /\
       Sorted (fun a b => str_leb a b = true) sorted /\
       models = map string_value sorted) /\
    (forall resp,
       (forall req, fetch req = Responds resp) -> ok resp = false ->
       fst r <> [] ->
       exists who,
         snd r = inl (api_error who resp (firstn 200 (text resp)))).
Proof.
  intros fetch array_sort settings providerName p r. subst r.
  unfold listModels. fold p.
  assert (Hone : forall req req' : request,
            In req' [req] -> req' = req).
  { intros req req' [<-|[]]. reflexivity. }
  destruct (str_eqb (name p) (js "openai") ||
            str_eqb (name p) (js "openrouter") ||
            str_eqb (name p) (js "lmstudio")) eqn:E1.
  { assert (Hng : name p <> js "gemini").
    { intros E. rewrite E in E1. discriminate. }
    destruct (list_with fetch array_sort _ _ _) as [err|models] eqn:EL;
      cbn [fst snd]; (split; [|split; [|split; [|split]]]);
      try (intros E; contradiction);
      try (intros req H; apply Hone in H; subst req; split; reflexivity);
      try (cbn [length]; lia).
    + intros resp Hf Hok _. exists (name p).
      rewrite (@list_with_error fetch array_sort _ _ _ resp (Hf _) Hok) in EL.
      inversion EL. now rewrite enrich_api_error_name.
    + intros resp Hf Hok _.
      rewrite (@list_with_error fetch array_sort _ _ _ resp (Hf _) Hok) in EL. discriminate. }
  destruct (str_eqb (name p) (js "anthropic")) eqn:E2.
  { assert (Hng : name p <> js "gemini").
    { intros E. rewrite E in E2. discriminate. }
    destruct (list_with fetch array_sort _ _ _) as [err|models] eqn:EL;
      cbn [fst snd]; (split; [|split; [|split; [|split]]]);
      try (intros E; contradiction);
      try (intros req H; apply Hone in H; subst req; split; reflexivity);
      try (cbn [length]; lia).
    + intros resp Hf Hok _. exists (js "Anthropic").
      rewrite (@list_with_error fetch array_sort _ _ _ resp (Hf _) Hok) in EL.
      inversion EL. rewrite enrich_api_error; [reflexivity|].
      intros _. exists 65%N, (js "nthropic").
      split; [reflexivity | discriminate].
    + intros resp Hf Hok _.
      rewrite (@list_with_error fetch array_sort _ _ _ resp (Hf _) Hok) in EL. discriminate. }
  destruct (str_eqb (name p) (js "gemini")) eqn:E3.
  { apply str_eqb_eq in E3.
    assert (Hl : isLocal p = false).
    { unfold isLocal. rewrite E3. reflexivity. }
    destruct (nonempty (apiKey p)); cbn [negb fst snd].
    - destruct (list_with fetch array_sort _ _ _) as [err|models] eqn:EL;
        cbn [fst snd]; (split; [|split; [|split; [|split]]]);
        try (intros _ H; discriminate);
        try (intros req H; apply Hone in H; subst req; split; reflexivity);
        try (cbn [length]; lia).
      + intros resp Hf Hok _. exists (js "Gemini").
        rewrite (@list_with_error fetch array_sort _ _ _ resp (Hf _) Hok) in EL.
        inversion EL. now rewrite enrich_not_local.
      + intros _ models' H. inversion H. subst models'.
        apply list_with_models in EL.
        destruct EL as (resp & data & l & Hf & Hok & Hj & El & ->).
        destruct (orTypeError (dot (Some data) "models")) as [e|v] eqn:Ev;
          [discriminate|]. cbn [bind] in El.
        destruct (map_or_empty v gemini_model_name) as [e|xs] eqn:Ex;
          [discriminate|]. cbn [bind] in El.
        inversion El. subst l.
        assert (Hv : v = own "models" data).
        { destruct data; simpl in Ev; inversion Ev; reflexivity. }
        subst v.
        destruct (gemini_names_of_the_listing _ Ex) as (names & HF & ->).
        destruct (sort_strings_spec
                    (filter (startsWith (js "gemini")) names))
          as [Hperm Hsorted].
        exists resp, data, names,
          (sort_strings (filter (startsWith (js "gemini")) names)).
        repeat (split; [assumption|]).
        unfold sort. now rewrite gemini_values, strings_only_values.
      + intros resp Hf Hok _.
        rewrite (@list_with_error fetch array_sort _ _ _ resp (Hf _) Hok) in EL. discriminate.
    - rewrite enrich_not_local by assumption.
      split; [|split; [|split; [|split]]].
      + auto.
      + intros req [].
      + reflexivity.
      + intros _ models H. discriminate.
      + intros resp _ _ H. exfalso. apply H. reflexivity. }
  assert (Hng : name p <> js "gemini").
  { intros E. rewrite E in E3. discriminate. }
  destruct (str_eqb (name p) (js "ollama")) eqn:E4.
  - destruct (list_with fetch array_sort _ _ _) as [err|models] eqn:EL;
      cbn [fst snd]; (split; [|split; [|split; [|split]]]);
      try (intros E; contradiction);
      try (intros req H; apply Hone in H; subst req; split; reflexivity);
      try (cbn [length]; lia).
    + intros resp Hf Hok _. exists (js "Ollama").
      rewrite (@list_with_error fetch array_sort _ _ _ resp (Hf _) Hok) in EL.
      inversion EL. now rewrite enrich_api_error_Ollama.
    + intros resp Hf Hok _.
      rewrite (@list_with_error fetch array_sort _ _ _ resp (Hf _) Hok) in EL. discriminate.
  - cbn [fst snd]. split; [|split; [|split; [|split]]].
    + auto.
    + intros req [].
    + intros E. contradiction.
    + intros E. contradiction.
    + intros resp _ _ H. exfalso. apply H. reflexivity.
Qed.

Lemma listModels_issues_at_most_one_GET_witness :
  listModels no_network (fun l => l) default_settings
    (Some (js "gemini")) =
  ([], inl (Error (js "Gemini API key is required"))).
Proof.
  apply (@listModels_issues_at_most_one_GET no_network (fun l => l)
           default_settings (Some (js "gemini"))); reflexivity.
Defined.


(** ** The run report of a finished run *)

Module ReportFacts.
Import Executor ExecutorNotions ExecutorFacts ExecutorMore Report.

Section Run.
Variable invoke : nat -> command -> outcome.
Variable now : nat -> Z.

Lemma final_steps_length (commands : list command) :
  forall i c0, length (final_steps invoke now i c0 commands) =
               length commands.
Proof.
  induction commands as [|cmd rest IH]; intros i c0; simpl; auto.
Qed.

Lemma final_steps_nth (commands : list command) :
  forall i c0 j cmd,
    nth_error commands j = Some cmd ->
    nth_error (final_steps invoke now i c0 commands) j =
    Some (merge (merge (Step (describeCommand cmd) pending None)
                   (Update running None None))
            (final_update invoke now (i + j) cmd (c0 + 2 * j))).
Proof.
  induction commands as [|cmd0 rest IH]; intros i c0 j cmd Hc.
  - destruct j; discriminate.
  - destruct j as [|j]; simpl in Hc.
    + inversion Hc; subst. simpl. now rewrite !Nat.add_0_r.
    + simpl. rewrite (IH (S i) (S (S c0)) j cmd Hc).
      do 3 f_equal; lia.
Qed.

(** The steps at the end of a run, in closed form. *)
Lemma steps_final (commands : list command) :
  steps (executeAutomationCommands invoke now commands) =
  final_steps invoke now 0 0 commands.
Proof.
  apply nth_error_ext. intros j. unfold executeAutomationCommands.
  destruct (nth_error commands j) as [cmd|] eqn:Hc.
  - rewrite (final_steps_nth commands 0 0 j Hc).
    apply (@run_from_step invoke now commands 0
             (State (initialSteps commands) 0 []) j cmd
             (Step (describeCommand cmd) pending None) Hc).
    simpl. unfold initialSteps. rewrite nth_error_map, Hc. reflexivity.
  - apply nth_error_None in Hc.
    transitivity (@None step); [|symmetry]; apply nth_error_None.
    + destruct (@run_from_exact invoke now commands 0
                  (State (initialSteps commands) 0 [])) as [_ ->].
      simpl. unfold initialSteps. now rewrite length_map.
    + now rewrite final_steps_length.
Qed.

Lemma final_status (i c0 : nat) (cmd : command) :
  st_status
    (merge (merge (Step (describeCommand cmd) pending None)
              (Update running None None))
       (final_update invoke now i cmd c0)) =
  if failsb (invoke i cmd) then error else done.
Proof.
  unfold final_update, failsb.
  destruct (invoke i cmd) as [e|m]; [destruct (has_error e)|]; reflexivity.
Qed.

Lemma final_duration (i c0 : nat) (cmd : command) :
  duration
    (merge (merge (Step (describeCommand cmd) pending None)
              (Update running None None))
       (final_update invoke now i cmd c0)) =
  Some (now (S c0) - now c0)%Z.
Proof.
  unfold final_update.
  destruct (invoke i cmd) as [e|m]; [destruct (has_error e)|]; reflexivity.
Qed.

Lemma final_counts (commands : list command) :
  forall i c0,
    let s := final_steps invoke now i c0 commands in
    failed s = failures_from invoke i commands /\
    completed s + failed s = length commands /\
    running_steps s = 0 /\ pending_steps s = 0.
Proof.
  unfold failed, completed, running_steps, pending_steps, count.
  induction commands as [|cmd rest IH]; intros i c0; [simpl; auto|].
  destruct (IH (S i) (S (S c0))) as (I1 & I2 & I3 & I4).
  cbn [final_steps filter failures_from]. rewrite !final_status.
  destruct (failsb (invoke i cmd)); cbn [status_eqb length];
    rewrite ?I1; repeat split; try assumption; try lia.
Qed.

Lemma fold_duration (l : list step) :
  forall a,
    fold_left
      (fun sum s =>
         (sum + match duration s with Some d => d | None => 0 end)%Z) l a =
    (a + totalDuration l)%Z.
Proof.
  unfold totalDuration.
  induction l as [|s l IH]; intros a; simpl; [lia|].
  rewrite IH, (IH (match duration s with Some d => d | None => 0%Z end)).
  lia.
Qed.

Lemma final_total (commands : list command) :
  (forall a b, a <= b -> (now a <= now b)%Z) ->
  forall i c0,
    commands <> [] ->
    (0 <= totalDuration (final_steps invoke now i c0 commands)
       <= now (c0 + 2 * length commands - 1) - now c0)%Z.
Proof.
  intros Hmono.
  induction commands as [|cmd rest IH]; intros i c0 Hne; [congruence|].
  cbn [final_steps]. unfold totalDuration. cbn [fold_left].
  rewrite fold_duration, final_duration.
  pose proof (Hmono c0 (S c0)).
  destruct rest as [|cmd' rest].
  - cbn [final_steps length]. unfold totalDuration at 1 2. cbn [fold_left].
    replace (c0 + 2 * 1 - 1) with (S c0) by lia. lia.
  - specialize (IH (S i) (S (S c0))).
    replace (c0 + 2 * length (cmd :: cmd' :: rest) - 1)
      with (S (S c0) + 2 * length (cmd' :: rest) - 1) by (simpl; lia).
    pose proof (Hmono (S c0) (S (S c0))).
    assert (Hne' : cmd' :: rest <> []) by discriminate.
    specialize (IH Hne'). lia.
Qed.
End Run.

(** X20.  When a run has ended the report counts every step as finished:
    done and failed steps add up to the number of commands, none is
    left pending or running, the failed ones are as many as the calls
    that failed, and, with a clock that never runs backwards, the total
    duration is at most the time between the first and the last reading
    of the clock. *)
Theorem report_of_a_finished_run :
  forall (invoke : nat -> command -> outcome) (now : nat -> Z)
         (commands : list command),
    let s := steps (executeAutomationCommands invoke now commands) in
    total s = length commands /\
    completed s + failed s = total s /\
    running_steps s = 0 /\ pending_steps s = 0 /\
    failed s = failures_from invoke 0 commands /\
    ((forall a b, a <= b -> (now a <= now b)%Z) ->
     (0 <= totalDuration s <= now (2 * length commands - 1)%nat - now 0%nat)%Z).
Proof.
  intros invoke now commands s. subst s. rewrite steps_final.
  destruct (@final_counts invoke now commands 0 0) as (H1 & H2 & H3 & H4).
  unfold total. rewrite final_steps_length.
  repeat split; try assumption;
    (destruct commands as [|cmd rest];
     [unfold totalDuration; simpl; lia|];
     apply (@final_total invoke now (cmd :: rest) H 0 0); discriminate).
Qed.

Lemma report_of_a_finished_run_witness :
  let invoke := fun (i : nat) (_ : command) =>
    if Nat.eqb i 1 then Throws (js "boom") else Returns None in
  let now := fun n : nat => (100 * Z.of_nat n)%Z in
  let commands := [Wait 5; Press (js "Enter"); Scroll 300] in
  let s := steps (executeAutomationCommands invoke now commands) in
  (0 <= totalDuration s <= now (2 * length commands - 1)%nat - now 0%nat)%Z.
Proof.
  intros invoke now commands s.
  apply (@report_of_a_finished_run invoke now commands).
  intros a b H. unfold now. lia.
Defined.

End ReportFacts.


(** ** Editing the steps of an automation *)

Module AutomationsTabFacts.
Import AutomationsTab.

Lemma assign_length (v : option command) :
  forall cmds i, i < length cmds -> length (assign cmds i v) = length cmds.
Proof.
  induction cmds as [|e cmds IH]; intros i Hi; simpl in Hi; [lia|].
  destruct i as [|i]; simpl; [reflexivity|]. rewrite IH; [reflexivity|lia].
Qed.

Lemma assign_nth (v : option command) :
  forall cmds i j, i < length cmds ->
    nth_error (assign cmds i v) j =
    if Nat.eqb j i then Some v else nth_error cmds j.
Proof.
  induction cmds as [|e cmds IH]; intros i j Hi; simpl in Hi; [lia|].
  destruct i as [|i], j as [|j]; simpl; try reflexivity.
  apply IH. lia.
Qed.

Lemma entry_map (commands : list command) (i : nat) :
  Some (entry (map Some commands) i) =
  match nth_error commands i with
  | Some c => Some (Some c)
  | None => Some None
  end.
Proof.
  unfold entry. rewrite nth_error_map.
  destruct (nth_error commands i); reflexivity.
Qed.

(** A move within the list exchanges two entries. *)
Lemma moveStep_nth (commands : list command) (index : nat)
  (direction : Z) :
  let target := (Z.of_nat index + direction)%Z in
  index < length commands ->
  (0 <= target < Z.of_nat (length commands))%Z ->
  length (moveStep commands index direction) = length commands /\
  forall j,
    nth_error (moveStep commands index direction) j =
    nth_error (map Some commands) (exchange index (Z.to_nat target) j).
Proof.
  intros target Hi Ht. unfold moveStep. fold target.
  rewrite length_map.
  replace ((target <? 0)%Z || (Z.of_nat (length commands) <=? target)%Z)
    with false
    by (symmetry; apply orb_false_iff; split;
        [apply Z.ltb_ge | apply Z.leb_gt]; lia).
  set (t := Z.to_nat target).
  assert (Htl : t < length commands) by (unfold t; lia).
  assert (Hl1 : length (assign (map Some commands) index
                          (entry (map Some commands) t)) =
                length commands).
  { rewrite assign_length; rewrite length_map; [reflexivity | assumption]. }
  split.
  - rewrite assign_length; [assumption | now rewrite Hl1].
  - intros j. rewrite assign_nth by now rewrite Hl1.
    rewrite assign_nth by now rewrite length_map.
    unfold exchange.
    destruct (Nat.eqb j t) eqn:Ejt.
    + rewrite entry_map, nth_error_map.
      destruct (nth_error commands index) eqn:E; [reflexivity|].
      apply nth_error_None in E. lia.
    + destruct (Nat.eqb j index) eqn:Eji; [|reflexivity].
      rewrite entry_map, nth_error_map.
      destruct (nth_error commands t) eqn:E; [reflexivity|].
      apply nth_error_None in E. lia.
Qed.

Lemma exchange_involutive (i t j : nat) :
  exchange i t (exchange i t j) = j.
Proof.
  unfold exchange.
  destruct (Nat.eqb j t) eqn:E1; [apply Nat.eqb_eq in E1|
                                  apply Nat.eqb_neq in E1].
  - subst j. destruct (Nat.eqb i t) eqn:E2.
    + now apply Nat.eqb_eq in E2.
    + now rewrite Nat.eqb_refl.
  - destruct (Nat.eqb j i) eqn:E2; [apply Nat.eqb_eq in E2|
                                    apply Nat.eqb_neq in E2].
    + subst j. now rewrite Nat.eqb_refl.
    + rewrite (proj2 (Nat.eqb_neq _ _) E1), (proj2 (Nat.eqb_neq _ _) E2).
      reflexivity.
Qed.

Lemma exchange_sym (i t j : nat) : exchange i t j = exchange t i j.
Proof.
  unfold exchange.
  destruct (Nat.eqb j t) eqn:E1, (Nat.eqb j i) eqn:E2; try reflexivity.
  apply Nat.eqb_eq in E1, E2. congruence.
Qed.

Lemma exchange_bound (i t j n : nat) :
  i < n -> t < n -> (exchange i t j < n <-> j < n).
Proof.
  intros Hi Ht. unfold exchange.
  destruct (Nat.eqb j t) eqn:E1; [apply Nat.eqb_eq in E1; lia|].
  destruct (Nat.eqb j i) eqn:E2; [apply Nat.eqb_eq in E2; lia|].
  reflexivity.
Qed.

Lemma all_some (r : list (option command)) :
  (forall j, j < length r -> exists c, nth_error r j = Some (Some c)) ->
  exists l, r = map Some l.
Proof.
  induction r as [|o r IH]; intros H.
  - exists []. reflexivity.
  - destruct (H 0) as [c Hc]; [simpl; lia|]. simpl in Hc.
    inversion Hc; subst o.
    destruct IH as [l ->].
    + intros j Hj. apply (H (S j)). simpl. lia.
    + exists (c :: l). reflexivity.
Qed.

Lemma filter_from_remove (l : list command) :
  forall i n,
    filter_from i (fun k => negb (Nat.eqb k (i + n))) l =
    firstn n l ++ skipn (S n) l.
Proof.
  induction l as [|x l IH]; intros i n.
  - simpl. now destruct n.
  - cbn [filter_from]. destruct n as [|n].
    + rewrite Nat.add_0_r, Nat.eqb_refl. cbn [negb firstn skipn app].
      clear IH. revert i.
      assert (G : forall k i, i < k ->
                filter_from k (fun j => negb (Nat.eqb j i)) l = l).
      { induction l as [|y l IHl]; intros k i Hk; simpl; [reflexivity|].
        rewrite (proj2 (Nat.eqb_neq k i)) by lia. simpl.
        rewrite IHl by lia. reflexivity. }
      intros i. apply G. lia.
    + rewrite (proj2 (Nat.eqb_neq i (i + S n))) by lia. cbn [negb].
      replace (i + S n) with (S i + n) by lia. rewrite IH. reflexivity.
Qed.

Lemma map_from_nth (f : command -> nat -> command) (l : list command) :
  forall i j,
    nth_error (map_from i f l) j =
    option_map (fun cmd => f cmd (i + j)) (nth_error l j).
Proof.
  induction l as [|x l IH]; intros i j.
  - simpl. now destruct j.
  - destruct j as [|j]; simpl.
    + now rewrite Nat.add_0_r.
    + rewrite IH. now replace (S i + j) with (i + S j) by lia.
Qed.

(** X21.  Moving a step loses nothing: the steps afterwards are the same
    steps in another order, none of them undefined; a move past either
    end changes nothing; and moving a step down and then up again gives
    the list back. *)
Theorem moveStep_keeps_every_step :
  forall (commands : list command) (index : nat) (direction : Z),
    index < length commands ->
    (exists cmds,
       moveStep commands index direction = map Some cmds /\
       Permutation commands cmds) /\
    ((Z.of_nat index + direction < 0)%Z \/
     (Z.of_nat (length commands) <= Z.of_nat index + direction)%Z ->
     moveStep commands index direction = map Some commands) /\
    (forall cmds,
       S index < length commands ->
       moveStep commands index 1 = map Some cmds ->
       moveStep cmds (S index) (-1) = map Some commands).
Proof.
  intros commands index direction Hi. split; [|split].
  - set (target := (Z.of_nat index + direction)%Z).
    destruct (Z_lt_dec target 0) as [Hlo|Hlo];
      [|destruct (Z_le_dec (Z.of_nat (length commands)) target)
          as [Hhi|Hhi]].
    + exists commands. split; [|apply Permutation_refl].
      unfold moveStep. fold target.
      now rewrite (proj2 (Z.ltb_lt _ _) Hlo).
    + exists commands. split; [|apply Permutation_refl].
      unfold moveStep. fold target. rewrite length_map.
      rewrite (proj2 (Z.leb_le _ _) Hhi). now rewrite orb_true_r.
    + destruct (@moveStep_nth commands index direction Hi) as [Hl Hn];
        [fold target; lia|]. fold target in Hn.
      assert (Ht : Z.to_nat target < length commands) by lia.
      destruct (all_some (moveStep commands index direction)) as [l El].
      { intros j Hj. rewrite Hn, nth_error_map. rewrite Hl in Hj.
        apply (@exchange_bound index (Z.to_nat target) j _ Hi Ht) in Hj.
        destruct (nth_error commands _) as [c|] eqn:E;
          [exists c; reflexivity|].
        apply nth_error_None in E. lia. }
      exists l. split; [assumption|].
      apply Permutation_nth_error. split.
      * rewrite El, length_map in Hl. now symmetry.
      * exists (exchange index (Z.to_nat target)). split.
        -- intros a b E.
           rewrite <- (exchange_involutive index (Z.to_nat target) a),
             <- (exchange_involutive index (Z.to_nat target) b).
           now rewrite E.
        -- intros j. specialize (Hn j).
           rewrite El, !nth_error_map in Hn.
           destruct (nth_error l j), (nth_error commands _);
             simpl in Hn; congruence.
  - intros Hout. unfold moveStep. rewrite length_map.
    destruct Hout as [H|H].
    + now rewrite (proj2 (Z.ltb_lt _ _) H).
    + rewrite (proj2 (Z.leb_le _ _) H). now rewrite orb_true_r.
  - intros cmds Hs E.
    destruct (@moveStep_nth commands index 1 Hi) as [Hl Hn]; [lia|].
    rewrite E, length_map in Hl.
    destruct (@moveStep_nth cmds (S index) (-1)) as [Hl' Hn'];
      [lia | lia |].
    apply nth_error_ext. intros j.
    rewrite Hn', <- E, Hn.
    replace (Z.to_nat (Z.of_nat (S index) + -1)) with index by lia.
    replace (Z.to_nat (Z.of_nat index + 1)) with (S index) by lia.
    f_equal. rewrite (exchange_sym (S index) index).
    apply exchange_involutive.
Qed.

Lemma moveStep_keeps_every_step_witness :
  let commands := [Navigate (js "a"); Wait 5; Press (js "Enter")] in
  exists cmds,
    moveStep commands 1 (-1) = map Some cmds /\ Permutation commands cmds.
Proof.
  intros commands.
  apply (@moveStep_keeps_every_step commands 1 (-1)).
  simpl. lia.
Defined.

(** X22.  Removing a step removes the step at that position and nothing
    else: the steps before it and after it stay, in their order; an
    index that is no position of the list removes nothing. *)
Theorem removeStep_removes_one_step :
  forall (commands : list command) (index : nat),
    removeStep commands index =
      firstn index commands ++ skipn (S index) commands /\
    (index < length commands ->
     S (length (removeStep commands index)) = length commands) /\
    (length commands <= index -> removeStep commands index = commands).
Proof.
  intros commands index.
  assert (E : removeStep commands index =
              firstn index commands ++ skipn (S index) commands).
  { unfold removeStep. apply (filter_from_remove commands 0 index). }
  split; [assumption|]. rewrite E. split.
  - intros H. rewrite length_app, length_firstn, length_skipn. lia.
  - intros H. rewrite firstn_all2 by assumption.
    rewrite skipn_all2 by lia. apply app_nil_r.
Qed.

Lemma removeStep_removes_one_step_witness :
  let commands := [Navigate (js "a"); Wait 5; Press (js "Enter")] in
  S (length (removeStep commands 1)) = length commands.
Proof.
  intros commands.
  apply (@removeStep_removes_one_step commands 1). simpl. lia.
Defined.

(** X23.  A blank command has the type that was asked for, and a click
    for a type that is not in the list; changing the type of a step
    replaces that step alone, and adding a step appends one. *)
Theorem blank_commands_have_the_type_asked_for :
  forall (commands : list command) (index : nat) (type : str),
    (In type COMMAND_TYPES ->
     command_type (createBlankCommand type) = type) /\
    (~ In type COMMAND_TYPES -> createBlankCommand type = Click 0 0) /\
    (forall j,
       nth_error (changeStepType commands index type) j =
       if Nat.eqb j index
       then option_map (fun _ => createBlankCommand type)
              (nth_error commands j)
       else nth_error commands j) /\
    addStep commands (Some type) = commands ++ [createBlankCommand type] /\
    addStep commands None = commands ++ [Navigate []].
Proof.
  intros commands index type. split; [|split; [|split; [|split]]].
  - unfold COMMAND_TYPES. intros H.
    repeat (destruct H as [<-|H]; [reflexivity|]). destruct H.
  - intros H. unfold createBlankCommand.
    repeat match goal with
           | |- context [str_eqb type ?s] =>
               let E := fresh "E" in
               destruct (str_eqb type s) eqn:E;
               [apply str_eqb_eq in E; exfalso; apply H; subst type;
                unfold COMMAND_TYPES; simpl; tauto|]
           end.
    reflexivity.
  - intros j. unfold changeStepType. rewrite map_from_nth. simpl.
    destruct (Nat.eqb j index); destruct (nth_error commands j);
      reflexivity.
  - reflexivity.
  - reflexivity.
Qed.

Lemma blank_commands_have_the_type_asked_for_witness :
  command_type (createBlankCommand (js "wait")) = js "wait".
Proof.
  apply (@blank_commands_have_the_type_asked_for [] 0 (js "wait")).
  unfold COMMAND_TYPES. simpl. tauto.
Defined.

End AutomationsTabFacts.


(** ** The page side of WAIT and PRESS *)

(** X24.  A parsed WAIT never sleeps for a negative time or for more
    than ten seconds: the handler waits for the delay that was written
    when it is at most 10000 ms, and for 10000 ms otherwise. *)
Theorem parsed_wait_is_capped :
  forall (text : str) (ms : number),
    In (Wait ms) (parseCommands text) ->
    (exists d : Z,
       wait_delay (Some ms) = Finite d /\ (0 <= d <= 10000)%Z) /\
    (number_leb ms (Finite 10000) = true -> wait_delay (Some ms) = ms) /\
    (number_leb ms (Finite 10000) = false ->
     wait_delay (Some ms) = Finite 10000).
Proof.
  intros text ms H.
  assert (H0 : not_negative ms).
  { apply (@unsigned_args_nonneg text (Wait ms) ms H). now left. }
  unfold wait_delay, Math_min.
  destruct ms as [z| |]; simpl in H0; [|simpl|contradiction].
  - destruct H0 as [H0 _]. cbn [number_leb].
    destruct (z <=? 10000)%Z eqn:E.
    + apply Z.leb_le in E. split; [exists z; split; [reflexivity | lia]|].
      split; [reflexivity | discriminate].
    + split; [exists 10000%Z; split; [reflexivity | lia]|].
      split; [discriminate | reflexivity].
  - split; [exists 10000%Z; split; [reflexivity | lia]|].
    split; [discriminate | reflexivity].
Qed.

Lemma parsed_wait_is_capped_witness :
  exists d : Z,
    wait_delay (Some (Finite 60000)) = Finite d /\ (0 <= d <= 10000)%Z.
Proof.
  apply (@parsed_wait_is_capped (js "WAIT(60000)") (Finite 60000)).
  vm_compute. auto.
Defined.

(** X25.  The modifier mask of [pressKey] has one bit for each modifier,
    set exactly when the modifier is listed under one of its names:
    bit 0 for alt, bit 1 for ctrl or control, bit 2 for meta or cmd,
    bit 3 for shift; no other bit is ever set, and neither the order nor
    the repetition of the names matters. *)
Theorem modifier_flags_are_four_bits :
  forall (modifiers : list str),
    Z.testbit (modifierFlags modifiers) 0 = has_modifier "alt" modifiers /\
    Z.testbit (modifierFlags modifiers) 1 =
      (has_modifier "ctrl" modifiers || has_modifier "control" modifiers) /\
    Z.testbit (modifierFlags modifiers) 2 =
      (has_modifier "meta" modifiers || has_modifier "cmd" modifiers) /\
    Z.testbit (modifierFlags modifiers) 3 = has_modifier "shift" modifiers /\
    (0 <= modifierFlags modifiers < 16)%Z.
Proof.
  intros modifiers. unfold modifierFlags.
  destruct (has_modifier "shift" modifiers),
    (has_modifier "ctrl" modifiers || has_modifier "control" modifiers),
    (has_modifier "alt" modifiers),
    (has_modifier "meta" modifiers || has_modifier "cmd" modifiers);
    cbv; intuition congruence.
Qed.


(** ** The parser: code fences *)

Lemma fence_block_needs_backtick (c : char) (s : str) :
  c <> bt -> match_here re_fence_block (c :: s) = None.
Proof.
  intros H. unfold match_here, re_fence_block, lit. simpl.
  destruct (N.eqb_spec c 96); [contradiction | reflexivity].
Qed.

Lemma star_lazy_skip (A : Type) (p : char -> bool) (k : str -> option A)
  (r : str) :
  (forall x t, x <> bt -> k (x :: t) = None) ->
  forall X, ~ In bt X -> forallb p X = true ->
            star_lazy p k (X ++ r) = star_lazy p k r.
Proof.
  intros Hk. induction X as [|x X IH]; intros Hn Hp; [reflexivity|].
  simpl in Hp. apply andb_true_iff in Hp. destruct Hp as [Hx Hp].
  change ((x :: X) ++ r) with (x :: (X ++ r)). cbn [star_lazy].
  rewrite Hk by (intros E; apply Hn; left; congruence).
  rewrite Hx. apply IH; [|assumption].
  intros Hin. apply Hn. now right.
Qed.

Lemma star_lazy_here (A : Type) (p : char -> bool) (k : str -> option A)
  (r : str) (a : A) :
  k r = Some a -> star_lazy p k r = Some a.
Proof. intros H. destruct r; simpl; rewrite H; reflexivity. Qed.

Lemma star_greedy_run (A : Type) (p : char -> bool) (k : str -> option A)
  (r : str) (a : A) :
  star_greedy p k r = Some a ->
  forall X, forallb p X = true -> star_greedy p k (X ++ r) = Some a.
Proof.
  intros Hr. induction X as [|x X IH]; intros Hp; [assumption|].
  simpl in Hp. apply andb_true_iff in Hp. destruct Hp as [Hx Hp].
  change ((x :: X) ++ r) with (x :: (X ++ r)). cbn [star_greedy].
  rewrite Hx, (IH Hp). reflexivity.
Qed.

Lemma forallb_any (X : str) : forallb any_char X = true.
Proof. induction X; simpl; auto. Qed.

Lemma firstn_prefix (a b : str) :
  firstn (length (a ++ b) - length b) (a ++ b) = a.
Proof.
  rewrite length_app, Nat.add_sub, firstn_app, Nat.sub_diag, firstn_all.
  simpl. apply app_nil_r.
Qed.

(** A fenced block is matched as a whole, up to its first closing
    marker. *)
Lemma fence_block_match (X after : str) :
  ~ In bt X ->
  match_here re_fence_block (fence ++ X ++ fence ++ after) =
  Some (Found (fence ++ X ++ fence) after []).
Proof.
  intros HX. unfold match_here.
  assert (Hk : (fun (s' : str) (caps : list str) =>
                  Some (Found
                          (firstn (length (fence ++ X ++ fence ++ after) -
                                   length s')
                             (fence ++ X ++ fence ++ after)) s' caps))
               after [] = Some (Found (fence ++ X ++ fence) after [])).
  { cbv beta. do 2 f_equal.
    replace (fence ++ X ++ fence ++ after)
      with ((fence ++ X ++ fence) ++ after)
      by (rewrite <- !app_assoc; reflexivity).
    apply firstn_prefix. }
  revert Hk. generalize (fun (s' : str) (caps : list str) =>
                  Some (Found
                          (firstn (length (fence ++ X ++ fence ++ after) -
                                   length s')
                             (fence ++ X ++ fence ++ after)) s' caps)).
  intros kf Hk. unfold re_fence_block, lit. simpl.
  rewrite star_lazy_skip; [|intros x t Hx| assumption | apply forallb_any].
  - apply star_lazy_here. simpl. exact Hk.
  - simpl. destruct (N.eqb_spec x 96); [contradiction | reflexivity].
Qed.

Lemma is_word_not_backtick (lang : str) :
  forallb is_word lang = true -> ~ In bt lang.
Proof.
  intros H Hin. rewrite forallb_forall in H. apply H in Hin.
  vm_compute in Hin. discriminate.
Qed.

Lemma fence_open_match (lang r : str) :
  forallb is_word lang = true ->
  exec re_fence_open (fence ++ lang ++ nl :: r) =
  Some ([], Found (fence ++ lang ++ [nl]) r []).
Proof.
  intros Hl.
  assert (E : match_here re_fence_open (fence ++ lang ++ nl :: r) =
              Some (Found (fence ++ lang ++ [nl]) r [])).
  { unfold match_here.
    assert (Hk : (fun (s' : str) (caps : list str) =>
                    Some (Found
                            (firstn (length (fence ++ lang ++ nl :: r) -
                                     length s')
                               (fence ++ lang ++ nl :: r)) s' caps))
                 r [] = Some (Found (fence ++ lang ++ [nl]) r [])).
    { cbv beta. do 2 f_equal.
      replace (fence ++ lang ++ nl :: r)
        with ((fence ++ lang ++ [nl]) ++ r)
        by (rewrite <- !app_assoc; reflexivity).
      apply firstn_prefix. }
    revert Hk. generalize (fun (s' : str) (caps : list str) =>
                    Some (Found
                            (firstn (length (fence ++ lang ++ nl :: r) -
                                     length s')
                               (fence ++ lang ++ nl :: r)) s' caps)).
    intros kf Hk. unfold re_fence_open, lit. simpl.
    apply star_greedy_run; [|assumption].
    simpl. rewrite Hk. reflexivity. }
  change (fence ++ lang ++ nl :: r)
    with (bt :: ([bt; bt] ++ lang ++ nl :: r)) in *.
  cbn [exec]. rewrite E. reflexivity.
Qed.


Lemma fence_close_match (body : str) :
  ~ In bt body ->
  exec re_fence (body ++ fence) = Some (body, Found fence [] []).
Proof.
  induction body as [|c body IH]; intros H; [reflexivity|].
  change ((c :: body) ++ fence) with (c :: (body ++ fence)).
  cbn [exec].
  assert (E : match_here re_fence (c :: body ++ fence) = None).
  { unfold match_here, re_fence, lit. simpl.
    destruct (N.eqb_spec c 96); [|reflexivity].
    exfalso. apply H. left. assumption. }
  rewrite E, IH; [reflexivity|].
  intros Hin. apply H. now right.
Qed.

(** What [unfence] leaves of a block: the text between the line of the
    opening marker and the closing marker. *)
Lemma unfence_block (lang body : str) :
  forallb is_word lang = true -> ~ In bt body ->
  unfence (fence ++ (lang ++ nl :: body) ++ fence) = body.
Proof.
  intros Hl Hb. unfold unfence.
  replace (fence ++ (lang ++ nl :: body) ++ fence)
    with (fence ++ lang ++ nl :: (body ++ fence))
    by (rewrite <- !app_assoc; reflexivity).
  unfold replace_first at 2. rewrite (@fence_open_match lang (body ++ fence) Hl).
  cbn [matched rest app].
  unfold replace_first. rewrite (@fence_close_match body Hb).
  cbn [matched rest]. now rewrite !app_nil_r.
Qed.

Lemma replace_all_fenced (before lang body after : str) :
  ~ In bt before -> forallb is_word lang = true ->
  ~ In bt body -> ~ In bt after ->
  replace_all re_fence_block unfence
    (before ++ fence ++ (lang ++ nl :: body) ++ fence ++ after) =
  before ++ body ++ after.
Proof.
  intros Hbe Hl Hb Ha. unfold replace_all.
  induction before as [|c before IH].
  - cbn [app].
    assert (HX : ~ In bt (lang ++ nl :: body)).
    { intros Hin. apply in_app_or in Hin. destruct Hin as [Hin|[E|Hin]].
      - now apply (@is_word_not_backtick lang).
      - discriminate.
      - contradiction. }
    rewrite (@replace_all_from_some re_fence_block unfence _ _
               (@fence_block_match (lang ++ nl :: body) after HX))
      by discriminate.
    cbn [matched rest]. rewrite (@unfence_block lang body Hl Hb). f_equal.
    now apply replace_all_no_fence.
  - change ((c :: before) ++
            fence ++ (lang ++ nl :: body) ++ fence ++ after)
      with (c :: (before ++
                  fence ++ (lang ++ nl :: body) ++ fence ++ after)).
    rewrite replace_all_from_none.
    + cbn [app]. f_equal. apply IH. intros Hin. apply Hbe. now right.
    + apply fence_block_needs_backtick. intros E. apply Hbe. left.
      assumption.
Qed.

(** X26.  Commands inside a code fence are parsed as if the fence were
    not there: in a text with one fenced block and no other backtick,
    the opening marker with its language tag and line end, and the
    closing marker, are dropped and the rest is parsed as it stands. *)
Theorem fenced_commands_are_parsed :
  forall (before lang body after : str),
    ~ In bt before -> forallb is_word lang = true ->
    ~ In bt body -> ~ In bt after ->
    parseCommands
      (before ++ fence ++ (lang ++ nl :: body) ++ fence ++ after) =
    parseCommands (before ++ body ++ after).
Proof.
  intros before lang body after Hbe Hl Hb Ha.
  rewrite !parseCommands_lines.
  rewrite (@replace_all_fenced before lang body after Hbe Hl Hb Ha).
  rewrite replace_all_no_fence; [reflexivity|].
  intros Hin. apply in_app_or in Hin. destruct Hin as [Hin|Hin];
    [contradiction|].
  apply in_app_or in Hin. destruct Hin; contradiction.
Qed.

Lemma fenced_commands_are_parsed_witness :
  parseCommands
    (js "Plan:" ++ [nl] ++ fence ++
     (js "text" ++ nl :: js "CLICK(10, 20)" ++ [nl]) ++ fence ++ []) =
  parseCommands ((js "Plan:" ++ [nl]) ++ (js "CLICK(10, 20)" ++ [nl]) ++ []).
Proof.
  apply (@fenced_commands_are_parsed (js "Plan:" ++ [nl]) (js "text")
           (js "CLICK(10, 20)" ++ [nl]) []).
  - vm_compute. intros H. repeat (destruct H as [H|H]; [discriminate H|]).
    exact H.
  - reflexivity.
  - vm_compute. intros H. repeat (destruct H as [H|H]; [discriminate H|]).
    exact H.
  - intros [].
Defined.

(** ** Cleaning, then parsing: fenced blocks *)

Lemma startsWith_fence_cons (c : char) (s : str) :
  startsWith fence (c :: s) = true -> c = bt.
Proof.
  unfold fence. cbn [startsWith]. intros H.
  apply andb_true_iff in H. destruct H as [H _].
  apply N.eqb_eq in H. now symmetry.
Qed.

Lemma calm_app (x y t : str) :
  calm (x ++ y) t = calm x (y ++ t) && calm y t.
Proof.
  induction x as [|c x IH]; [reflexivity|].
  change ((c :: x) ++ y) with (c :: (x ++ y)). cbn [calm].
  rewrite IH. change (c :: x ++ y) with ((c :: x) ++ y).
  rewrite <- !app_assoc. now rewrite andb_assoc.
Qed.

Lemma calm_no_backtick (x t : str) :
  ~ In bt x -> calm x t = true.
Proof.
  induction x as [|c x IH]; intros H; [reflexivity|]. cbn [calm].
  rewrite IH by (intros Hin; apply H; now right).
  rewrite andb_true_r. apply negb_true_iff.
  destruct (startsWith fence ((c :: x) ++ t)) eqn:E; [|reflexivity].
  apply startsWith_fence_cons in E. exfalso. apply H. now left.
Qed.

(** What follows a calm text matters by its first code unit only. *)
Lemma startsWith_fence_tail (s t u : str) :
  s <> [] ->
  match t with c :: _ => c <> bt | [] => True end ->
  match u with c :: _ => c <> bt | [] => True end ->
  startsWith fence (s ++ t) = startsWith fence (s ++ u).
Proof.
  intros Hs Ht Hu. unfold fence.
  destruct s as [|c1 [|c2 [|c3 s]]]; [congruence|..]; cbn [app startsWith].
  - destruct t as [|x t], u as [|y u]; cbn [startsWith];
      rewrite ?andb_false_r; try reflexivity.
    + rewrite (proj2 (N.eqb_neq bt y)) by congruence.
      now rewrite andb_false_r.
    + rewrite (proj2 (N.eqb_neq bt x)) by congruence.
      now rewrite andb_false_r.
    + rewrite (proj2 (N.eqb_neq bt x)), (proj2 (N.eqb_neq bt y))
        by congruence. reflexivity.
  - destruct t as [|x t], u as [|y u]; cbn [startsWith];
      rewrite ?andb_false_r; try reflexivity.
    + rewrite (proj2 (N.eqb_neq bt y)) by congruence.
      now rewrite !andb_false_r.
    + rewrite (proj2 (N.eqb_neq bt x)) by congruence.
      now rewrite !andb_false_r.
    + rewrite (proj2 (N.eqb_neq bt x)), (proj2 (N.eqb_neq bt y))
        by congruence. reflexivity.
  - reflexivity.
Qed.

Lemma calm_tail (s t u : str) :
  match t with c :: _ => c <> bt | [] => True end ->
  match u with c :: _ => c <> bt | [] => True end ->
  calm s t = calm s u.
Proof.
  intros Ht Hu. induction s as [|c s IH]; [reflexivity|]. cbn [calm].
  rewrite IH. f_equal. f_equal.
  apply startsWith_fence_tail; [discriminate | assumption..].
Qed.

Lemma calm_includes (s : str) : calm s [] = negb (includes fence s).
Proof.
  induction s as [|c s IH]; [reflexivity|].
  cbn [calm includes]. rewrite IH, app_nil_r.
  now rewrite negb_orb.
Qed.

(** *** The three patterns of the fence removal *)

Lemma lit_fence_needs_fence (A : Type) (s : str) (caps : list str)
  (k : cont A) :
  startsWith fence s = false -> rmatch (lit "```") s caps k = None.
Proof.
  unfold lit, fence. simpl.
  destruct s as [|c1 s]; [reflexivity|].
  destruct (N.eqb_spec c1 96); [subst|reflexivity].
  destruct s as [|c2 s]; [reflexivity|].
  destruct (N.eqb_spec c2 96); [subst|reflexivity].
  destruct s as [|c3 s]; [reflexivity|].
  destruct (N.eqb_spec c3 96); [subst|reflexivity].
  discriminate.
Qed.

Lemma fence_block_needs_fence (s : str) :
  startsWith fence s = false -> match_here re_fence_block s = None.
Proof.
  intros H. unfold match_here, re_fence_block.
  cbn [rmatch]. now apply lit_fence_needs_fence.
Qed.

Lemma fence_needs_fence (s : str) :
  startsWith fence s = false -> match_here re_fence s = None.
Proof.
  intros H. unfold match_here, re_fence. now apply lit_fence_needs_fence.
Qed.

(** A calm text is copied. *)
Lemma replace_all_calm (fn : str -> str) (x t : str) :
  calm x t = true ->
  replace_all_from re_fence_block fn 0 (x ++ t) =
  x ++ replace_all_from re_fence_block fn 0 t.
Proof.
  induction x as [|c x IH]; intros H; [reflexivity|].
  cbn [calm] in H. apply andb_true_iff in H. destruct H as [H1 H2].
  apply negb_true_iff in H1.
  rewrite replace_all_from_none by now apply fence_block_needs_fence.
  cbn [app]. f_equal. now apply IH.
Qed.

Lemma star_lazy_calm (A : Type) (k : str -> option A) (t : str) :
  (forall s, startsWith fence s = false -> k s = None) ->
  forall X, calm X t = true ->
            star_lazy any_char k (X ++ t) = star_lazy any_char k t.
Proof.
  intros Hk. induction X as [|x X IH]; intros H; [reflexivity|].
  cbn [calm] in H. apply andb_true_iff in H. destruct H as [H1 H2].
  apply negb_true_iff in H1.
  change ((x :: X) ++ t) with (x :: (X ++ t)). cbn [star_lazy].
  change (x :: X ++ t) with ((x :: X) ++ t). rewrite (Hk _ H1).
  unfold any_char at 1. now apply IH.
Qed.

Lemma star_lazy_never (A : Type) (k : str -> option A) :
  (forall s, startsWith fence s = false -> k s = None) ->
  forall X, calm X [] = true -> star_lazy any_char k X = None.
Proof.
  intros Hk. induction X as [|x X IH]; intros H.
  - simpl. now rewrite Hk.
  - cbn [calm] in H. apply andb_true_iff in H. destruct H as [H1 H2].
    apply negb_true_iff in H1. rewrite app_nil_r in H1.
    cbn [star_lazy]. rewrite (Hk _ H1). unfold any_char at 1. now apply IH.
Qed.

Lemma lit_fence_here (A : Type) (s : str) (caps : list str)
  (k : cont A) :
  rmatch (lit "```") (fence ++ s) caps k = k s caps.
Proof. reflexivity. Qed.

(** A marker that no other follows opens no block. *)
Lemma fence_block_unclosed (X : str) :
  calm X [] = true -> match_here re_fence_block (fence ++ X) = None.
Proof.
  intros H. unfold match_here, re_fence_block. cbn [rmatch].
  rewrite lit_fence_here. cbn [rmatch].
  apply star_lazy_never; [|assumption].
  intros s Hs. now apply lit_fence_needs_fence.
Qed.

(** A block runs from a marker to the next one. *)
Lemma fence_block_found (X after : str) :
  calm X (fence ++ after) = true ->
  match_here re_fence_block (fence ++ X ++ fence ++ after) =
  Some (Found (fence ++ X ++ fence) after []).
Proof.
  intros HX. unfold match_here.
  assert (Hk : (fun (s' : str) (caps : list str) =>
                  Some (Found
                          (firstn (length (fence ++ X ++ fence ++ after) -
                                   length s')
                             (fence ++ X ++ fence ++ after)) s' caps))
               after [] = Some (Found (fence ++ X ++ fence) after [])).
  { cbv beta. do 2 f_equal.
    replace (fence ++ X ++ fence ++ after)
      with ((fence ++ X ++ fence) ++ after)
      by (rewrite <- !app_assoc; reflexivity).
    apply firstn_prefix. }
  revert Hk. generalize (fun (s' : str) (caps : list str) =>
                  Some (Found
                          (firstn (length (fence ++ X ++ fence ++ after) -
                                   length s')
                             (fence ++ X ++ fence ++ after)) s' caps)).
  intros kf Hk. unfold re_fence_block. cbn [rmatch].
  rewrite lit_fence_here. cbn [rmatch].
  rewrite star_lazy_calm; [| |assumption].
  - apply star_lazy_here. rewrite lit_fence_here. exact Hk.
  - intros s Hs. now apply lit_fence_needs_fence.
Qed.

Lemma fence_open_plain (tag : str) (c : char) (r : str) :
  forallb is_word tag = true -> is_word c = false -> c <> nl ->
  exec re_fence_open (fence ++ tag ++ c :: r) =
  Some ([], Found (fence ++ tag) (c :: r) []).
Proof.
  intros Hl Hc Hn.
  assert (E : match_here re_fence_open (fence ++ tag ++ c :: r) =
              Some (Found (fence ++ tag) (c :: r) [])).
  { unfold match_here.
    assert (Hk : (fun (s' : str) (caps : list str) =>
                    Some (Found
                            (firstn (length (fence ++ tag ++ c :: r) -
                                     length s')
                               (fence ++ tag ++ c :: r)) s' caps))
                 (c :: r) [] = Some (Found (fence ++ tag) (c :: r) [])).
    { cbv beta. do 2 f_equal.
      replace (fence ++ tag ++ c :: r)
        with ((fence ++ tag) ++ c :: r)
        by (rewrite <- !app_assoc; reflexivity).
      apply firstn_prefix. }
    revert Hk. generalize (fun (s' : str) (caps : list str) =>
                    Some (Found
                            (firstn (length (fence ++ tag ++ c :: r) -
                                     length s')
                               (fence ++ tag ++ c :: r)) s' caps)).
    intros kf Hk. unfold re_fence_open. cbn [rmatch].
    rewrite lit_fence_here. cbn [rmatch].
    apply star_greedy_run; [|assumption].
    cbn [star_greedy]. rewrite Hc. cbn [rmatch].
    rewrite (proj2 (N.eqb_neq c nl) Hn). exact Hk. }
  change (fence ++ tag ++ c :: r)
    with (bt :: ([bt; bt] ++ tag ++ c :: r)) in *.
  cbn [exec]. rewrite E. reflexivity.
Qed.

Lemma fence_close_found (body : str) :
  calm body fence = true ->
  exec re_fence (body ++ fence) = Some (body, Found fence [] []).
Proof.
  induction body as [|c body IH]; intros H; [reflexivity|].
  cbn [calm] in H. apply andb_true_iff in H. destruct H as [H1 H2].
  apply negb_true_iff in H1.
  change ((c :: body) ++ fence) with (c :: (body ++ fence)) in *.
  cbn [exec]. rewrite (fence_needs_fence _ H1), (IH H2). reflexivity.
Qed.

(** What the replacement leaves of a block: the text between its
    markers, without the tag and without the newline when that follows the
    tag at once. *)
Lemma unfence_newline (tag body : str) :
  forallb is_word tag = true -> calm body fence = true ->
  unfence (fence ++ (tag ++ nl :: body) ++ fence) = body.
Proof.
  intros Hl Hb. unfold unfence.
  replace (fence ++ (tag ++ nl :: body) ++ fence)
    with (fence ++ tag ++ nl :: (body ++ fence))
    by (rewrite <- !app_assoc; reflexivity).
  unfold replace_first at 2.
  rewrite (@fence_open_match tag (body ++ fence) Hl).
  cbn [matched rest app].
  unfold replace_first. rewrite (fence_close_found _ Hb).
  cbn [matched rest]. now rewrite !app_nil_r.
Qed.

Lemma unfence_plain (tag body : str) :
  forallb is_word tag = true ->
  match body with c :: _ => is_word c = false /\ c <> nl | [] => True end ->
  calm body fence = true ->
  unfence (fence ++ (tag ++ body) ++ fence) = body.
Proof.
  intros Hl Hc Hb. unfold unfence.
  assert (E : exists c r, body ++ fence = c :: r /\
                          is_word c = false /\ c <> nl).
  { destruct body as [|c body].
    - exists bt, [bt; bt]. repeat split. discriminate.
    - exists c, (body ++ fence). destruct Hc. auto. }
  destruct E as (c & r & E & Hw & Hn).
  replace (fence ++ (tag ++ body) ++ fence) with (fence ++ tag ++ c :: r)
    by (rewrite <- E, <- !app_assoc; reflexivity).
  unfold replace_first at 2.
  rewrite (@fence_open_plain tag c r Hl Hw Hn).
  cbn [matched rest app]. rewrite <- E.
  unfold replace_first. rewrite (fence_close_found _ Hb).
  cbn [matched rest]. now rewrite !app_nil_r.
Qed.

(** *** Character classes *)

Lemma is_space_not_word (c : char) : is_space c = true -> is_word c = false.
Proof.
  intros Hs. destruct (is_word c) eqn:Hw; [exfalso | reflexivity].
  unfold is_word in Hw. unfold is_space in Hs.
  rewrite !orb_true_iff, !andb_true_iff, !N.leb_le, !N.eqb_eq in Hw.
  rewrite !orb_true_iff, !andb_true_iff, !N.leb_le, !N.eqb_eq in Hs.
  lia.
Qed.

Lemma spaces_have_no (c : char) (a : str) :
  is_space c = false -> forallb is_space a = true -> ~ In c a.
Proof.
  intros Hc Ha Hin. rewrite forallb_forall in Ha. apply Ha in Hin.
  congruence.
Qed.

Lemma words_have_no (c : char) (a : str) :
  is_word c = false -> forallb is_word a = true -> ~ In c a.
Proof.
  intros Hc Ha Hin. rewrite forallb_forall in Ha. apply Ha in Hin.
  congruence.
Qed.

Lemma not_in_app (c : char) (x y : str) :
  ~ In c x -> ~ In c y -> ~ In c (x ++ y).
Proof. intros Hx Hy H. apply in_app_or in H. tauto. Qed.

(** *** Lines *)

Lemma quiet_app (x y : str) : ~ In bt x -> quiet y -> quiet (x ++ y).
Proof.
  destruct x as [|c x]; [auto|]. intros H _ E. apply H. left. now symmetry.
Qed.

Lemma calm_line (l t : str) :
  calm l [nl] = true -> quiet t -> calm l t = true.
Proof.
  intros H Ht. rewrite <- H. apply calm_tail; [assumption | discriminate].
Qed.

Lemma tail_text_app (a b : list str) :
  tail_text (a ++ b) = tail_text a ++ tail_text b.
Proof. unfold tail_text. apply flat_map_app. Qed.

Lemma tail_text_quiet (ls : list str) (t : str) :
  quiet t -> quiet (tail_text ls ++ t).
Proof. destruct ls; [auto | discriminate]. Qed.

Lemma tail_text_starts (ls : list str) : quiet (tail_text ls).
Proof. destruct ls; [exact I | discriminate]. Qed.

Lemma join_tail (l : str) (ls : list str) :
  join_nl (l :: ls) = l ++ tail_text ls.
Proof.
  revert l. induction ls as [|x ls IH]; intros l.
  - simpl. now rewrite app_nil_r.
  - change (join_nl (l :: x :: ls)) with (l ++ nl :: join_nl (x :: ls)).
    rewrite IH. reflexivity.
Qed.

Lemma calm_lines (mid : list str) (t : str) :
  Forall (fun l => calm l [nl] = true) mid -> quiet t ->
  calm (tail_text mid) t = true.
Proof.
  intros HF Ht. induction HF as [|l mid Hl _ IH]; [reflexivity|].
  change (tail_text (l :: mid)) with ((nl :: l) ++ tail_text mid).
  rewrite calm_app, IH, andb_true_r.
  change (nl :: l) with ([nl] ++ l). rewrite calm_app.
  rewrite calm_no_backtick by (intros [E|[]]; discriminate).
  apply calm_line; [assumption|]. now apply tail_text_quiet.
Qed.

Lemma calm_two_backticks (X : str) : quiet X -> calm [bt; bt] X = true.
Proof.
  intros H. destruct X as [|c X]; [reflexivity|]. simpl in H.
  cbn [calm app]. unfold fence. cbn [startsWith].
  rewrite (proj2 (N.eqb_neq bt c)) by congruence.
  now rewrite !andb_false_r.
Qed.

Import Fences.

Lemma no_marker (r : list fline) :
  existsb is_marker r = false -> exists mid, r = map Plain mid.
Proof.
  induction r as [|x r IH]; intros H.
  - exists []. reflexivity.
  - cbn [existsb] in H. apply orb_false_iff in H. destruct H as [Hx Hr].
    destruct (IH Hr) as [mid ->]. destruct x as [l|a tag b];
      [|discriminate]. exists (l :: mid). reflexivity.
Qed.

Lemma first_marker (r : list fline) :
  existsb is_marker r = true ->
  exists mid a tag b r', r = map Plain mid ++ Marker a tag b :: r'.
Proof.
  induction r as [|x r IH]; intros H; [discriminate|].
  destruct x as [l|a tag b].
  - cbn [existsb is_marker orb] in H.
    destruct (IH H) as (mid & a & tag & b & r' & ->).
    exists (l :: mid), a, tag, b, r'. reflexivity.
  - exists [], a, tag, b, r. reflexivity.
Qed.

Lemma unfenced_inside (mid : list str) (a tag b : str)
  (r : list fline) :
  unfenced true (map Plain mid ++ Marker a tag b :: r) =
  mid ++ (a ++ tag ++ b) :: unfenced false r.
Proof.
  induction mid as [|l mid IH]; [reflexivity|].
  cbn [map app unfenced]. now rewrite IH.
Qed.

Lemma plain_texts (mid : list str) : map fline_text (map Plain mid) = mid.
Proof. rewrite map_map. apply map_id. Qed.

Lemma well_formed_plains (mid : list str) :
  Forall well_formed (map Plain mid) ->
  Forall (fun l => calm l [nl] = true) mid.
Proof.
  intros H. rewrite Forall_forall in *. intros l Hl.
  exact (proj1 (H (Plain l) (in_map Plain _ _ Hl))).
Qed.

(** The replacement, line by line. *)
Lemma replace_all_lines :
  forall n ls,
    length ls <= n -> Forall well_formed ls ->
    replace_all_from re_fence_block unfence 0
      (tail_text (map fline_text ls)) =
    tail_text (unfenced false ls).
Proof.
  induction n as [|n IH]; intros ls Hn HF.
  { destruct ls; [reflexivity | simpl in Hn; lia]. }
  destruct ls as [|x r]; [reflexivity|].
  inversion HF as [|? ? Hx Hr]; subst. simpl in Hn.
  destruct x as [l|a tag b].
  - destruct Hx as [Hl _].
    cbn [map unfenced fline_text].
    change (tail_text (l :: map fline_text r))
      with ((nl :: l) ++ tail_text (map fline_text r)).
    change (tail_text (l :: unfenced false r))
      with ((nl :: l) ++ tail_text (unfenced false r)).
    rewrite replace_all_calm.
    + f_equal. apply IH; [lia | assumption].
    + change (nl :: l) with ([nl] ++ l). rewrite calm_app.
      rewrite calm_no_backtick by (intros [E|[]]; discriminate).
      apply calm_line; [assumption|].
      apply tail_text_starts.
  - destruct Hx as (Ha & Hb & Ht & Hna & Hnb).
    assert (Ba : ~ In bt a) by now apply spaces_have_no.
    assert (Bb : ~ In bt b) by now apply spaces_have_no.
    assert (Bt : ~ In bt tag) by now apply words_have_no.
    cbn [unfenced].
    destruct (existsb is_marker r) eqn:Em.
    + destruct (@first_marker _ Em) as (mid & a' & tag' & b' & r' & ->).
      apply Forall_app in Hr. destruct Hr as [Hmid Hr].
      inversion Hr as [|? ? Hx' Hr']; subst.
      destruct Hx' as (Ha' & Hb' & Ht' & Hna' & Hnb').
      assert (Ba' : ~ In bt a') by now apply spaces_have_no.
      assert (Bb' : ~ In bt b') by now apply spaces_have_no.
      assert (Bt' : ~ In bt tag') by now apply words_have_no.
      apply well_formed_plains in Hmid.
      rewrite unfenced_inside.
      set (after := tag' ++ b' ++ tail_text (map fline_text r')).
      set (U := unfenced false r').
      assert (HU : replace_all_from re_fence_block unfence 0 after =
                   tag' ++ b' ++ tail_text U).
      { unfold after. rewrite app_assoc, replace_all_calm.
        - rewrite <- app_assoc. do 2 f_equal. apply IH; [|assumption].
          rewrite length_app in Hn. simpl in Hn. lia.
        - apply calm_no_backtick. now apply not_in_app. }
      set (X := tag ++ b ++ tail_text mid ++ nl :: a').
      assert (Etext : tail_text
                        (map fline_text
                           (Marker a tag b
                            :: map Plain mid ++ Marker a' tag' b' :: r')) =
                      (nl :: a) ++ fence ++ X ++ fence ++ after).
      { cbn [map]. rewrite map_app, plain_texts. cbn [map fline_text].
        change (tail_text ((a ++ fence ++ tag ++ b)
                           :: mid ++ (a' ++ fence ++ tag' ++ b')
                              :: map fline_text r'))
          with ((nl :: a ++ fence ++ tag ++ b) ++
                tail_text (mid ++ (a' ++ fence ++ tag' ++ b')
                                  :: map fline_text r')).
        rewrite tail_text_app.
        change (tail_text ((a' ++ fence ++ tag' ++ b')
                           :: map fline_text r'))
          with ((nl :: a' ++ fence ++ tag' ++ b') ++
                tail_text (map fline_text r')).
        unfold X, after. cbn [app]. repeat rewrite <- app_assoc.
        reflexivity. }
      rewrite Etext.
      assert (HX : calm X (fence ++ after) = true).
      { unfold X. rewrite !calm_app.
        rewrite (@calm_no_backtick tag _ Bt), (@calm_no_backtick _ _ Bb).
        change (nl :: a') with ([nl] ++ a'). rewrite calm_app.
        rewrite (calm_no_backtick [nl]) by (intros [E|[]]; discriminate).
        rewrite (@calm_no_backtick a' _ Ba').
        rewrite calm_lines; [reflexivity | assumption | discriminate]. }
      rewrite replace_all_calm
        by (apply calm_no_backtick; intros [E|Hin];
            [discriminate | contradiction]).
      rewrite (@replace_all_from_some re_fence_block unfence _ _
                 (@fence_block_found X after HX)) by discriminate.
      cbn [matched rest]. rewrite HU.
      destruct b as [|c b0].
      * (* the newline goes with the opening marker *)
        assert (EX : exists body,
                   X = tag ++ nl :: body /\ calm body fence = true /\
                   tail_text (glue a (mid ++ (a' ++ tag' ++ b') :: U)) =
                   (nl :: a) ++ body ++ tag' ++ b' ++ tail_text U).
        { unfold X. destruct mid as [|l1 mid'].
          - exists a'. cbn [app tail_text flat_map glue].
            split; [reflexivity|]. split; [now apply calm_no_backtick|].
            repeat rewrite <- app_assoc. reflexivity.
          - exists (l1 ++ tail_text mid' ++ nl :: a').
            inversion Hmid as [|? ? Hl1 Hmid']; subst.
            split.
            { change (tail_text (l1 :: mid'))
                with ((nl :: l1) ++ tail_text mid').
              cbn [app]. now rewrite <- app_assoc. }
            split.
            + rewrite !calm_app.
              change (nl :: a') with ([nl] ++ a'). rewrite calm_app.
              rewrite (calm_no_backtick [nl])
                by (intros [E|[]]; discriminate).
              rewrite (@calm_no_backtick a' _ Ba').
              rewrite (@calm_lines _ _ Hmid') by discriminate.
              rewrite calm_line; [reflexivity | assumption |].
              rewrite <- app_assoc. apply tail_text_quiet. discriminate.
            + cbn [app glue].
              change (tail_text ((a ++ l1)
                                 :: mid' ++ (a' ++ tag' ++ b') :: U))
                with ((nl :: a ++ l1) ++
                      tail_text (mid' ++ (a' ++ tag' ++ b') :: U)).
              rewrite tail_text_app.
              change (tail_text ((a' ++ tag' ++ b') :: U))
                with ((nl :: a' ++ tag' ++ b') ++ tail_text U).
              cbn [app]. repeat rewrite <- app_assoc. reflexivity. }
        destruct EX as (body & -> & Hbody & ->).
        rewrite (@unfence_newline _ _ Ht Hbody).
        repeat rewrite <- app_assoc. reflexivity.
      * assert (Hc : is_space c = true /\ c <> nl).
        { cbn [forallb] in Hb. apply andb_true_iff in Hb.
          split; [tauto|]. intros ->. apply Hnb. now left. }
        assert (Hbody : calm ((c :: b0) ++ tail_text mid ++ nl :: a') fence
                        = true).
        { rewrite !calm_app.
          rewrite (@calm_no_backtick _ _ Bb).
          change (nl :: a') with ([nl] ++ a'). rewrite calm_app.
          rewrite (calm_no_backtick [nl]) by (intros [E|[]]; discriminate).
          rewrite (@calm_no_backtick a' _ Ba').
          rewrite calm_lines; [reflexivity | assumption | discriminate]. }
        unfold X.
        rewrite (@unfence_plain tag
                   ((c :: b0) ++ tail_text mid ++ nl :: a') Ht);
          [| split; [now apply is_space_not_word | tauto] | assumption].
        change (tail_text ((a ++ c :: b0)
                           :: mid ++ (a' ++ tag' ++ b') :: U))
          with ((nl :: a ++ c :: b0) ++
                tail_text (mid ++ (a' ++ tag' ++ b') :: U)).
        rewrite tail_text_app.
        change (tail_text ((a' ++ tag' ++ b') :: U))
          with ((nl :: a' ++ tag' ++ b') ++ tail_text U).
        cbn [app]. repeat rewrite <- app_assoc. reflexivity.
    + destruct (@no_marker _ Em) as [mid ->].
      apply well_formed_plains in Hr.
      set (X := tag ++ b ++ tail_text mid).
      assert (Etext : tail_text
                        (map fline_text (Marker a tag b :: map Plain mid)) =
                      (nl :: a) ++ fence ++ X).
      { cbn [map]. rewrite plain_texts. cbn [fline_text].
        change (tail_text ((a ++ fence ++ tag ++ b) :: mid))
          with ((nl :: a ++ fence ++ tag ++ b) ++ tail_text mid).
        unfold X. cbn [app]. repeat rewrite <- app_assoc. reflexivity. }
      rewrite Etext.
      assert (HX : calm X [] = true).
      { unfold X. rewrite !calm_app.
        rewrite (@calm_no_backtick tag _ Bt), (@calm_no_backtick _ _ Bb).
        rewrite calm_lines; [reflexivity | assumption | exact I]. }
      assert (QX : quiet X).
      { unfold X. apply quiet_app; [assumption|].
        apply quiet_app; [assumption|].
        apply tail_text_starts. }
      rewrite replace_all_calm
        by (apply calm_no_backtick; intros [E|Hin];
            [discriminate | contradiction]).
      f_equal.
      rewrite replace_all_from_none by now apply fence_block_unclosed.
      change (fence ++ X) with (bt :: ([bt; bt] ++ X)). f_equal.
      assert (Hnil : replace_all_from re_fence_block unfence 0 [] = [])
        by reflexivity.
      rewrite <- (app_nil_r ([bt; bt] ++ X)) at 1.
      rewrite replace_all_calm, Hnil, app_nil_r; [reflexivity|].
      rewrite calm_app, app_nil_r, HX, andb_true_r.
      now apply calm_two_backticks.
Qed.

(** *** Lines that cannot hold a command *)

Lemma den_demands (c : char) (r : regex) :
  forall w caps, den r w caps -> demands c r = true -> In c w.
Proof.
  induction r; intros w caps D H; simpl in *; try discriminate.
  - destruct D as [-> _]. apply N.eqb_eq in H. now left.
  - destruct D as (w1 & w2 & c1 & c2 & -> & _ & D1 & D2).
    apply in_or_app. apply orb_true_iff in H.
    destruct H; [left; eapply IHr1 | right; eapply IHr2]; eauto.
  - apply andb_true_iff in H. destruct H. destruct D; eauto.
  - destruct D as (inner & _ & D). eauto.
Qed.

Lemma every_pattern_demands_a_parenthesis :
  forallb (fun p : pattern => demands 40%N (fst p)) patterns_in_source_order
  = true.
Proof. vm_compute. reflexivity. Qed.

Lemma parse_line_needs_parenthesis (l : str) :
  ~ In 40%N l -> parse_line l = None.
Proof.
  intros H. destruct (parse_line l) as [c|] eqn:E; [exfalso | reflexivity].
  rewrite parse_line_first_match in E.
  apply first_match_inv in E. destruct E as (p & m & Hin & Hm & _).
  pose proof every_pattern_demands_a_parenthesis as Hall.
  rewrite forallb_forall in Hall. specialize (Hall p Hin).
  unfold jsmatch in Hm.
  destruct (exec (fst p) (trim l)) as [[pre f]|] eqn:Ex; [|discriminate].
  simpl in Hm. inversion Hm; subst m.
  apply exec_sound in Ex. destruct Ex as [Es D].
  apply H. apply In_trim. rewrite Es.
  apply in_or_app. right. apply in_or_app. left.
  eapply den_demands; eauto.
Qed.

Lemma dropWhile_parts (f : char -> bool) (s : str) :
  exists a, s = a ++ dropWhile f s /\ forallb f a = true.
Proof.
  induction s as [|c s (a & E & Ha)]; [exists []; auto|].
  simpl. destruct (f c) eqn:Hc.
  - exists (c :: a). simpl. rewrite Hc, <- E. auto.
  - exists []. auto.
Qed.

Lemma trim_parts (l : str) :
  exists a b, l = a ++ trim l ++ b /\
    forallb is_space a = true /\ forallb is_space b = true.
Proof.
  unfold trim, trimStart.
  destruct (dropWhile_parts is_space l) as (a & Ea & Ha).
  set (x := dropWhile is_space l) in *. unfold trimEnd.
  destruct (dropWhile_parts is_space (rev x)) as (b & Eb & Hb).
  exists a, (rev b). split; [|split].
  - rewrite <- rev_app_distr, <- Eb, rev_involutive. exact Ea.
  - exact Ha.
  - rewrite forallb_forall in *. intros c Hc. apply Hb.
    now apply in_rev.
Qed.

Lemma trim_space_prefix (a l : str) :
  forallb is_space a = true -> trim (a ++ l) = trim l.
Proof.
  induction a as [|c a IH]; [reflexivity|]. cbn [forallb app].
  intros H. apply andb_true_iff in H. destruct H as [Hc Ha].
  rewrite trim_cons_space by assumption. auto.
Qed.

Lemma nl_free_iff (l : str) :
  forallb (fun c => negb (is_nl c)) l = true <-> ~ In nl l.
Proof.
  rewrite forallb_forall. unfold is_nl. split.
  - intros H Hin. specialize (H nl Hin). discriminate.
  - intros H c Hc. apply negb_true_iff. apply N.eqb_neq.
    intros ->. contradiction.
Qed.

(** What holds of every line of [unfenced]: it holds of the lines that go
    through, of what is left of a marker, and it survives white space put
    in front. *)
Lemma unfenced_Forall (R : str -> Prop) :
  (forall a tag b, well_formed (Marker a tag b) -> R (a ++ tag ++ b)) ->
  (forall a l, forallb is_space a = true -> ~ In nl a -> R l ->
     R (a ++ l)) ->
  forall ls inside,
    Forall well_formed ls -> Forall (fun x => R (fline_text x)) ls ->
    Forall R (unfenced inside ls).
Proof.
  intros Hm Hs. induction ls as [|x r IH]; intros inside Hw Hr;
    [constructor|].
  inversion Hw as [|? ? Hx Hw']; subst.
  inversion Hr as [|? ? Rx Hr']; subst.
  destruct x as [l|a tag b]; cbn [unfenced].
  - constructor; [exact Rx | now apply IH].
  - destruct inside.
    + constructor; [now apply Hm | now apply IH].
    + destruct (existsb is_marker r).
      * pose proof Hx as (Ha & Hb & Ht & Hna & Hnb).
        destruct b as [|c b0].
        -- specialize (IH true Hw' Hr').
           destruct (unfenced true r) as [|l rest]; cbn [glue].
           ++ constructor; [|constructor].
              rewrite <- (app_nil_r a).
              apply (Hm a [] []). simpl. auto.
           ++ inversion IH; subst. constructor; [|assumption].
              now apply Hs.
        -- constructor; [|now apply IH].
           apply (Hm a [] (c :: b0)). simpl. simpl in Hb. auto.
      * change (Forall R (map fline_text (Marker a tag b :: r))).
        apply Forall_forall. intros l Hl. apply in_map_iff in Hl.
        destruct Hl as (x & <- & Hin). rewrite Forall_forall in Hr.
        now apply Hr.
Qed.

Lemma unfenced_starts (ls : list fline) :
  ls <> [] -> unfenced false ls <> [].
Proof.
  destruct ls as [|x r]; [congruence|]. intros _.
  destruct x as [l|a tag b]; cbn [unfenced]; [discriminate|].
  destruct (existsb is_marker r); [|discriminate].
  destruct b; [|discriminate].
  destruct (unfenced true r); discriminate.
Qed.

Lemma replace_all_join (ls : list fline) :
  ls <> [] -> Forall well_formed ls ->
  replace_all re_fence_block unfence (join_nl (map fline_text ls)) =
  join_nl (unfenced false ls).
Proof.
  intros Hne Hw. pose proof (@unfenced_starts ls Hne) as Hu.
  pose proof (@replace_all_lines (length ls) ls (le_n _) Hw) as H.
  destruct ls as [|x r]; [congruence|].
  destruct (unfenced false (x :: r)) as [|y ys]; [congruence|].
  cbn [map] in *.
  change (tail_text (fline_text x :: map fline_text r))
    with ([nl] ++ fline_text x ++ tail_text (map fline_text r)) in H.
  change (tail_text (y :: ys)) with (nl :: y ++ tail_text ys) in H.
  rewrite <- !join_tail in H.
  rewrite replace_all_calm in H
    by (apply calm_no_backtick; intros [E|[]]; discriminate).
  injection H as H. exact H.
Qed.

(** A line of the cleaned text, read as plain text or as a marker. *)
Lemma classify_line (l : str) :
  ~ In nl l ->
  (includes fence (trim l) = true -> fence_line l = true) ->
  exists x, fline_text x = l /\ well_formed x.
Proof.
  intros Hnl Hf. destruct (trim_parts l) as (a & b & E & Ha & Hb).
  assert (Hna : ~ In nl a).
  { intros H. apply Hnl. rewrite E. apply in_or_app. now left. }
  assert (Hnb : ~ In nl b).
  { intros H. apply Hnl. rewrite E. apply in_or_app. right.
    apply in_or_app. now right. }
  assert (Ba : ~ In bt a) by now apply spaces_have_no.
  assert (Bb : ~ In bt b) by now apply spaces_have_no.
  destruct (includes fence (trim l)) eqn:Ei.
  - specialize (Hf eq_refl). unfold fence_line in Hf.
    apply andb_true_iff in Hf. destruct Hf as [Hs Ht].
    exists (Marker a (skipn 3 (trim l)) b). split.
    + cbn [fline_text]. etransitivity; [|symmetry; exact E]. f_equal.
      rewrite app_assoc. f_equal.
      destruct (trim l) as [|c1 [|c2 [|c3 t]]]; cbn [startsWith] in Hs;
        try discriminate.
      * unfold fence in Hs. cbn [startsWith] in Hs.
        rewrite andb_false_r in Hs. discriminate.
      * unfold fence in Hs. cbn [startsWith] in Hs.
        rewrite !andb_false_r in Hs. discriminate.
      * unfold fence in *. cbn [startsWith] in Hs.
        apply andb_true_iff in Hs. destruct Hs as [H1 Hs].
        apply andb_true_iff in Hs. destruct Hs as [H2 Hs].
        apply andb_true_iff in Hs. destruct Hs as [H3 _].
        apply N.eqb_eq in H1, H2, H3. subst. reflexivity.
    + simpl. auto.
  - exists (Plain l). split; [reflexivity|]. split; [|assumption].
    rewrite E, !calm_app.
    rewrite (@calm_no_backtick a _ Ba), (@calm_no_backtick b _ Bb).
    rewrite (@calm_tail (trim l) (b ++ [nl]) []).
    + rewrite calm_includes, Ei. reflexivity.
    + destruct b as [|c b0]; [discriminate|].
      intros ->. apply Bb. now left.
    + exact I.
Qed.

Lemma classify_lines (ls : list str) :
  (forall l, In l ls ->
     ~ In nl l /\
     (includes fence (trim l) = true -> fence_line l = true)) ->
  exists L, map fline_text L = ls /\ Forall well_formed L.
Proof.
  induction ls as [|l ls IH]; intros H.
  - exists []. split; [reflexivity | constructor].
  - destruct IH as (L & EL & HL); [intros; apply H; now right|].
    destruct (H l (or_introl eq_refl)) as [Hn Hf].
    destruct (@classify_line l Hn Hf) as (x & Ex & Hx).
    exists (x :: L). split; [simpl; congruence | now constructor].
Qed.

(** C2 (amended).  Take a text in which every line that holds three
    backticks in a row is a fence marker standing alone (white space, the
    three backticks, a tag of word characters, white space), and in which
    every line that holds a command call begins, once trimmed, with a
    command signature.  Parsing the cleaned text then yields no command,
    whatever the fences enclose. *)
Theorem parse_of_cleaned_text_is_empty :
  forall text,
    (forall line, In line (split_nl text) ->
       includes fence line = true -> fence_line line = true) ->
    (forall line, In line (split_nl text) ->
       parse_line line <> None -> keep_line line = false) ->
    parseCommands (cleanMessageText text) = [].
Proof.
  intros text Hfence Hsig.
  set (u := cleanMessageText text).
  assert (Hsrc : forall l, In l (split_nl u) -> trim l <> [] ->
            exists l0, In l0 (split_nl text) /\ keep_line l0 = true /\
                       trim l0 = trim l).
  { intros l Hl Hne.
    assert (Hin : In (trim l) (texts (split_nl u))).
    { unfold texts. apply filter_In. split; [now apply in_map|].
      destruct (trim l); [congruence | reflexivity]. }
    unfold u in Hin. rewrite texts_cleanMessageText in Hin.
    unfold texts in Hin. apply filter_In in Hin. destruct Hin as [Hin _].
    apply in_map_iff in Hin. destruct Hin as (l0 & Ht & Hl0).
    apply filter_In in Hl0. destruct Hl0 as [Hl0 Hk]. eauto. }
  assert (Hquiet : forall l, In l (split_nl u) -> parse_line l = None).
  { intros l Hl.
    destruct (parse_line l) as [c|] eqn:Hp; [exfalso | reflexivity].
    destruct (Hsrc l Hl) as (l0 & Hl0 & Hk & Ht).
    { intros E. rewrite (@parse_line_blank _ E) in Hp. discriminate. }
    rewrite (Hsig l0 Hl0) in Hk; [discriminate|].
    rewrite (@parse_line_trim _ _ Ht), Hp. discriminate. }
  assert (Hmark : forall l, In l (split_nl u) ->
            ~ In nl l /\
            (includes fence (trim l) = true -> fence_line l = true)).
  { intros l Hl. split.
    - apply nl_free_iff.
      pose proof (split_nl_lines_nl_free u) as HF.
      rewrite Forall_forall in HF. now apply HF.
    - intros Hi. destruct (Hsrc l Hl) as (l0 & Hl0 & _ & Ht).
      { intros E. rewrite E in Hi. discriminate. }
      unfold fence_line. rewrite <- Ht. apply (Hfence l0 Hl0).
      apply includes_trim. now rewrite Ht. }
  destruct (@classify_lines _ Hmark) as (L & EL & HL).
  assert (HLne : L <> []).
  { intros ->. simpl in EL. symmetry in EL.
    now apply split_nl_nonempty in EL. }
  rewrite parseCommands_lines. fold u.
  rewrite <- (join_split u), <- EL.
  rewrite (@replace_all_join L HLne HL).
  rewrite split_join.
  - apply flat_map_nil. intros l Hl.
    assert (HF : Forall (fun l => parse_line l = None) (unfenced false L)).
    { apply unfenced_Forall; [| |assumption|].
      - intros a tag b (Ha & Hb & Ht & _).
        apply parse_line_needs_parenthesis.
        apply not_in_app; [now apply spaces_have_no|].
        apply not_in_app; [now apply words_have_no
                          | now apply spaces_have_no].
      - intros a l0 Ha _ H0. rewrite <- H0. apply parse_line_trim.
        now apply trim_space_prefix.
      - apply Forall_forall. intros x Hx. apply Hquiet.
        rewrite <- EL. now apply in_map. }
    rewrite Forall_forall in HF. now rewrite (HF l Hl).
  - now apply unfenced_starts.
  - apply unfenced_Forall; [| |assumption|].
    + intros a tag b (Ha & Hb & Ht & Hna & Hnb). apply nl_free_iff.
      apply not_in_app; [assumption|].
      apply not_in_app; [now apply words_have_no | assumption].
    + intros a l0 _ Hna H0. apply nl_free_iff.
      apply not_in_app; [assumption | now apply nl_free_iff].
    + apply Forall_forall. intros x Hx.
      pose proof (split_nl_lines_nl_free u) as HF.
      rewrite Forall_forall in HF. apply HF.
      rewrite <- EL. now apply in_map.
Qed.

Lemma parse_of_cleaned_text_is_empty_witness :
  let text := js "Plan:" ++ [nl] ++ js "```" ++ [nl] ++
              js "CLICK(10, 20)" ++ [nl] ++ js "```" in
  parseCommands text = [Click 10 20] /\
  parseCommands (cleanMessageText text) = [].
Proof.
  intros text. split; [vm_compute; reflexivity|].
  apply parse_of_cleaned_text_is_empty.
  - intros line Hin Hi. vm_compute in Hin.
    repeat (destruct Hin as [<-|Hin]; [vm_compute in Hi |- *;
      congruence|]). destruct Hin.
  - intros line Hin Hp. vm_compute in Hin.
    repeat (destruct Hin as [<-|Hin];
      [first [reflexivity | exfalso; apply Hp; reflexivity]|]).
    destruct Hin.
Defined.

(** Neither condition can be left out.  The first text meets the one on
    fence markers, the second the one on command calls, and each is
    parsed into a command after cleaning. *)
Lemma cleaned_text_conditions_are_independent :
  let prose := js "Now CLICK(10, 20) please" in
  let torn := js "x CLICK(1, ```" ++ [nl] ++ js "2)```" in
  (forall line, In line (split_nl prose) ->
     includes fence line = true -> fence_line line = true) /\
  parseCommands (cleanMessageText prose) <> [] /\
  (forall line, In line (split_nl torn) ->
     parse_line line <> None -> keep_line line = false) /\
  parseCommands (cleanMessageText torn) <> [].
Proof.
  cbv zeta. split; [|split; [|split]].
  - intros line Hin Hi. vm_compute in Hin.
    destruct Hin as [<-|[]]. vm_compute in Hi. discriminate.
  - vm_compute. discriminate.
  - intros line Hin Hp. vm_compute in Hin.
    destruct Hin as [<-|[<-|[]]]; exfalso; apply Hp; vm_compute;
      reflexivity.
  - vm_compute. discriminate.
Qed.
